(** * ThreatLens: feed aggregation, AI retry policy and the table of ideas

    A shallow embedding of [lib/news_fetcher.py], [lib/ai_insight.py],
    [lib/utils.py], [lib/database.py] and the argument checks of the cogs.

    Python values are modelled as follows.
    - A [str] is a list of Unicode code points ([pystr]); [len] is [length].
    - An [int] is a [Z].
    - An exception that leaves a function is a [Raise] result; an exception
      caught inside a function is resolved there, as in the source.
    - The network (feed documents, the NVD API, the Gemini transport) is an
      explicit world value the functions read from; the database is an
      explicit table the functions of [lib/database.py] step.
    - Library functions whose tables are not part of the repository
      ([datetime.fromisoformat], [str.lower], [json.loads]) are parameters;
      the facts below hold for every instance.  Small concrete instances are
      given for the worked examples. *)

From Stdlib Require Import String Ascii.
From Stdlib Require Import List ZArith NArith QArith Lia Bool.
From Stdlib Require Import Permutation Sorting.Sorted.
Import ListNotations.
Close Scope Q_scope.

Set Implicit Arguments.

(** ** Python strings *)

Module Py.

Definition pystr := list N.

(** A literal written in ASCII. *)
Definition lit (s : string) : pystr :=
  map N_of_ascii (list_ascii_of_string s).

(** [s.startswith(p)] *)
Fixpoint starts_with (p s : pystr) : bool :=
  match p, s with
  | [], _ => true
  | _ :: _, [] => false
  | a :: p', b :: s' => (a =? b)%N && starts_with p' s'
  end.

(** [p in s] for two strings: [p] occurs in [s] as a contiguous run. *)
Fixpoint contains (p s : pystr) : bool :=
  starts_with p s ||
  match s with
  | [] => false
  | _ :: s' => contains p s'
  end.

(** [s == t] *)
Definition str_eqb (s t : pystr) : bool :=
  if list_eq_dec N.eq_dec s t then true else false.

(** Truthiness of a string: [bool(s)]. *)
Definition truthy (s : pystr) : bool :=
  match s with [] => false | _ :: _ => true end.

(** [s.replace(old, new)] for a non-empty [old] (every use in the source):
    one left-to-right pass over non-overlapping occurrences.  [skip] counts
    the characters of the current occurrence still to be dropped. *)
Fixpoint replace_from (old new : pystr) (skip : nat) (s : pystr) : pystr :=
  match s with
  | [] => []
  | c :: r =>
      match skip with
      | S k => replace_from old new k r
      | O =>
          if starts_with old s
          then new ++ replace_from old new (length old - 1) r
          else c :: replace_from old new 0 r
      end
  end.

Definition replace (old new s : pystr) : pystr := replace_from old new 0 s.

(** [c.isspace()], the characters [str.strip()] removes. *)
Definition isspace (c : N) : bool :=
  ((9 <=? c) && (c <=? 13) || (28 <=? c) && (c <=? 32) || (c =? 133) ||
   (c =? 160) || (c =? 5760) || (8192 <=? c) && (c <=? 8202) ||
   (c =? 8232) || (c =? 8233) || (c =? 8239) || (c =? 8287) ||
   (c =? 12288))%N.

Fixpoint lstrip (s : pystr) : pystr :=
  match s with
  | [] => []
  | c :: r => if isspace c then lstrip r else s
  end.

Definition rstrip (s : pystr) : pystr := rev (lstrip (rev s)).

(** [s.strip()] *)
Definition strip (s : pystr) : pystr := rstrip (lstrip s).

(** [l[:n]] for an [int] [n]: a negative bound counts from the end. *)
Definition slice_to {A} (n : Z) (l : list A) : list A :=
  if (0 <=? n)%Z then firstn (Z.to_nat n) l
  else firstn (length l - Z.to_nat (- n)) l.

(** [s.split(sep)[-1]] for a one-character [sep]: the text after the last
    separator (the whole string when there is none). *)
Fixpoint last_field (sep : N) (acc s : pystr) : pystr :=
  match s with
  | [] => rev acc
  | c :: r => if (c =? sep)%N then last_field sep [] r
              else last_field sep (c :: acc) r
  end.

(** [str(n)] for a non-negative integer, and zero-padded [%0wd]. *)
Definition digit (d : nat) : N := (48 + N.of_nat d)%N.

Fixpoint digits_fuel (fuel n : nat) (acc : pystr) : pystr :=
  match fuel with
  | O => acc
  | S f =>
      let acc' := digit (n mod 10) :: acc in
      if (n / 10 =? 0)%nat then acc' else digits_fuel f (n / 10) acc'
  end.

Definition str_of_nat (n : nat) : pystr := digits_fuel (S n) n [].

Definition zero_pad (w : nat) (s : pystr) : pystr :=
  repeat 48%N (w - length s) ++ s.

End Py.
Import Py.

(** ** Exceptions and dates *)

(** The only exception that can leave the functions of
    [lib/news_fetcher.py] is the [TypeError] of a comparison between an
    offset-naive and an offset-aware [datetime]. *)
Inductive exn := TypeError.

Inductive result (A : Type) :=
| Ok (a : A)
| Raise (e : exn).
Arguments Ok {A} a.
Arguments Raise {A} e.

Definition bind {A B} (r : result A) (k : A -> result B) : result B :=
  match r with
  | Ok a => k a
  | Raise e => Raise e
  end.

Notation "x <- c ;; k" := (bind c (fun x => k))
  (at level 61, c at next level, right associativity).

(** A [datetime] as far as ordering sees it.  A naive value is its distance
    in microseconds from [datetime.min] (0001-01-01T00:00:00); an aware value
    is its UTC instant on the same scale, which an offset may move before
    [datetime.min]. *)
Inductive datetime :=
| Naive (us : N)
| Aware (utc_us : Z).

(** [datetime.min] is naive. *)
Definition datetime_min : datetime := Naive 0.

(** [a < b] on [datetime]: mixing naive and aware raises [TypeError]. *)
Definition datetime_lt (a b : datetime) : result bool :=
  match a, b with
  | Naive x, Naive y => Ok (x <? y)%N
  | Aware x, Aware y => Ok (x <? y)%Z
  | _, _ => Raise TypeError
  end.

(** [list.sort(key=..., reverse=True)] on precomputed keys.  The library sort
    is stable, also under [reverse=True]; a list has one stable descending
    arrangement ([ranking_unique] below), the one this insertion builds by
    placing [x] before the first element that is not greater.  The library
    sort compares with [<] only and links all elements through its
    comparisons, so on two or more elements it meets a naive/aware pair, and
    raises, exactly when the keys are of both kinds, as this one does. *)
Fixpoint insert_desc {A} (x : datetime * A) (l : list (datetime * A))
  : result (list (datetime * A)) :=
  match l with
  | [] => Ok [x]
  | y :: l' =>
      lt <- datetime_lt (fst x) (fst y) ;;
      if lt then (r <- insert_desc x l' ;; Ok (y :: r))
      else Ok (x :: l)
  end.

Fixpoint sort_keyed_desc {A} (l : list (datetime * A))
  : result (list (datetime * A)) :=
  match l with
  | [] => Ok []
  | x :: l' => s <- sort_keyed_desc l' ;; insert_desc x s
  end.

(** The element paired with its key, computed once before sorting. *)
Definition keyed {A} (key : A -> datetime) (a : A) : datetime * A :=
  (key a, a).

Definition sort_reverse {A} (key : A -> datetime) (l : list A)
  : result (list A) :=
  s <- sort_keyed_desc (map (keyed key) l) ;; Ok (map snd s).

Definition is_leap (y : Z) : bool :=
  ((y mod 4 =? 0) && (negb (y mod 100 =? 0) || (y mod 400 =? 0)))%Z.

Definition days_in_month (y m : Z) : Z :=
  if (m =? 2)%Z then (if is_leap y then 29 else 28)%Z
  else if ((m =? 4) || (m =? 6) || (m =? 9) || (m =? 11))%Z then 30%Z
  else 31%Z.

Record civil := {
  year : Z; month : Z; day : Z; hour : Z; minute : Z; second : Z
}.

Definition between (lo x hi : Z) : bool := ((lo <=? x) && (x <=? hi))%Z.

(** The [datetime] built from the fields of a time tuple.  The constructor
    wants year, month and day (fewer arguments: [TypeError]) and checks the
    range of every field ([ValueError]); the caller catches both, hence
    [None]. *)
Definition datetime_new (t : list Z) : option civil :=
  match t with
  | y :: m :: d :: rest =>
      let h := nth 0 rest 0%Z in
      let mi := nth 1 rest 0%Z in
      let s := nth 2 rest 0%Z in
      if between 1 y 9999 && between 1 m 12 &&
         between 1 d (days_in_month y m) &&
         between 0 h 23 && between 0 mi 59 && between 0 s 59
      then Some {| year := y; month := m; day := d;
                   hour := h; minute := mi; second := s |}
      else None
  | _ => None
  end.

Definition fmt (w : nat) (z : Z) : pystr :=
  zero_pad w (str_of_nat (Z.to_nat z)).

(** [d.isoformat()] when the microsecond is 0: [YYYY-MM-DDTHH:MM:SS]. *)
Definition isoformat (d : civil) : pystr :=
  fmt 4 (year d) ++ lit "-" ++ fmt 2 (month d) ++ lit "-" ++ fmt 2 (day d)
  ++ lit "T" ++ fmt 2 (hour d) ++ lit ":" ++ fmt 2 (minute d) ++ lit ":"
  ++ fmt 2 (second d).

(** ** [lib/news_fetcher.py] *)

Module news_fetcher.

Definition NEWS_FEEDS : list pystr := map lit [
  "https://feeds.feedburner.com/TheHackersNews";
  "https://www.bleepingcomputer.com/feed/";
  "https://krebsonsecurity.com/feed/";
  "https://threatpost.com/feed/";
  "https://www.darkreading.com/rss.xml";
  "https://www.securityweek.com/rss";
  "https://www.infosecurity-magazine.com/rss/news/";
  "https://www.csoonline.com/index.rss";
  "https://www.zdnet.com/topic/security/rss.xml";
  "https://www.wired.com/feed/tag/security/latest/rss";
  "https://feeds.feedburner.com/SecurityFocus";
  "https://www.schneier.com/feed/";
  "https://www.theregister.com/security/headlines.atom";
  "https://www.cyberscoop.com/feed/";
  "https://www.cybersecurity-insiders.com/feed/";
  "https://www.securitymagazine.com/rss/topic/219-information-security";
  "https://www.helpnetsecurity.com/feed/";
  "https://www.securityaffairs.com/feed";
  "https://www.hackread.com/feed/";
  "https://www.securitynewspaper.com/feed/"
]%string.

Definition CVE_FEEDS : list pystr := map lit [
  "https://nvd.nist.gov/feeds/xml/cve/misc/nvd-rss-analyzed.xml";
  "https://www.securityfocus.com/vulnerabilities/rss"
]%string.

(** *** [_HTML_TAG_PATTERN.sub('', text)]

    The pattern is [<[^<]+?>]: a [<], one character other than [<] (it may
    be [>]), then lazily more such characters up to the first [>]; a [<] or
    the end of the text before that [>] means no match at this place. *)

Definition LT : N := 60.
Definition GT : N := 62.

(** Characters up to and including the closing [>]. *)
Fixpoint tag_close (s : pystr) : option nat :=
  match s with
  | [] => None
  | c :: r =>
      if (c =? GT)%N then Some 1
      else if (c =? LT)%N then None
      else option_map S (tag_close r)
  end.

(** Length of the match at the start of [s]. *)
Definition tag_match (s : pystr) : option nat :=
  match s with
  | a :: b :: r =>
      if (a =? LT)%N && negb (b =? LT)%N
      then option_map (fun n => 2 + n) (tag_close r)
      else None
  | _ => None
  end.

(** One left-to-right pass deleting every match; scanning resumes after a
    match ([skip] counts the characters of the match still to drop). *)
Fixpoint tag_sub_from (skip : nat) (s : pystr) : pystr :=
  match s with
  | [] => []
  | c :: r =>
      match skip with
      | S k => tag_sub_from k r
      | O =>
          match tag_match s with
          | Some n => tag_sub_from (n - 1) r
          | None => c :: tag_sub_from 0 r
          end
      end
  end.

Definition HTML_TAG_sub (text : pystr) : pystr := tag_sub_from 0 text.

Definition NBSP : pystr := lit "&nbsp;".
Definition AMP : pystr := lit "&amp;".

Definition _clean_html (text : pystr) : pystr :=
  if negb (truthy text) || negb (contains (lit "<") text) then text
  else
    let text := HTML_TAG_sub text in
    let text := replace AMP (lit "&") (replace NBSP (lit " ") text) in
    strip text.

(** *** Items *)

Inductive ItemType := CVE | News.

(** The dictionary built for one item.  [cve_id] and [cvss_score] are [None]
    when the key is missing or holds [None]. *)
Record Item := {
  title : pystr;
  link : pystr;
  summary : pystr;
  source : pystr;
  date : option pystr;
  type : ItemType;
  cve_id : option pystr;
  cvss_score : option Q
}.

(** A feed entry as [feedparser] hands it over: text fields that may be
    missing, and the publication time as the integers of a
    [time.struct_time] ([None] when missing or not understood by the
    parser). *)
Record FeedEntry := {
  entry_title : option pystr;
  entry_link : option pystr;
  entry_summary : option pystr;
  entry_description : option pystr;
  published_parsed : option (list Z)
}.

(** [a or b] on optional strings: the first one that is present and not
    empty. *)
Definition or_else (a : option pystr) (b : pystr) : pystr :=
  match a with
  | Some s => if truthy s then s else b
  | None => b
  end.

Definition get_default (a : option pystr) (d : pystr) : pystr :=
  match a with
  | Some s => s
  | None => d
  end.

Section Library.

(** The decimal digits [\d] matches in a [str] pattern (a Unicode table). *)
Variable re_digit : N -> bool.

(** [datetime.fromisoformat]; [None] stands for its [ValueError]. *)
Variable fromisoformat : pystr -> option datetime.

Fixpoint take_while (f : N -> bool) (s : pystr) : pystr :=
  match s with
  | [] => []
  | c :: r => if f c then c :: take_while f r else []
  end.

(** [CVE-\d{4}-\d{4,}] matched at the start of [s]. *)
Definition cve_match (s : pystr) : option pystr :=
  if starts_with (lit "CVE-") s then
    let r := skipn 4 s in
    let y := firstn 4 r in
    if (length y =? 4)%nat && forallb re_digit y then
      match skipn 4 r with
      | c :: r2 =>
          let ds := take_while re_digit r2 in
          if (c =? 45)%N && (4 <=? length ds)%nat
          then Some (lit "CVE-" ++ y ++ lit "-" ++ ds)
          else None
      | [] => None
      end
    else None
  else None.

(** [re.search]: the leftmost match. *)
Fixpoint cve_search (s : pystr) : option pystr :=
  match cve_match s with
  | Some m => Some m
  | None =>
      match s with
      | [] => None
      | _ :: r => cve_search r
      end
  end.

(** [entry.get('summary') or entry.get('description') or '...'] *)
Definition entry_text (entry : FeedEntry) : pystr :=
  or_else (entry_summary entry)
    (or_else (entry_description entry) (lit "No description available.")).

Definition _parse_feed_entry (entry : FeedEntry) (source_name : pystr)
  (is_cve : bool) : option Item :=
  let title := get_default (entry_title entry) (lit "Untitled") in
  let link := get_default (entry_link entry) [] in
  let summary := _clean_html (entry_text entry) in
  let date_str :=
    match published_parsed entry with
    | Some ((_ :: _) as t) => option_map isoformat (datetime_new (firstn 6 t))
    | _ => None
    end in
  Some {|
    title := title;
    link := link;
    summary := if (500 <? length summary)%nat then firstn 500 summary
               else summary;
    source := source_name;
    date := date_str;
    type := if is_cve then CVE else News;
    cve_id := if is_cve then cve_search (title ++ lit " " ++ link) else None;
    cvss_score := None
  |}.

(** *** The network *)

Inductive ParseOutcome :=
| ParseRaises (msg : pystr)
| Parsed (entries : list FeedEntry).

(** The NVD reply, typed after the fields the code reads, with the value
    types of the NVD schema; any key may be missing and any list empty. *)
Record Description := { lang : option pystr; value : option pystr }.

Record CvssData := { baseScore : option Q }.

Record Metric := { cvssData : option CvssData }.

Record Metrics := {
  cvssMetricV31 : option (list Metric);
  cvssMetricV30 : option (list Metric);
  cvssMetricV2 : option (list Metric)
}.

Record CveData := {
  id : option pystr;
  descriptions : option (list Description);
  metrics : option Metrics;
  published : option pystr
}.

Record Vulnerability := { cve : option CveData }.

Record NvdData := { vulnerabilities : option (list Vulnerability) }.

Inductive HttpOutcome :=
| RequestRaises (msg : pystr)
| Responded (status_code : Z) (json : option NvdData).

(** What one call of the aggregator sees of the outside: the outcome of
    [feedparser.parse] for a URL, of [requests.get] on the NVD endpoint for a
    [resultsPerPage] value ([json] is [None] when [response.json()] raises),
    and the order in which the pool's futures complete. *)
Record World := {
  feedparser_parse : pystr -> ParseOutcome;
  requests_get : Z -> HttpOutcome;
  as_completed : list (pystr * pystr) -> list (pystr * pystr)
}.

Fixpoint filter_map {A B} (f : A -> option B) (l : list A) : list B :=
  match l with
  | [] => []
  | a :: l' =>
      match f a with
      | Some b => b :: filter_map f l'
      | None => filter_map f l'
      end
  end.

Definition _fetch_rss_feed (w : World) (feed_url source_name : pystr)
  (is_cve : bool) (max_items : Z) : list Item :=
  match feedparser_parse w feed_url with
  | ParseRaises _ => []
  | Parsed entries =>
      filter_map (fun entry => _parse_feed_entry entry source_name is_cve)
        (slice_to max_items entries)
  end.

(** *** [_fetch_nvd_cve_recent] *)

Definition NO_DESCRIPTION : pystr := lit "No description available.".

(** The loop over [descriptions] that stops at the first English one. *)
Fixpoint english_value (ds : list Description) (description : pystr) : pystr :=
  match ds with
  | [] => description
  | desc :: ds' =>
      match lang desc with
      | Some l =>
          if str_eqb l (lit "en") then get_default (value desc) description
          else english_value ds' description
      | None => english_value ds' description
      end
  end.

Definition describe (ds : option (list Description)) : pystr :=
  match ds with
  | Some ((d0 :: _) as l) =>
      let description := english_value l NO_DESCRIPTION in
      if str_eqb description NO_DESCRIPTION
      then get_default (value d0) description
      else description
  | _ => NO_DESCRIPTION
  end.

(** The loop over the three metric keys, in order; a key counts when it is
    present with a non-empty list. *)
Fixpoint first_metric (keys : list (option (list Metric))) : option Q :=
  match keys with
  | [] => None
  | Some (m :: _) :: _ =>
      match cvssData m with
      | Some c => baseScore c
      | None => None
      end
  | _ :: rest => first_metric rest
  end.

Definition cvss_of (ms : option Metrics) : option Q :=
  match ms with
  | Some m => first_metric [cvssMetricV31 m; cvssMetricV30 m; cvssMetricV2 m]
  | None => None
  end.

Definition EMPTY_CVE : CveData :=
  {| id := None; descriptions := None; metrics := None; published := None |}.

Definition NIST_NVD : pystr := lit "NIST NVD".

(** [vuln.get('cve', {})] *)
Definition cve_of (vuln : Vulnerability) : CveData :=
  match cve vuln with
  | Some c => c
  | None => EMPTY_CVE
  end.

Definition nvd_item (vuln : Vulnerability) : Item :=
  let cve_data := cve_of vuln in
  let cve_id := get_default (id cve_data) (lit "Unknown") in
  let description := describe (descriptions cve_data) in
  {|
    title := cve_id ++ lit ": " ++ slice_to 100 description;
    link := lit "https://nvd.nist.gov/vuln/detail/" ++ cve_id;
    summary := slice_to 500 description;
    source := NIST_NVD;
    date := Some (get_default (published cve_data) []);
    type := CVE;
    cve_id := Some cve_id;
    cvss_score := cvss_of (metrics cve_data)
  |}.

Definition _fetch_nvd_cve_recent (w : World) (limit : Z) : list Item :=
  match requests_get w (Z.min limit 20) with
  | RequestRaises _ => []
  | Responded status_code json =>
      if (status_code =? 200)%Z then
        match json with
        | Some data =>
            match vulnerabilities data with
            | Some vulns => map nvd_item (slice_to limit vulns)
            | None => []
            end
        | None => []
        end
      else []
  end.

(** *** The aggregator *)

Definition SLASH : N := 47.

Definition news_source_name (feed_url : pystr) : pystr :=
  replace (lit ".atom") [] (replace (lit ".rss") []
    (replace (lit ".xml") [] (last_field SLASH [] feed_url))).

Definition cve_source_name (feed_url : pystr) : pystr :=
  if contains (lit "/") feed_url then last_field SLASH [] feed_url
  else lit "CVE Feed".

Definition get_sort_key (item : Item) : datetime :=
  match date item with
  | Some date_str =>
      if truthy date_str then
        match fromisoformat (replace (lit "Z") (lit "+00:00") date_str) with
        | Some d => d
        | None => datetime_min
        end
      else datetime_min
  | None => datetime_min
  end.

(** The items in the order in which they are collected, before the sort. *)
Definition collect_news (w : World) (include_cves : bool) : list Item :=
  let futures := map (fun feed_url => (feed_url, news_source_name feed_url))
                   NEWS_FEEDS in
  let all_items :=
    flat_map (fun f => _fetch_rss_feed w (fst f) (snd f) false 2)
      (as_completed w futures) in
  if include_cves then
    all_items ++
    flat_map (fun feed_url =>
                _fetch_rss_feed w feed_url (cve_source_name feed_url) true 2)
      CVE_FEEDS ++
    _fetch_nvd_cve_recent w 3
  else all_items.

Definition get_latest_news (w : World) (limit : Z) (include_cves : bool)
  : result (list Item) :=
  all_items <- sort_reverse get_sort_key (collect_news w include_cves) ;;
  Ok (slice_to limit all_items).

Definition collect_cves (w : World) (limit : Z) : list Item :=
  flat_map (fun feed_url =>
              _fetch_rss_feed w feed_url (cve_source_name feed_url) true 3)
    CVE_FEEDS ++
  _fetch_nvd_cve_recent w limit.

Definition get_cves_only (w : World) (limit : Z) : result (list Item) :=
  cve_items <- sort_reverse get_sort_key (collect_cves w limit) ;;
  Ok (slice_to limit cve_items).

End Library.

End news_fetcher.

(** ** [lib/ai_insight.py] *)

Module ai_insight.

Import news_fetcher.

Definition NL : pystr := [10%N].
Definition WARNING_SIGN : pystr := [9888%N; 65039%N].
Definition CROSS_MARK : pystr := [10060%N].

Definition NOT_CONFIGURED : pystr :=
  lit "Error: GEMINI_API_KEY not configured in environment.".

Definition OVERLOADED : pystr :=
  WARNING_SIGN ++
  lit " The AI service is currently overloaded. Please try again in a few moments.".

Definition AUTH_FAILED : pystr :=
  CROSS_MARK ++
  lit " API authentication failed. Please check your GEMINI_API_KEY.".

Definition RATE_LIMITED : pystr :=
  WARNING_SIGN ++
  lit " Rate limit exceeded. Please wait a moment before trying again.".

Definition SERVICE_ERROR (error_str : pystr) : pystr :=
  CROSS_MARK ++ lit " AI service error: " ++ slice_to 200 error_str.

Definition GAVE_UP : pystr :=
  CROSS_MARK ++
  lit " Failed to generate ideas after multiple attempts. Please try again later.".

(** [str(e)] of the [TypeError] that [json.loads(None)] raises. *)
Definition NOT_A_STRING : pystr :=
  lit "the JSON object must be str, bytes or bytearray, not NoneType".

(** [sep.join(l)] *)
Fixpoint join (sep : pystr) (l : list pystr) : pystr :=
  match l with
  | [] => []
  | [x] => x
  | x :: l' => x ++ sep ++ join sep l'
  end.

Fixpoint enumerate {A} (i : nat) (l : list A) : list (nat * A) :=
  match l with
  | [] => []
  | a :: l' => (i, a) :: enumerate (S i) l'
  end.

Definition article (ix : nat * Item) : pystr :=
  lit "Article " ++ str_of_nat (fst ix + 1) ++ lit ":" ++ NL ++
  lit "Title: " ++ title (snd ix) ++ NL ++
  lit "Link: " ++ link (snd ix) ++ NL ++
  lit "Summary: " ++ summary (snd ix).

Definition news_text (news_items : list Item) : pystr :=
  join (NL ++ NL) (map article (enumerate 0 news_items)).

(** What the function does to the outside, in order. *)
Inductive Event :=
| NewClient
| GenerateContent (prompt : pystr)
| Sleep (seconds : Z).

(** The reply to one [generate_content] call: an exception with its
    [str(e)], or a response with its [text]. *)
Inductive Reply :=
| Raises (error_str : pystr)
| Text (text : option pystr).

(** The environment of a call: the variable [GEMINI_API_KEY], and for the
    attempt of a given index whether [genai.Client()] raises (its [str(e)])
    and what [generate_content] answers to a prompt. *)
Record Env := {
  GEMINI_API_KEY : option pystr;
  Client : nat -> option pystr;
  generate_content : nat -> pystr -> Reply
}.

Inductive RetryableError := Overload | AuthFailure | RateLimit | Unknown.

Section Library.

(** [str.lower] (Unicode case mapping). *)
Variable lower : pystr -> pystr.

(** [json.loads]: the decoded value, or [str(e)] of its
    [JSONDecodeError]. *)
Variable JsonValue : Type.
Variable json_loads : pystr -> JsonValue + pystr.

(** The text of the prompt literal before and after its [news_text]
    field. *)
Variable PROMPT_HEAD PROMPT_TAIL : pystr.

Inductive Outcome :=
| Ideas (v : JsonValue)
| Message (s : pystr).

(** The tests of the [if]/[elif] chain on [error_str]. *)
Definition is_overload (error_str : pystr) : bool :=
  contains (lit "503") error_str || contains (lit "UNAVAILABLE") error_str ||
  contains (lit "overloaded") (lower error_str).

Definition is_auth (error_str : pystr) : bool :=
  contains (lit "401") error_str || contains (lit "403") error_str ||
  contains (lit "API key") (lower error_str).

Definition is_rate_limit (error_str : pystr) : bool :=
  contains (lit "429") error_str ||
  contains (lit "rate limit") (lower error_str).

(** The branch the chain takes. *)
Definition classify (error_str : pystr) : RetryableError :=
  if is_overload error_str then Overload
  else if is_auth error_str then AuthFailure
  else if is_rate_limit error_str then RateLimit
  else Unknown.

Definition FENCE : pystr := [96%N; 96%N; 96%N].

(** The body of the [try]: the decoded ideas, or [str(e)] of the exception
    the [except Exception] clause receives. *)
Definition attempt_body (env : Env) (prompt : pystr) (attempt : nat)
  : (JsonValue + pystr) * list Event :=
  match Client env attempt with
  | Some error_str => (inr error_str, [NewClient])
  | None =>
      let events := [NewClient; GenerateContent prompt] in
      match generate_content env attempt prompt with
      | Raises error_str => (inr error_str, events)
      | Text None => (inr NOT_A_STRING, events)
      | Text (Some text) =>
          match json_loads text with
          | inl v => (inl v, events)
          | inr _ =>
              let text := strip (replace FENCE []
                                   (replace (FENCE ++ lit "json") [] text)) in
              (json_loads text, events)
          end
      end
  end.

(** The [for attempt in range(max_retries + 1)] loop from [attempt] on, with
    [remaining] iterations left; falling out of the loop returns
    [GAVE_UP]. *)
Fixpoint retry_loop (env : Env) (prompt : pystr) (max_retries : Z)
  (remaining attempt : nat) : Outcome * list Event :=
  match remaining with
  | O => (Message GAVE_UP, [])
  | S k =>
      let (r, events) := attempt_body env prompt attempt in
      let continue (seconds : Z) :=
        let (o, t) := retry_loop env prompt max_retries k (S attempt) in
        (o, events ++ Sleep seconds :: t) in
      match r with
      | inl v => (Ideas v, events)
      | inr error_str =>
          match classify error_str with
          | Overload =>
              if (Z.of_nat attempt <? max_retries)%Z
              then continue ((Z.of_nat attempt + 1) * 2)%Z
              else (Message OVERLOADED, events)
          | AuthFailure => (Message AUTH_FAILED, events)
          | RateLimit => (Message RATE_LIMITED, events)
          | Unknown =>
              if (Z.of_nat attempt <? max_retries)%Z
              then continue 1%Z
              else (Message (SERVICE_ERROR error_str), events)
          end
      end
  end.

Definition configured (env : Env) : bool :=
  match GEMINI_API_KEY env with
  | Some k => truthy k
  | None => false
  end.

Definition analyze_news_for_ideas (env : Env) (news_items : list Item)
  (max_retries : Z) : Outcome * list Event :=
  if negb (configured env) then (Message NOT_CONFIGURED, [])
  else
    let prompt := PROMPT_HEAD ++ news_text news_items ++ PROMPT_TAIL in
    retry_loop env prompt max_retries (Z.to_nat (max_retries + 1)) 0.

End Library.

Arguments Ideas {JsonValue} v.
Arguments Message {JsonValue} s.

End ai_insight.

(** ** Instances of the library parameters

    Used by the worked examples only.  [fromisoformat_core] reads the core
    of the ISO format, [YYYY-MM-DD] alone or followed by a separator,
    [HH:MM:SS], an optional fraction of 3 or 6 digits and an optional
    [+HH:MM] or [-HH:MM] offset; [ascii_lower] and [ascii_digit] are the
    ASCII part of the Unicode tables. *)

Module Instances.

Definition ascii_digit (c : N) : bool := ((48 <=? c) && (c <=? 57))%N.

Definition ascii_lower (s : pystr) : pystr :=
  map (fun c => if ((65 <=? c) && (c <=? 90))%N then (c + 32)%N else c) s.

Fixpoint digits_value (s : pystr) (acc : Z) : option Z :=
  match s with
  | [] => Some acc
  | c :: r =>
      if ascii_digit c then digits_value r (acc * 10 + (Z.of_N c - 48))%Z
      else None
  end.

(** A field of exactly [n] digits at the start of [s], and what follows. *)
Definition field (n : nat) (s : pystr) : option (Z * pystr) :=
  if (length (firstn n s) =? n)%nat then
    match digits_value (firstn n s) 0 with
    | Some v => Some (v, skipn n s)
    | None => None
    end
  else None.

Definition expect (c : N) (s : pystr) : option pystr :=
  match s with
  | a :: r => if (a =? c)%N then Some r else None
  | [] => None
  end.

Definition obind {A B} (o : option A) (k : A -> option B) : option B :=
  match o with
  | Some a => k a
  | None => None
  end.

Definition days_before_year (y : Z) : Z :=
  let p := (y - 1)%Z in (p * 365 + p / 4 - p / 100 + p / 400)%Z.

Definition days_before_month (y m : Z) : Z :=
  fold_left (fun acc k => (acc + days_in_month y (Z.of_nat k))%Z)
    (seq 1 (Z.to_nat m - 1)) 0%Z.

(** Microseconds from 0001-01-01T00:00:00 to the given wall-clock time. *)
Definition wall_us (y m d h mi s frac : Z) : Z :=
  ((((days_before_year y + days_before_month y m + (d - 1)) * 86400
     + h * 3600 + mi * 60 + s) * 1000000) + frac)%Z.

Definition parse_fraction (s : pystr) : option (Z * pystr) :=
  match s with
  | 46%N :: r =>
      let ds := news_fetcher.take_while ascii_digit r in
      let rest := skipn (length ds) r in
      match digits_value ds 0 with
      | Some v =>
          if (length ds =? 3)%nat then Some ((v * 1000)%Z, rest)
          else if (length ds =? 6)%nat then Some (v, rest)
          else None
      | None => None
      end
  | _ => Some (0%Z, s)
  end.

(** The offset in seconds, [None] inside for a naive time. *)
Definition parse_offset (s : pystr) : option (option Z) :=
  match s with
  | [] => Some None
  | sign :: r =>
      if ((sign =? 43) || (sign =? 45))%N then
        obind (field 2 r) (fun '(oh, r1) =>
        obind (expect 58 r1) (fun r2 =>
        obind (field 2 r2) (fun '(om, r3) =>
          match r3 with
          | [] =>
              if between 0 oh 23 && between 0 om 59 then
                let secs := (oh * 3600 + om * 60)%Z in
                Some (Some (if (sign =? 45)%N then (- secs)%Z else secs))
              else None
          | _ :: _ => None
          end)))
      else None
  end.

Definition fromisoformat_core (s : pystr) : option datetime :=
  obind (field 4 s) (fun '(y, s1) =>
  obind (expect 45 s1) (fun s2 =>
  obind (field 2 s2) (fun '(m, s3) =>
  obind (expect 45 s3) (fun s4 =>
  obind (field 2 s4) (fun '(d, s5) =>
    if between 1 y 9999 && between 1 m 12 && between 1 d (days_in_month y m)
    then
      match s5 with
      | [] => Some (Naive (Z.to_N (wall_us y m d 0 0 0 0)))
      | _ :: t =>
          obind (field 2 t) (fun '(h, t1) =>
          obind (expect 58 t1) (fun t2 =>
          obind (field 2 t2) (fun '(mi, t3) =>
          obind (expect 58 t3) (fun t4 =>
          obind (field 2 t4) (fun '(sec, t5) =>
          obind (parse_fraction t5) (fun '(frac, t6) =>
          obind (parse_offset t6) (fun off =>
            if between 0 h 23 && between 0 mi 59 && between 0 sec 59 then
              let us := wall_us y m d h mi sec frac in
              match off with
              | None => Some (Naive (Z.to_N us))
              | Some o => Some (Aware (us - o * 1000000)%Z)
              end
            else None)))))))
      end
    else None))))).

End Instances.

(** ** Vocabulary of the statements *)






Definition aware (d : datetime) : bool :=
  match d with
  | Aware _ => true
  | Naive _ => false
  end.

(** Keys that [<] compares pairwise without raising: all naive, or all
    aware. *)
Definition comparable (keys : list datetime) : Prop :=
  forall a b, In a keys -> In b keys -> aware a = aware b.

Definition datetime_eqb (a b : datetime) : bool :=
  match a, b with
  | Naive x, Naive y => (x =? y)%N
  | Aware x, Aware y => (x =? y)%Z
  | _, _ => false
  end.

Definition has_key {A} (key : A -> datetime) (k : datetime) (a : A) : bool :=
  datetime_eqb (key a) k.

(** [a] is not earlier than [b]: the order of a descending sequence. *)
Definition not_earlier {A} (key : A -> datetime) (a b : A) : Prop :=
  datetime_lt (key a) (key b) = Ok false.

(** The same on the keyed pairs the sort works on. *)
Definition ge_pair {A} (x y : datetime * A) : Prop :=
  datetime_lt (fst x) (fst y) = Ok false.

Definition pair_has {A} (k : datetime) (x : datetime * A) : bool :=
  datetime_eqb (fst x) k.

(** [sorted] ranks [items]: the same items, latest first, and the items of
    any one key in the order they have in [items]. *)
Record ranking {A} (key : A -> datetime) (items sorted : list A) : Prop := {
  ranking_perm : Permutation items sorted;
  ranking_desc : StronglySorted (not_earlier key) sorted;
  ranking_stable :
    forall k, filter (has_key key k) sorted = filter (has_key key k) items
}.

(** An item whose date is missing, empty or refused by the parser. *)
Definition undated (fromisoformat : pystr -> option datetime)
  (item : news_fetcher.Item) : Prop :=
  match news_fetcher.date item with
  | None => True
  | Some date_str =>
      truthy date_str = false \/
      fromisoformat (replace (lit "Z") (lit "+00:00") date_str) = None
  end.

(** An item whose date field the parser reads as [d]. *)
Definition dated (fromisoformat : pystr -> option datetime)
  (item : news_fetcher.Item) (d : datetime) : Prop :=
  exists date_str,
    news_fetcher.date item = Some date_str /\
    truthy date_str = true /\
    fromisoformat (replace (lit "Z") (lit "+00:00") date_str) = Some d.

(** A returned list is in descending order of the dates themselves: of two
    dated items the one placed first is not the earlier one, and no item
    dated after the sentinel is placed behind an undated one. *)
Definition descending_by_date (fromisoformat : pystr -> option datetime)
  (r : result (list news_fetcher.Item)) : Prop :=
  forall out l1 a l2 b l3,
    r = Ok out -> out = l1 ++ a :: l2 ++ b :: l3 ->
    (forall da db,
       dated fromisoformat a da -> dated fromisoformat b db ->
       datetime_lt da db = Ok false) /\
    (undated fromisoformat a ->
     forall db, dated fromisoformat b db ->
                datetime_lt datetime_min db <> Ok true).

(** No item placed after [a] in [out] has a key later than the sentinel. *)
Definition nothing_later_follows {A} (key : A -> datetime) (out : list A)
  (a : A) : Prop :=
  forall l1 l2 b, out = l1 ++ a :: l2 -> In b l2 ->
  datetime_lt datetime_min (key b) <> Ok true.

(** What a call returns on [items]: the first [limit] places of a ranking,
    itself latest first, with nothing dated after the sentinel behind an
    undated item. *)
Definition returns_ranked (fromisoformat : pystr -> option datetime)
  (items : list news_fetcher.Item) (limit : Z)
  (r : result (list news_fetcher.Item)) : Prop :=
  let key := news_fetcher.get_sort_key fromisoformat in
  exists sorted,
    ranking key items sorted /\
    r = Ok (slice_to limit sorted) /\
    StronglySorted (not_earlier key) (slice_to limit sorted) /\
    forall a, In a (slice_to limit sorted) -> undated fromisoformat a ->
              nothing_later_follows key (slice_to limit sorted) a.

(** The attempts and the sleeps of a trace, in order. *)
Definition attempts (t : list ai_insight.Event) : nat :=
  length (filter (fun e => match e with ai_insight.NewClient => true
                                      | _ => false end) t).

Fixpoint sleeps (t : list ai_insight.Event) : list Z :=
  match t with
  | [] => []
  | ai_insight.Sleep s :: t' => s :: sleeps t'
  | _ :: t' => sleeps t'
  end.

Definition from_source (s : pystr) (item : news_fetcher.Item) : bool :=
  str_eqb (news_fetcher.source item) s.

(** [comparable] as a test. *)
Definition comparableb (keys : list datetime) : bool :=
  match keys with
  | [] => true
  | k :: rest => forallb (fun a => Bool.eqb (aware a) (aware k)) rest
  end.

(** ** Scenarios

    Concrete outsides for the worked examples. *)

Module Scenarios.

Import news_fetcher ai_insight Instances.

Definition NVD_RSS : pystr :=
  lit "https://nvd.nist.gov/feeds/xml/cve/misc/nvd-rss-analyzed.xml".

Definition url_eqb (a b : pystr) : bool := str_eqb a b.

(** A feed entry with a title, a text and a publication time. *)
Definition entry (title text : pystr) (time : option (list Z)) : FeedEntry :=
  {| entry_title := Some title; entry_link := Some (lit "https://example.org/a");
     entry_summary := Some text; entry_description := None;
     published_parsed := time |}.

(** An NVD record with an English description and a publication date. *)
Definition record (cve_id text : pystr) (published : option pystr)
  : Vulnerability :=
  {| cve := Some {|
       id := Some cve_id;
       descriptions := Some [{| lang := Some (lit "en"); value := Some text |}];
       metrics := None;
       published := published |} |}.

(** Only the first vulnerability feed answers, with [entries]; the NVD API
    answers every request with [records]. *)
Definition outside (entries : list FeedEntry) (records : list Vulnerability)
  : World :=
  {| feedparser_parse := fun url =>
       if url_eqb url NVD_RSS then Parsed entries
       else ParseRaises (lit "urlopen error");
     requests_get := fun _ =>
       Responded 200 (Some {| vulnerabilities := Some records |});
     as_completed := fun futures => futures |}.

Definition may_day : list Z := [2024; 5; 1; 10; 0; 0; 2; 122; 0]%Z.

(** A feed entry dated by the feed (a naive date) next to an NVD record
    whose date ends in [Z] (an aware date). *)
Definition mixed_dates : World :=
  outside [entry (lit "CVE-2024-12345 in a VPN") (lit "Details.") (Some may_day)]
          [record (lit "CVE-2024-0001") (lit "Overflow.")
             (Some (lit "2024-05-02T08:00:00Z"))].

(** An NVD record without a date before one dated at the sentinel and one
    dated in 2024. *)
Definition sentinel_tie : World :=
  outside []
          [record (lit "CVE-2024-0001") (lit "Undated.") None;
           record (lit "CVE-2024-0002") (lit "Dated.")
             (Some (lit "0001-01-01T00:00:00"));
           record (lit "CVE-2024-0003") (lit "Later.")
             (Some (lit "2024-05-02T08:00:00"))].

Definition tie_undated : Item :=
  nvd_item (record (lit "CVE-2024-0001") (lit "Undated.") None).

Definition tie_dated : Item :=
  nvd_item (record (lit "CVE-2024-0002") (lit "Dated.")
              (Some (lit "0001-01-01T00:00:00"))).

Definition tie_later : Item :=
  nvd_item (record (lit "CVE-2024-0003") (lit "Later.")
              (Some (lit "2024-05-02T08:00:00"))).

(** Three feed entries and four NVD records, all with naive dates. *)
Definition busy : World :=
  outside
    [entry (lit "A") (lit "a") (Some [2024; 5; 1; 10; 0; 0; 2; 122; 0]%Z);
     entry (lit "B") (lit "b") (Some [2024; 5; 3; 10; 0; 0; 4; 124; 0]%Z);
     entry (lit "C") (lit "c") None]
    [record (lit "CVE-2024-0001") (lit "one") (Some (lit "2024-05-02T08:00:00.000"));
     record (lit "CVE-2024-0002") (lit "two") (Some (lit "2024-05-04T08:00:00.000"));
     record (lit "CVE-2024-0003") (lit "three") (Some (lit "2024-05-02T08:00:00.000"));
     record (lit "CVE-2024-0004") (lit "four") (Some (lit "not a date"))].

(** [busy] with the pool's futures completing in the opposite order and a
    news feed that answers. *)
Definition busy_elsewhere : World :=
  {| feedparser_parse := fun url =>
       if url_eqb url NVD_RSS then feedparser_parse busy url
       else if url_eqb url (lit "https://krebsonsecurity.com/feed/")
       then Parsed [entry (lit "News") (lit "n") (Some may_day)]
       else ParseRaises (lit "urlopen error");
     requests_get := requests_get busy;
     as_completed := fun futures => rev futures |}.

(** A text of 600 characters. *)
Definition long_text : pystr := repeat 97%N 600.

Definition long_entry : FeedEntry := entry (lit "Long") long_text None.

Definition long_record : World :=
  outside [] [record (lit "CVE-2024-0009") long_text None].

(** A transport on which every attempt fails with the same error. *)
Definition failing (key : option pystr) (error_str : pystr) : Env :=
  {| GEMINI_API_KEY := key;
     Client := fun _ => None;
     generate_content := fun _ _ => Raises error_str |}.

Definition no_json (text : pystr) : unit + pystr :=
  inr (lit "Expecting value: line 1 column 1 (char 0)").

(** A transport that fails with [error_str] on the first [n] attempts and
    then answers [text]; a decoder that takes a text starting with a bracket
    for JSON. *)
Definition recovering (n : nat) (error_str text : pystr) : Env :=
  {| GEMINI_API_KEY := Some (lit "key");
     Client := fun _ => None;
     generate_content := fun attempt _ =>
       if (attempt <? n)%nat then Raises error_str else Text (Some text) |}.

Definition bracketed (text : pystr) : pystr + pystr :=
  if starts_with (lit "[") text then inl text
  else inr (lit "Expecting value: line 1 column 1 (char 0)").

Definition HEAD : pystr := lit "LATEST CYBERSECURITY NEWS:".
Definition TAIL : pystr := lit "Return ONLY a valid JSON array.".

Definition one_item : list Item := [tie_dated].

Definition run (env : Env) (max_retries : Z) : Outcome unit * list Event :=
  analyze_news_for_ideas ascii_lower no_json HEAD TAIL env one_item max_retries.

Definition PROMPT : pystr := HEAD ++ news_text one_item ++ TAIL.

End Scenarios.

(** ** [lib/utils.py] *)

Module utils.

Import news_fetcher.

Definition ELLIPSIS : pystr := lit "...".

(** [truncate_text(text, max_length, suffix)]; the callers leave [suffix] at
    its default, [ELLIPSIS]. *)
Definition truncate_text (text : pystr) (max_length : Z) (suffix : pystr)
  : pystr :=
  if (Z.of_nat (length text) <=? max_length)%Z then text
  else slice_to (max_length - Z.of_nat (length suffix)) text ++ suffix.

Definition BULLET : pystr := [8226%N; 32%N].
Definition NEWLINE : pystr := [10%N].
Definition NONE_SPECIFIED : pystr := lit "None specified".

(** The loop of [truncate_list_to_field]: the lines appended to [result],
    from [current_length] characters on. *)
Fixpoint field_lines (items : list pystr) (max_length current_length : Z)
  : list pystr :=
  match items with
  | [] => []
  | item :: rest =>
      let item_text := BULLET ++ item ++ NEWLINE in
      if (max_length - 10 <? current_length + Z.of_nat (length item_text))%Z
      then [ELLIPSIS]
      else item_text ::
           field_lines rest max_length
             (current_length + Z.of_nat (length item_text))
  end.

Definition truncate_list_to_field (items : list pystr) (max_length : Z)
  : pystr :=
  match items with
  | [] => NONE_SPECIFIED
  | _ :: _ => strip (concat (field_lines items max_length 0))
  end.

(** [s.split(sep)] for a one-character [sep]. *)
Fixpoint split_from (sep : N) (acc s : pystr) : list pystr :=
  match s with
  | [] => [rev acc]
  | c :: r =>
      if (c =? sep)%N then rev acc :: split_from sep [] r
      else split_from sep (c :: acc) r
  end.

Definition split (sep : N) (s : pystr) : list pystr := split_from sep [] s.

Definition COMMA : N := 44.

Section Config.

(** The constants of [lib/config.py], which is not part of the sources. *)
Variable COLOR_WARNING COLOR_ERROR : Z.
Variable ALLOWED_IMPLEMENT_ROLES : list pystr.

(** [int(s)] on a string; [None] stands for its [ValueError]. *)
Variable int : pystr -> option Z.

Definition get_error_color (error_message : pystr) : Z :=
  if contains ai_insight.WARNING_SIGN error_message then COLOR_WARNING
  else if contains ai_insight.CROSS_MARK error_message then COLOR_ERROR
  else COLOR_ERROR.

(** The list comprehension over the fields: a field that is blank after
    [strip] is skipped, the first one [int] refuses raises [ValueError]. *)
Fixpoint parse_user_ids (fields : list pystr) : option (list Z) :=
  match fields with
  | [] => Some []
  | uid :: rest =>
      if truthy (strip uid) then
        match int (strip uid) with
        | Some n => option_map (cons n) (parse_user_ids rest)
        | None => None
        end
      else parse_user_ids rest
  end.

(** [ALLOWED_IMPLEMENT_USERS] is the value of the environment variable,
    [None] when it is not set. *)
Definition get_allowed_implement_users (ALLOWED_IMPLEMENT_USERS : option pystr)
  : list Z :=
  let env_users := get_default ALLOWED_IMPLEMENT_USERS [] in
  if truthy env_users then
    match parse_user_ids (split COMMA env_users) with
    | Some users => users
    | None => []
    end
  else [].

Definition mem_id (n : Z) (l : list Z) : bool := existsb (Z.eqb n) l.

Definition mem_role (r : pystr) (l : list pystr) : bool :=
  existsb (str_eqb r) l.

Definition nonempty {A} (l : list A) : bool :=
  match l with [] => false | _ :: _ => true end.

(** [user_roles] is [None] when the argument is left out. *)
Definition can_mark_implemented (ALLOWED_IMPLEMENT_USERS : option pystr)
  (user_id : Z) (user_roles : option (list pystr)) : bool :=
  let allowed_users := get_allowed_implement_users ALLOWED_IMPLEMENT_USERS in
  if nonempty allowed_users && mem_id user_id allowed_users then true
  else
    match user_roles with
    | Some ((_ :: _) as roles) =>
        if nonempty ALLOWED_IMPLEMENT_ROLES
        then existsb (fun role => mem_role role ALLOWED_IMPLEMENT_ROLES) roles
        else false
    | _ => false
    end.

End Config.

End utils.

(** ** [cogs/news_cog.py] and [cogs/saved_cog.py] *)

Module cogs.

Import utils.

Section Config.

Variable MIN_NEWS_LIMIT MAX_NEWS_LIMIT : Z.
Variable ALLOWED_IMPLEMENT_ROLES : list pystr.
Variable int : pystr -> option Z.

(** [news_cog.validate_news_limit]; [saved_cog._validate_limit] has the same
    body. *)
Definition validate_news_limit (limit : Z) : Z :=
  Z.max MIN_NEWS_LIMIT (Z.min MAX_NEWS_LIMIT limit).

Definition _validate_limit (limit : Z) : Z :=
  Z.max MIN_NEWS_LIMIT (Z.min MAX_NEWS_LIMIT limit).

(** [saved_cog._check_implement_permission], as the truth value its callers
    test.  [bot_owner_id] is [None] when the bot has no owner id. *)
Definition _check_implement_permission (ALLOWED_IMPLEMENT_USERS : option pystr)
  (user_id : Z) (user_roles : list pystr) (bot_owner_id : option Z) : bool :=
  let allowed_users :=
    get_allowed_implement_users int ALLOWED_IMPLEMENT_USERS in
  let is_owner :=
    match bot_owner_id with
    | Some owner => if (owner =? 0)%Z then false else (user_id =? owner)%Z
    | None => false
    end in
  can_mark_implemented ALLOWED_IMPLEMENT_ROLES int ALLOWED_IMPLEMENT_USERS
    user_id (Some user_roles)
  || is_owner
  || (nonempty allowed_users && mem_id user_id allowed_users).

End Config.

End cogs.

(** ** [lib/database.py]

    The [ideas] table is the list of its rows in insertion order together
    with the counter SQLite keeps for an [AUTOINCREMENT] key: a new row gets
    an id one above the largest id the table holds or has ever held, and
    when that is the largest 64-bit integer the insert fails ([database or
    disk is full]).  Every function opens its own connection, commits on
    leaving it and rolls back when an exception leaves it
    ([get_db_connection]), so a call is a step from one table to the next,
    and to the same table when it raises.  The binding of a parameter
    refuses an integer outside the 64-bit range ([OverflowError]) and a
    text with a surrogate code point ([UnicodeEncodeError]).  The database
    is taken to be there and initialised; an idea is a dictionary whose
    [title], [description] and [inspiration_link], when present, are
    strings. *)

Module database.

Record Row := {
  id : Z;
  title : pystr;
  description : pystr;
  inspiration_link : pystr;
  requirements : pystr;
  functionalities : pystr;
  created_at : pystr;
  implemented : bool;
  implemented_at : option pystr
}.

Record Table := { rows : list Row; sequence : Z }.

(** The table [init_database] creates. *)
Definition empty_table : Table := {| rows := []; sequence := 0 |}.

(** The exceptions that leave the functions of the module: of the binding
    of an integer, of the binding of a text, of an insert when the counter
    is exhausted, and of [json.loads] with its [str(e)]. *)
Inductive Exception :=
| OverflowError
| UnicodeEncodeError
| OperationalError
| JSONDecodeError (msg : pystr).

(** The largest id, [2**63 - 1]. *)
Definition MAX_ROWID : Z := 9223372036854775807.

(** An integer that can be bound as an SQLite [INTEGER]. *)
Definition sqlite_int (n : Z) : bool :=
  ((- MAX_ROWID - 1 <=? n) && (n <=? MAX_ROWID))%Z.

(** A text that can be bound: UTF-8 encodes every code point but the
    surrogates [U+D800] to [U+DFFF]. *)
Definition encodable (s : pystr) : bool :=
  forallb (fun c => negb ((55296 <=? c) && (c <=? 57343))%N) s.

(** [SELECT MAX(id) FROM ideas]: [None] on an empty table. *)
Fixpoint max_id (rs : list Row) : option Z :=
  match rs with
  | [] => None
  | r :: rest =>
      match max_id rest with
      | Some m => Some (Z.max (id r) m)
      | None => Some (id r)
      end
  end.

(** [x or 0] on an optional integer. *)
Definition or_zero (x : option Z) : Z :=
  match x with
  | Some n => n
  | None => 0%Z
  end.

(** The id an [INSERT] assigns. *)
Definition next_id (t : Table) : Z :=
  (Z.max (or_zero (max_id (rows t))) (sequence t) + 1)%Z.

Definition set_implemented (flag : bool) (at_ : option pystr) (r : Row) : Row :=
  {| id := id r; title := title r; description := description r;
     inspiration_link := inspiration_link r;
     requirements := requirements r; functionalities := functionalities r;
     created_at := created_at r;
     implemented := flag; implemented_at := at_ |}.

Definition count_implemented (rs : list Row) : Z :=
  Z.of_nat (length (filter implemented rs)).

Record Counts := { total : Z; implemented_count : Z; unimplemented : Z }.

(** [get_idea_count]: [SUM] over no row is [NULL], read as 0. *)
Definition get_idea_count (t : Table) : Counts :=
  let total := Z.of_nat (length (rows t)) in
  let implemented :=
    or_zero (match rows t with
             | [] => None
             | _ :: _ => Some (count_implemented (rows t))
             end) in
  {| total := total; implemented_count := implemented;
     unimplemented := (total - implemented)%Z |}.

(** [mark_idea_implemented]; [now] is [CURRENT_TIMESTAMP].  The answer is
    [cursor.rowcount > 0], or the exception of binding [idea_id]; with it
    comes the table the call leaves. *)
Definition mark_idea_implemented (now : pystr) (idea_id : Z) (t : Table)
  : (bool + Exception) * Table :=
  if sqlite_int idea_id then
    let hit r := (id r =? idea_id)%Z && negb (implemented r) in
    (inl (existsb hit (rows t)),
     {| rows := map (fun r => if hit r then set_implemented true (Some now) r
                              else r) (rows t);
        sequence := sequence t |})
  else (inr OverflowError, t).

Definition mark_idea_unimplemented (idea_id : Z) (t : Table)
  : (bool + Exception) * Table :=
  if sqlite_int idea_id then
    let hit r := (id r =? idea_id)%Z && implemented r in
    (inl (existsb hit (rows t)),
     {| rows := map (fun r => if hit r then set_implemented false None r
                              else r) (rows t);
        sequence := sequence t |})
  else (inr OverflowError, t).

Definition delete_idea (idea_id : Z) (t : Table)
  : (bool + Exception) * Table :=
  if sqlite_int idea_id then
    (inl (existsb (fun r => (id r =? idea_id)%Z) (rows t)),
     {| rows := filter (fun r => negb (id r =? idea_id)%Z) (rows t);
        sequence := sequence t |})
  else (inr OverflowError, t).

(** The five parameters of the [INSERT] in a row. *)
Definition parameters (r : Row) : list pystr :=
  [title r; description r; inspiration_link r; requirements r;
   functionalities r].

Definition bindable (r : Row) : bool := forallb encodable (parameters r).

Section Library.

(** [json.dumps] and [json.loads] on the values an idea holds, and the
    value of the literal [[]]. *)
Variable JsonValue : Type.
Variable json_dumps : JsonValue -> pystr.
Variable json_loads : pystr -> JsonValue + pystr.
Variable EMPTY_LIST : JsonValue.

(** The rows in the order the engine gives to [ORDER BY created_at DESC];
    SQL leaves the order of rows with equal [created_at] open. *)
Variable order_by_created_at_desc : list Row -> list Row.

(** An idea as [save_ideas] reads it: any key may be missing. *)
Record Idea := {
  idea_title : option pystr;
  idea_description : option pystr;
  idea_inspiration_link : option pystr;
  idea_requirements : option JsonValue;
  idea_functionalities : option JsonValue
}.

Definition or_empty (v : option JsonValue) : JsonValue :=
  match v with
  | Some x => x
  | None => EMPTY_LIST
  end.

(** The row of one [INSERT]: the columns the statement names, from the
    tuple [save_ideas] builds for the idea, and the defaults for the
    others. *)
Definition new_row (i : Z) (now : pystr) (idea : Idea) : Row :=
  {| id := i;
     title := news_fetcher.get_default (idea_title idea) (lit "Untitled");
     description :=
       news_fetcher.get_default (idea_description idea)
         (lit "No description");
     inspiration_link :=
       news_fetcher.get_default (idea_inspiration_link idea) [];
     requirements := json_dumps (or_empty (idea_requirements idea));
     functionalities := json_dumps (or_empty (idea_functionalities idea));
     created_at := now;
     implemented := false;
     implemented_at := None |}.

(** One [INSERT] of [executemany]: the parameters are bound, then the row
    is added under the next id if there is one. *)
Definition insert (now : pystr) (idea : Idea) (t : Table)
  : Table + Exception :=
  let r := new_row (next_id t) now idea in
  if negb (bindable r) then inr UnicodeEncodeError
  else if (MAX_ROWID <? next_id t)%Z then inr OperationalError
  else inl {| rows := rows t ++ [r]; sequence := next_id t |}.

(** [executemany]: the inserts in order, up to the first that raises;
    [clock k] is [CURRENT_TIMESTAMP] at the [k]-th of them. *)
Fixpoint insert_all (clock : nat -> pystr) (k : nat) (ideas : list Idea)
  (t : Table) : Table + Exception :=
  match ideas with
  | [] => inl t
  | idea :: rest =>
      match insert (clock k) idea t with
      | inl t' => insert_all clock (S k) rest t'
      | inr e => inr e
      end
  end.

(** [list(range(start, start + n))] *)
Definition range_from (start : Z) (n : nat) : list Z :=
  map (fun k => (start + Z.of_nat k)%Z) (seq 0 n).

(** [save_ideas]: the ids it returns or the exception that leaves it, and
    the table afterwards; an exception undoes the inserts made before
    it. *)
Definition save_ideas (clock : nat -> pystr) (ideas : list Idea) (t : Table)
  : (list Z + Exception) * Table :=
  match ideas with
  | [] => (inl [], t)
  | _ :: _ =>
      let start_id := (or_zero (max_id (rows t)) + 1)%Z in
      match insert_all clock 0 ideas t with
      | inl t' => (inl (range_from start_id (length ideas)), t')
      | inr e => (inr e, t)
      end
  end.

(** The dictionary [_row_to_dict] builds. *)
Record IdeaDict := {
  dict_id : Z;
  dict_title : pystr;
  dict_description : pystr;
  dict_inspiration_link : pystr;
  dict_requirements : JsonValue;
  dict_functionalities : JsonValue;
  dict_created_at : pystr;
  dict_implemented : bool;
  dict_implemented_at : option pystr
}.

(** [_row_to_dict]; [inr] is the [str(e)] of a [JSONDecodeError]. *)
Definition _row_to_dict (row : Row) : IdeaDict + pystr :=
  match json_loads (requirements row) with
  | inr e => inr e
  | inl reqs =>
      match json_loads (functionalities row) with
      | inr e => inr e
      | inl funs =>
          inl {| dict_id := id row; dict_title := title row;
                 dict_description := description row;
                 dict_inspiration_link := inspiration_link row;
                 dict_requirements := reqs; dict_functionalities := funs;
                 dict_created_at := created_at row;
                 dict_implemented := implemented row;
                 dict_implemented_at := implemented_at row |}
      end
  end.

(** The list comprehension over the fetched rows: the first row that does
    not decode raises. *)
Fixpoint rows_to_dicts (rs : list Row) : list IdeaDict + pystr :=
  match rs with
  | [] => inl []
  | r :: rest =>
      match _row_to_dict r with
      | inr e => inr e
      | inl d =>
          match rows_to_dicts rest with
          | inr e => inr e
          | inl ds => inl (d :: ds)
          end
      end
  end.

Definition decoded {A} (r : A + pystr) : A + Exception :=
  match r with
  | inl a => inl a
  | inr e => inr (JSONDecodeError e)
  end.

(** The rows the query of [get_all_ideas] selects.  [LIMIT] is added for a
    truthy [limit] only; a negative [LIMIT] is no bound in SQLite. *)
Definition select_all (limit : option Z) (implemented_only : bool)
  (t : Table) : list Row :=
  let selected := if implemented_only then filter implemented (rows t)
                  else rows t in
  let ordered := order_by_created_at_desc selected in
  match limit with
  | Some n =>
      if (n =? 0)%Z then ordered
      else if (n <? 0)%Z then ordered
      else firstn (Z.to_nat n) ordered
  | None => ordered
  end.

(** The limit is a parameter of the query when it is truthy. *)
Definition bindable_limit (limit : option Z) : bool :=
  match limit with
  | Some n => (n =? 0)%Z || sqlite_int n
  | None => true
  end.

Definition get_all_ideas (limit : option Z) (implemented_only : bool)
  (t : Table) : list IdeaDict + Exception :=
  if bindable_limit limit then
    decoded (rows_to_dicts (select_all limit implemented_only t))
  else inr OverflowError.

(** [get_idea_by_id]: [fetchone] on the rows with this id. *)
Definition get_idea_by_id (idea_id : Z) (t : Table)
  : option IdeaDict + Exception :=
  if sqlite_int idea_id then
    match find (fun r => (id r =? idea_id)%Z) (rows t) with
    | Some row =>
        match _row_to_dict row with
        | inl d => inl (Some d)
        | inr e => inr (JSONDecodeError e)
        end
    | None => inl None
    end
  else inr OverflowError.

End Library.

(** What the engine and the functions keep true of a table: the counter
    is a possible id or 0, ids are unique and positive and none is above
    the counter, and a row that is not implemented has no implementation
    time. *)
Record valid (t : Table) : Prop := {
  valid_counter : (0 <= sequence t <= MAX_ROWID)%Z;
  valid_unique : NoDup (map id (rows t));
  valid_ids : Forall (fun r => (1 <= id r <= sequence t)%Z) (rows t);
  valid_pending :
    Forall (fun r => implemented r = false -> implemented_at r = None)
      (rows t)
}.

(** The rows hold texts written by [json_dumps]. *)
Definition decodable {J} (json_dumps : J -> pystr) (t : Table) : Prop :=
  Forall (fun r => exists v w, requirements r = json_dumps v /\
                               functionalities r = json_dumps w) (rows t).

Section Vocabulary.

Variable JsonValue : Type.
Variable json_dumps : JsonValue -> pystr.
Variable EMPTY_LIST : JsonValue.

(** The dictionary of an idea saved at [now] under [i], before anyone
    marks it. *)
Definition as_saved (i : Z) (now : pystr) (idea : Idea JsonValue)
  : IdeaDict JsonValue :=
  {| dict_id := i;
     dict_title :=
       news_fetcher.get_default (idea_title idea) (lit "Untitled");
     dict_description :=
       news_fetcher.get_default (idea_description idea)
         (lit "No description");
     dict_inspiration_link :=
       news_fetcher.get_default (idea_inspiration_link idea) [];
     dict_requirements := or_empty EMPTY_LIST (idea_requirements idea);
     dict_functionalities := or_empty EMPTY_LIST (idea_functionalities idea);
     dict_created_at := now;
     dict_implemented := false;
     dict_implemented_at := None |}.

(** A dictionary with the two implementation fields replaced. *)
Definition with_implemented (flag : bool) (at_ : option pystr)
  (d : IdeaDict JsonValue) : IdeaDict JsonValue :=
  {| dict_id := dict_id d; dict_title := dict_title d;
     dict_description := dict_description d;
     dict_inspiration_link := dict_inspiration_link d;
     dict_requirements := dict_requirements d;
     dict_functionalities := dict_functionalities d;
     dict_created_at := dict_created_at d;
     dict_implemented := flag; dict_implemented_at := at_ |}.

(** The five texts of an idea can be bound. *)
Definition storable (idea : Idea JsonValue) : bool :=
  bindable (new_row json_dumps EMPTY_LIST 0 [] idea).


(** The tables the module can produce, starting from the one
    [init_database] creates. *)
Inductive reachable : Table -> Prop :=
| reach_init : reachable empty_table
| reach_save clock ideas t :
    reachable t ->
    reachable (snd (save_ideas json_dumps EMPTY_LIST clock ideas t))
| reach_mark now idea_id t :
    reachable t -> reachable (snd (mark_idea_implemented now idea_id t))
| reach_unmark idea_id t :
    reachable t -> reachable (snd (mark_idea_unimplemented idea_id t))
| reach_delete idea_id t :
    reachable t -> reachable (snd (delete_idea idea_id t)).

End Vocabulary.

End database.

(** ** Vocabulary of the further facts *)

(** A text of the form [CVE-] four digits [-] four or more digits. *)
Definition cve_shaped (re_digit : N -> bool) (m : pystr) : Prop :=
  exists y ds,
    m = lit "CVE-" ++ y ++ lit "-" ++ ds /\
    length y = 4 /\ forallb re_digit y = true /\
    4 <= length ds /\ forallb re_digit ds = true.

(** The sleep after a failed attempt [j] that is retried: by the class of
    its error [err j]. *)
Definition backoff (lower : pystr -> pystr) (err : nat -> pystr) (j : nat)
  : Z :=
  match ai_insight.classify lower (err j) with
  | ai_insight.Overload => ((Z.of_nat j + 1) * 2)%Z
  | _ => 1%Z
  end.

(** An error that the loop answers with a retry while attempts are left. *)
Definition retryable (lower : pystr -> pystr) (e : pystr) : Prop :=
  ai_insight.classify lower e = ai_insight.Overload \/
  ai_insight.classify lower e = ai_insight.Unknown.

(** What [analyze_news_for_ideas] returns, when that is a [str]: a message
    of its own, or a reply that decodes to a JSON string ([as_str] is the
    text of a decoded value that is a string).  This is the value the
    [isinstance(ideas_list, str)] test of the caller lets through. *)
Definition returned_str {JsonValue} (as_str : JsonValue -> option pystr)
  (o : ai_insight.Outcome JsonValue) : option pystr :=
  match o with
  | ai_insight.Message s => Some s
  | ai_insight.Ideas v => as_str v
  end.

(** [lower] leaves no capital ASCII letter, as [str.lower] does. *)
Definition no_capitals (lower : pystr -> pystr) : Prop :=
  forall s c, In c (lower s) -> (c < 65 \/ 90 < c)%N.

(** ** More scenarios *)

Module Cases.

Import news_fetcher ai_insight Instances Scenarios.

(** No feed and no API can be reached. *)
Definition offline : World :=
  {| feedparser_parse := fun _ => ParseRaises (lit "urlopen error");
     requests_get := fun _ => RequestRaises (lit "timed out");
     as_completed := fun futures => futures |}.

Definition vpn_entry : FeedEntry :=
  entry (lit "CVE-2024-12345 in a VPN") (lit "Details.") (Some may_day).

(** A transport on which every attempt fails with a server error. *)
Definition erroring : Env :=
  failing (Some (lit "key")) (lit "500 Internal Server Error").

(** Two 503 answers, then a fenced JSON text. *)
Definition recovers : Env :=
  recovering 2 (lit "UNAVAILABLE 503")
    (FENCE ++ lit "json" ++ NL ++ lit "[]" ++ NL ++ FENCE).

(** Two colours, two limits and a size to stand for those of the
    configuration. *)
Definition ORANGE : Z := 16753920.
Definition RED : Z := 16711680.
Definition AT_LEAST : Z := 1.
Definition AT_MOST : Z := 10.
Definition DESCRIPTION_MAX : Z := 4096.

(** A codec on texts that are their own JSON. *)
Definition text_dumps (v : pystr) : pystr := v.
Definition text_loads (s : pystr) : pystr + pystr := inl s.

Definition noon (k : nat) : pystr := lit "2024-05-01 12:00:00".

Definition scanner : database.Idea pystr :=
  {| database.idea_title := Some (lit "Port scanner");
     database.idea_description := Some (lit "Scans ports.");
     database.idea_inspiration_link := None;
     database.idea_requirements := Some (lit "[1]");
     database.idea_functionalities := None |}.

Definition fuzzer : database.Idea pystr :=
  {| database.idea_title := None;
     database.idea_description := None;
     database.idea_inspiration_link := Some (lit "https://example.org/a");
     database.idea_requirements := None;
     database.idea_functionalities := Some (lit "[2]") |}.

Definition save := database.save_ideas text_dumps (lit "[]") noon.

(** The table after one call that saves two ideas, and after the newer of
    them is deleted. *)
Definition two_ideas : database.Table :=
  snd (save [scanner; fuzzer] database.empty_table).

Definition newest_deleted : database.Table :=
  snd (database.delete_idea 2 two_ideas).

Definition morning : pystr := lit "2024-05-02 09:00:00".

(** [two_ideas] with the first idea marked. *)
Definition one_implemented : database.Table :=
  snd (database.mark_idea_implemented morning 1 two_ideas).


(** An engine that lists the rows from the last inserted to the first. *)
Definition newest_first : list database.Row -> list database.Row :=
  @rev database.Row.

End Cases.

(** * Facts *)

(** ** Strings *)

Section StringFacts.

Lemma starts_with_nil_r p : p <> [] -> starts_with p [] = false.
Proof. destruct p; [congruence | reflexivity]. Qed.

Lemma contains_nil_r p : p <> [] -> contains p [] = false.
Proof. intros H. simpl. now rewrite starts_with_nil_r. Qed.

Lemma contains_cons p c s :
  contains p (c :: s) = starts_with p (c :: s) || contains p s.
Proof. reflexivity. Qed.

Lemma contains_tail p c s : contains p (c :: s) = false -> contains p s = false.
Proof. rewrite contains_cons. now intros [_ H]%orb_false_iff. Qed.

Lemma contains_skipn p k s : contains p s = false -> contains p (skipn k s) = false.
Proof.
  revert s. induction k as [|k IH]; intros s H; [exact H |].
  destruct s as [|c s]; [exact H |]. simpl skipn. apply IH.
  exact (contains_tail _ _ _ H).
Qed.





(** Dropping [k] characters first is the same as scanning what is left. *)
Lemma replace_from_skipn old new k s :
  replace_from old new k s = replace old new (skipn k s).
Proof.
  revert k. induction s as [|c s IH]; intros [|k]; try reflexivity.
  simpl replace_from. simpl skipn. apply IH.
Qed.

Lemma replace_hit old new c r :
  old <> [] -> starts_with old (c :: r) = true ->
  replace old new (c :: r) = new ++ replace old new (skipn (length old) (c :: r)).
Proof.
  intros Hne H. unfold replace at 1. simpl replace_from. rewrite H.
  rewrite replace_from_skipn. destruct old as [|a old]; [congruence |].
  simpl length. now rewrite Nat.sub_succ, Nat.sub_0_r.
Qed.





(** [strip] keeps a contiguous part of its argument. *)
Lemma lstrip_suffix s : exists a, s = a ++ lstrip s.
Proof.
  induction s as [|c s [a IH]]; [now exists [] |].
  simpl. destruct (isspace c).
  - exists (c :: a). simpl. now rewrite <- IH.
  - now exists [].
Qed.

Lemma rstrip_prefix s : exists b, s = rstrip s ++ b.
Proof.
  unfold rstrip. destruct (lstrip_suffix (rev s)) as [a H].
  exists (rev a). rewrite <- rev_app_distr, <- H. now rewrite rev_involutive.
Qed.


End StringFacts.

(** ** The Normalizer's HTML cleaning *)

Section CleanHtml.

Import news_fetcher.

(** The tag pass is a single one: a tag uncovered by a removal stays. *)
Example tag_sub_single_pass :
  HTML_TAG_sub (lit "<<b>i>bold") = lit "<i>bold".
Proof. reflexivity. Qed.
















End CleanHtml.


(** ** The sort *)

Section SortFacts.

Context {A : Type}.

Implicit Types (x y : datetime * A) (l s r : list (datetime * A)).
Implicit Types (u v : list A).

Lemma datetime_lt_ok a b :
  aware a = aware b -> exists c, datetime_lt a b = Ok c.
Proof. destruct a, b; simpl; intros H; try discriminate; eauto. Qed.

Lemma datetime_lt_aware a b c : datetime_lt a b = Ok c -> aware a = aware b.
Proof. destruct a, b; simpl; intros H; try discriminate; reflexivity. Qed.

Lemma datetime_lt_asym a b :
  datetime_lt a b = Ok true -> datetime_lt b a = Ok false.
Proof.
  destruct a, b; simpl; intros H; try discriminate; f_equal;
    injection H as H; [apply N.ltb_lt in H; apply N.ltb_ge | apply Z.ltb_lt in H; apply Z.ltb_ge]; lia.
Qed.

Lemma datetime_ge_trans a b c :
  datetime_lt a b = Ok false -> datetime_lt b c = Ok false ->
  datetime_lt a c = Ok false.
Proof.
  destruct a, b, c; simpl; intros H1 H2; try discriminate; f_equal;
    injection H1 as H1; injection H2 as H2;
    [apply N.ltb_ge in H1, H2; apply N.ltb_ge
    | apply Z.ltb_ge in H1, H2; apply Z.ltb_ge]; lia.
Qed.

Lemma datetime_eqb_eq a b : datetime_eqb a b = true <-> a = b.
Proof.
  destruct a, b; simpl; split; intros H; try discriminate.
  - apply N.eqb_eq in H. now subst.
  - injection H as ->. apply N.eqb_refl.
  - apply Z.eqb_eq in H. now subst.
  - injection H as ->. apply Z.eqb_refl.
Qed.

Lemma datetime_lt_irrefl a : datetime_lt a a <> Ok true.
Proof.
  destruct a; simpl; intros H; injection H as H;
    [rewrite N.ltb_irrefl in H | rewrite Z.ltb_irrefl in H]; discriminate.
Qed.

Lemma insert_desc_perm x l r : insert_desc x l = Ok r -> Permutation (x :: l) r.
Proof.
  revert r. induction l as [|y l IH]; simpl; intros r H.
  - injection H as <-. apply Permutation_refl.
  - destruct (datetime_lt (fst x) (fst y)) as [[|]|] eqn:E; simpl in H;
      try discriminate.
    + destruct (insert_desc x l) as [r'|] eqn:E'; simpl in H; try discriminate.
      injection H as <-. rewrite perm_swap. now apply perm_skip, IH.
    + injection H as <-. apply Permutation_refl.
Qed.

Lemma sort_keyed_desc_perm l s : sort_keyed_desc l = Ok s -> Permutation l s.
Proof.
  revert s. induction l as [|x l IH]; simpl; intros s H.
  - injection H as <-. apply perm_nil.
  - destruct (sort_keyed_desc l) as [s'|] eqn:E; simpl in H; try discriminate.
    rewrite (IH s' eq_refl). now apply insert_desc_perm.
Qed.

Lemma insert_desc_total x l :
  comparable (map fst (x :: l)) -> exists r, insert_desc x l = Ok r.
Proof.
  induction l as [|y l IH]; simpl; intros H; [eauto |].
  destruct (datetime_lt_ok (fst x) (fst y)) as [c ->].
  { apply H; simpl; auto. }
  simpl. destruct c; [|eauto].
  destruct IH as [r ->]; [|simpl; eauto].
  intros a b Ha Hb. apply H; simpl in *; intuition.
Qed.

Lemma comparable_perm k1 k2 :
  Permutation k1 k2 -> comparable k1 -> comparable k2.
Proof.
  intros P H a b Ha Hb.
  apply H; eapply Permutation_in; try eassumption; now apply Permutation_sym.
Qed.

Lemma sort_keyed_desc_total l :
  comparable (map fst l) -> exists s, sort_keyed_desc l = Ok s.
Proof.
  induction l as [|x l IH]; simpl; intros H; [eauto |].
  destruct IH as [s Hs].
  { intros a b Ha Hb. apply H; simpl; auto. }
  rewrite Hs. simpl. apply insert_desc_total.
  eapply comparable_perm; [|exact H].
  simpl. apply perm_skip, Permutation_map. now apply sort_keyed_desc_perm.
Qed.

(** The sort returns only on comparable keys. *)
Lemma insert_desc_head x y l r :
  insert_desc x (y :: l) = Ok r -> aware (fst x) = aware (fst y).
Proof.
  simpl. destruct (datetime_lt (fst x) (fst y)) eqn:E; [|discriminate].
  intros _. exact (datetime_lt_aware _ _ E).
Qed.

Lemma sort_keyed_desc_comparable l s :
  sort_keyed_desc l = Ok s -> comparable (map fst l).
Proof.
  revert s. induction l as [|x l IH]; simpl; intros s H.
  - intros a b [].
  - destruct (sort_keyed_desc l) as [s'|] eqn:E; simpl in H; try discriminate.
    specialize (IH s' eq_refl).
    assert (Hx : forall b, In b (map fst l) -> aware (fst x) = aware b).
    { intros b Hb. pose proof (sort_keyed_desc_perm _ E) as P.
      destruct s' as [|y s'].
      - apply Permutation_sym, Permutation_nil in P. subst l. destruct Hb.
      - apply insert_desc_head in H. rewrite H. apply IH; [|exact Hb].
        apply (Permutation_in (l := map fst (y :: s'))).
        + apply Permutation_map. now apply Permutation_sym.
        + now left. }
    intros a b [<- | Ha] [<- | Hb]; auto. symmetry. auto.
Qed.

Lemma insert_desc_sorted x l r :
  StronglySorted ge_pair l -> insert_desc x l = Ok r ->
  StronglySorted ge_pair r.
Proof.
  revert r. induction l as [|y l IH]; simpl; intros r S H.
  - injection H as <-. repeat constructor.
  - apply StronglySorted_inv in S as [S F].
    destruct (datetime_lt (fst x) (fst y)) as [[|]|] eqn:E; simpl in H;
      try discriminate.
    + destruct (insert_desc x l) as [r'|] eqn:E'; simpl in H; try discriminate.
      injection H as <-. constructor; [now apply IH |].
      apply (Permutation_Forall (insert_desc_perm _ _ E')).
      constructor; [|exact F]. exact (datetime_lt_asym _ _ E).
    + injection H as <-. constructor; [now constructor |].
      constructor; [exact E |].
      eapply Forall_impl; [|exact F]. intros z Hz.
      exact (datetime_ge_trans _ _ _ E Hz).
Qed.

Lemma sort_keyed_desc_sorted l s :
  sort_keyed_desc l = Ok s -> StronglySorted ge_pair s.
Proof.
  revert s. induction l as [|x l IH]; simpl; intros s H.
  - injection H as <-. constructor.
  - destruct (sort_keyed_desc l) as [s'|] eqn:E; simpl in H; try discriminate.
    eapply insert_desc_sorted; [|exact H]. now apply IH.
Qed.

Lemma insert_desc_stable k x l r :
  insert_desc x l = Ok r -> filter (pair_has k) r = filter (pair_has k) (x :: l).
Proof.
  revert r. induction l as [|y l IH]; simpl; intros r H.
  - now injection H as <-.
  - destruct (datetime_lt (fst x) (fst y)) as [[|]|] eqn:E; simpl in H;
      try discriminate.
    + destruct (insert_desc x l) as [r'|] eqn:E'; simpl in H; try discriminate.
      injection H as <-. simpl. rewrite (IH r' eq_refl). simpl.
      destruct (pair_has k x) eqn:Px, (pair_has k y) eqn:Py; try reflexivity.
      unfold pair_has in Px, Py. apply datetime_eqb_eq in Px, Py.
      rewrite Px, Py in E. now apply datetime_lt_irrefl in E.
    + now injection H as <-.
Qed.

Lemma sort_keyed_desc_stable k l s :
  sort_keyed_desc l = Ok s -> filter (pair_has k) s = filter (pair_has k) l.
Proof.
  revert s. induction l as [|x l IH]; simpl; intros s H.
  - now injection H as <-.
  - destruct (sort_keyed_desc l) as [s'|] eqn:E; simpl in H; try discriminate.
    rewrite (insert_desc_stable k _ _ H). simpl. now rewrite (IH s' eq_refl).
Qed.

Lemma strongly_sorted_app_inv (R : A -> A -> Prop) u (a : A) v :
  StronglySorted R (u ++ a :: v) -> Forall (R a) v.
Proof.
  induction u as [|b u IH]; simpl; intros H;
    apply StronglySorted_inv in H as [H F]; [exact F | now apply IH].
Qed.

Lemma in_firstn n u (a : A) : In a (firstn n u) -> In a u.
Proof.
  intros H. rewrite <- (firstn_skipn n u). apply in_or_app. now left.
Qed.

Lemma strongly_sorted_firstn (R : A -> A -> Prop) n u :
  StronglySorted R u -> StronglySorted R (firstn n u).
Proof.
  revert u. induction n as [|n IH]; intros [|a u] H; simpl; try constructor.
  - apply IH. now apply StronglySorted_inv in H.
  - apply StronglySorted_inv in H as [_ F]. rewrite Forall_forall in *.
    intros b Hb. apply F. revert Hb. apply in_firstn.
Qed.

Lemma slice_to_firstn n u : exists m, slice_to n u = firstn m u.
Proof. unfold slice_to. destruct (0 <=? n)%Z; eauto. Qed.

Lemma slice_to_length n u :
  (0 <= n)%Z -> (Z.of_nat (length (slice_to n u)) <= n)%Z.
Proof.
  intros H. unfold slice_to. apply Z.leb_le in H as E. rewrite E.
  pose proof (firstn_le_length (Z.to_nat n) u).
  rewrite length_firstn. lia.
Qed.

Section Keyed.

Variable key : A -> datetime.

Lemma keyed_perm s u :
  Permutation (map (keyed key) u) s -> Forall (fun p => fst p = key (snd p)) s.
Proof.
  intros P. apply (Permutation_Forall P), Forall_forall.
  intros p [a [<- _]]%in_map_iff. reflexivity.
Qed.

Lemma keyed_sorted s :
  Forall (fun p => fst p = key (snd p)) s ->
  StronglySorted ge_pair s -> StronglySorted (not_earlier key) (map snd s).
Proof.
  induction s as [|p s IH]; simpl; intros F S; [constructor |].
  apply StronglySorted_inv in S as [S G]. inversion F as [|? ? Hp Fs]; subst.
  constructor; [now apply IH |]. apply Forall_map.
  rewrite Forall_forall in *. intros q Hq. unfold not_earlier.
  rewrite <- Hp, <- (Fs q Hq). now apply G.
Qed.

Lemma keyed_filter k s :
  Forall (fun p => fst p = key (snd p)) s ->
  filter (has_key key k) (map snd s) = map snd (filter (pair_has k) s).
Proof.
  induction s as [|p s IH]; simpl; intros F; [reflexivity |].
  inversion F as [|? ? Hp Fs]; subst. rewrite IH by exact Fs.
  replace (has_key key k (snd p)) with (pair_has k p).
  - now destruct (pair_has k p).
  - unfold has_key, pair_has. now rewrite Hp.
Qed.

Lemma map_snd_keyed u : map snd (map (keyed key) u) = u.
Proof. rewrite map_map. apply map_id. Qed.

Lemma map_fst_keyed u : map fst (map (keyed key) u) = map key u.
Proof. now rewrite map_map. Qed.

Lemma sort_reverse_total u :
  comparable (map key u) -> exists v, sort_reverse key u = Ok v.
Proof.
  intros H. unfold sort_reverse.
  destruct (sort_keyed_desc_total (map (keyed key) u)) as [s Hs].
  { now rewrite map_fst_keyed. }
  rewrite Hs. simpl. eauto.
Qed.

Lemma sort_reverse_comparable u v :
  sort_reverse key u = Ok v -> comparable (map key u).
Proof.
  unfold sort_reverse.
  destruct (sort_keyed_desc (map (keyed key) u)) as [s'|] eqn:E; [|discriminate].
  intros _. rewrite <- map_fst_keyed. exact (sort_keyed_desc_comparable _ E).
Qed.

Lemma sort_reverse_raises u :
  ~ comparable (map key u) -> sort_reverse key u = Raise TypeError.
Proof.
  intros H. destruct (sort_reverse key u) as [v|[]] eqn:E; [|reflexivity].
  exfalso. exact (H (sort_reverse_comparable _ E)).
Qed.

Lemma sort_reverse_ranking u v :
  sort_reverse key u = Ok v -> ranking key u v.
Proof.
  unfold sort_reverse.
  destruct (sort_keyed_desc (map (keyed key) u)) as [s'|] eqn:E; [|discriminate].
  simpl. intros [= <-].
  pose proof (sort_keyed_desc_perm _ E) as P.
  pose proof (keyed_perm _ P) as F.
  split.
  - rewrite <- (map_snd_keyed u) at 1. now apply Permutation_map.
  - apply keyed_sorted; [exact F |]. exact (sort_keyed_desc_sorted _ E).
  - intros k. rewrite (keyed_filter k F).
    rewrite (sort_keyed_desc_stable k _ E).
    rewrite <- keyed_filter, map_snd_keyed; [reflexivity |].
    apply (keyed_perm u). apply Permutation_refl.
Qed.

End Keyed.

End SortFacts.


Section Unique.

Context {A : Type}.
Variable key : A -> datetime.

Lemma datetime_lt_antisym a b :
  datetime_lt a b = Ok false -> datetime_lt b a = Ok false -> a = b.
Proof.
  destruct a, b; simpl; intros [= H1] [= H2]; f_equal;
    [apply N.ltb_ge in H1, H2 | apply Z.ltb_ge in H1, H2]; lia.
Qed.

Lemma has_key_refl (a : A) : has_key key (key a) a = true.
Proof. unfold has_key. now apply datetime_eqb_eq. Qed.

(** A list has one stable descending arrangement. *)
Lemma stable_sorted_unique (s1 s2 : list A) :
  Permutation s1 s2 ->
  StronglySorted (not_earlier key) s1 ->
  StronglySorted (not_earlier key) s2 ->
  (forall k, filter (has_key key k) s1 = filter (has_key key k) s2) ->
  s1 = s2.
Proof.
  revert s2. induction s1 as [|a t1 IH]; intros s2 P S1 S2 F.
  - apply Permutation_nil in P. now subst.
  - destruct s2 as [|b t2].
    { apply Permutation_sym, Permutation_nil in P. discriminate. }
    apply StronglySorted_inv in S1 as [S1 G1].
    apply StronglySorted_inv in S2 as [S2 G2].
    rewrite Forall_forall in G1, G2.
    assert (K : key a = key b).
    { assert (Ha : In a (b :: t2)) by (apply (Permutation_in a P); now left).
      assert (Hb : In b (a :: t1)).
      { apply (Permutation_in b (Permutation_sym P)). now left. }
      destruct Ha as [<- | Ha]; [reflexivity |].
      destruct Hb as [<- | Hb]; [reflexivity |].
      apply datetime_lt_antisym; [apply G1, Hb | apply G2, Ha]. }
    assert (E : a = b).
    { specialize (F (key a)). simpl in F. rewrite has_key_refl in F.
      rewrite K, has_key_refl in F. now injection F. }
    subst b. f_equal. apply IH; try assumption.
    + exact (Permutation_cons_inv P).
    + intros k. specialize (F k). simpl in F.
      destruct (has_key key k a); [now injection F | exact F].
Qed.

(** So every stable descending sort of [items] returns the same list. *)
Lemma ranking_unique (items s1 s2 : list A) :
  ranking key items s1 -> ranking key items s2 -> s1 = s2.
Proof.
  intros [P1 S1 F1] [P2 S2 F2]. apply stable_sorted_unique; try assumption.
  - now rewrite <- P1.
  - intros k. now rewrite F1, F2.
Qed.

End Unique.


(** ** The aggregator *)

Section AggregatorFacts.

Import news_fetcher.

Variable re_digit : N -> bool.
Variable fromisoformat : pystr -> option datetime.

Abbreviation key := (get_sort_key fromisoformat).

Lemma undated_key item : undated fromisoformat item -> key item = datetime_min.
Proof.
  unfold undated, get_sort_key. destruct (date item) as [d|]; [|reflexivity].
  intros [-> | ->]; [reflexivity |]. now destruct (truthy d).
Qed.

Lemma dated_key item d : dated fromisoformat item d -> key item = d.
Proof.
  intros (date_str & D & T & P). unfold get_sort_key. rewrite D, T, P.
  reflexivity.
Qed.

(** Sorting and cutting a list of comparable items returns a ranked
    answer. *)
Lemma sort_slice_ranked items limit :
  comparable (map key items) ->
  returns_ranked fromisoformat items limit
    (s <- sort_reverse key items ;; Ok (slice_to limit s)).
Proof.
  intros H. destruct (sort_reverse_total key items H) as [s Hs].
  pose proof (sort_reverse_ranking _ _ Hs) as R.
  exists s. rewrite Hs. simpl.
  assert (S : StronglySorted (not_earlier key) (slice_to limit s)).
  { destruct (slice_to_firstn limit s) as [m ->].
    apply strongly_sorted_firstn, R. }
  repeat split; try assumption; try apply R.
  intros a _ Ha l1 l2 b E Hb. rewrite E in S.
  apply strongly_sorted_app_inv in S. rewrite Forall_forall in S.
  specialize (S b Hb). unfold not_earlier in S.
  rewrite (undated_key _ Ha) in S. congruence.
Qed.

Lemma sort_slice_length items limit out :
  (0 <= limit)%Z ->
  (s <- sort_reverse key items ;; Ok (slice_to limit s)) = Ok out ->
  (Z.of_nat (length out) <= limit)%Z.
Proof.
  intros H. destruct (sort_reverse key items) as [s|]; simpl; [|discriminate].
  intros [= <-]. now apply slice_to_length.
Qed.

Lemma sort_slice_total items limit :
  comparable (map key items) ->
  exists out, (s <- sort_reverse key items ;; Ok (slice_to limit s)) = Ok out.
Proof.
  intros H. destruct (sort_reverse_total key items H) as [s ->].
  simpl. eauto.
Qed.

(** The sort, and with it the call, raises on keys of both kinds. *)
Lemma sort_slice_raises items limit :
  ~ comparable (map key items) ->
  (s <- sort_reverse key items ;; Ok (slice_to limit s)) = Raise TypeError.
Proof. intros H. now rewrite (sort_reverse_raises _ _ H). Qed.

Lemma keys_of_both_kinds_raise items limit a b :
  In a items -> In b items -> aware (key a) <> aware (key b) ->
  (s <- sort_reverse key items ;; Ok (slice_to limit s)) = Raise TypeError.
Proof.
  intros Ha Hb H. apply sort_slice_raises. intros C. apply H, C;
    now apply in_map.
Qed.

Lemma filter_map_length {X Y} (f : X -> option Y) l :
  length (filter_map f l) <= length l.
Proof.
  induction l as [|a l IH]; simpl; [lia |].
  destruct (f a); simpl; lia.
Qed.

(** The Fetcher hands over at most [max_items] items. *)
Lemma fetch_rss_feed_length w feed_url source_name is_cve max_items :
  (0 <= max_items)%Z ->
  (Z.of_nat (length (_fetch_rss_feed re_digit w feed_url source_name is_cve
                       max_items)) <= max_items)%Z.
Proof.
  intros H. unfold _fetch_rss_feed.
  destruct (feedparser_parse w feed_url) as [msg | entries]; simpl; [lia |].
  pose proof (filter_map_length
                (fun entry => _parse_feed_entry re_digit entry source_name is_cve)
                (slice_to max_items entries)).
  pose proof (slice_to_length entries H). lia.
Qed.

(** The Enricher hands over at most [limit] items. *)
Lemma fetch_nvd_length w limit :
  (0 <= limit)%Z ->
  (Z.of_nat (length (_fetch_nvd_cve_recent w limit)) <= limit)%Z.
Proof.
  intros H. unfold _fetch_nvd_cve_recent.
  destruct (requests_get w (Z.min limit 20)) as [msg | status [data|]];
    simpl; try lia; destruct (status =? 200)%Z; simpl; try lia.
  destruct (vulnerabilities data) as [vulns|]; simpl; [|lia].
  rewrite length_map. now apply slice_to_length.
Qed.

(** A source that fails contributes nothing, and when all fail the answer
    is the empty list. *)
Lemma fetch_rss_feed_failure w feed_url source_name is_cve max_items msg :
  feedparser_parse w feed_url = ParseRaises msg ->
  _fetch_rss_feed re_digit w feed_url source_name is_cve max_items = [].
Proof. intros H. unfold _fetch_rss_feed. now rewrite H. Qed.

Lemma fetch_nvd_failure w limit :
  (exists msg, requests_get w (Z.min limit 20) = RequestRaises msg) \/
  (exists status json,
     requests_get w (Z.min limit 20) = Responded status json /\
     (status <> 200%Z \/ json = None)) ->
  _fetch_nvd_cve_recent w limit = [].
Proof.
  unfold _fetch_nvd_cve_recent.
  intros [[msg ->] | (status & json & -> & [H | ->])]; [reflexivity | |].
  - apply Z.eqb_neq in H. now rewrite H.
  - now destruct (status =? 200)%Z.
Qed.

Lemma flat_map_nil {X Y} (f : X -> list Y) l :
  (forall x, f x = []) -> flat_map f l = [].
Proof.
  intros H. induction l as [|x l IH]; simpl; [reflexivity |].
  now rewrite H, IH.
Qed.

(** X4.  When every feed request and every request to the NVD API raises,
    both calls return the empty list: no failure of a source leaves them. *)
Lemma all_sources_down w limit include_cves :
  (forall url, exists msg, feedparser_parse w url = ParseRaises msg) ->
  (forall n, exists msg, requests_get w n = RequestRaises msg) ->
  get_latest_news re_digit fromisoformat w limit include_cves = Ok [] /\
  get_cves_only re_digit fromisoformat w limit = Ok [].
Proof.
  intros Hf Hr.
  assert (F : forall url name c m, _fetch_rss_feed re_digit w url name c m = []).
  { intros url name c m. destruct (Hf url) as [msg E].
    eapply fetch_rss_feed_failure. exact E. }
  assert (V : forall n, _fetch_nvd_cve_recent w n = []).
  { intros n. apply fetch_nvd_failure. left. apply Hr. }
  unfold get_latest_news, get_cves_only, collect_news, collect_cves.
  rewrite !V, !flat_map_nil by (intros; apply F).
  destruct include_cves; simpl; unfold slice_to;
    destruct (0 <=? limit)%Z; simpl; now rewrite ?firstn_nil.
Qed.

Lemma ranked_by_date items limit r :
  returns_ranked fromisoformat items limit r ->
  descending_by_date fromisoformat r.
Proof.
  intros (sorted & _ & -> & S & _) out l1 a l2 b l3 [= <-] E.
  rewrite E in S. apply strongly_sorted_app_inv in S.
  rewrite Forall_forall in S.
  assert (N : not_earlier key a b).
  { apply S, in_or_app. right. left. reflexivity. }
  unfold not_earlier in N. split.
  - intros da db Ha Hb.
    rewrite (dated_key Ha), (dated_key Hb) in N. exact N.
  - intros Ha db Hb.
    rewrite (undated_key _ Ha), (dated_key Hb) in N. rewrite N. discriminate.
Qed.

(** C4, as amended.  The key of an item is its date as the parser reads it,
    and the sentinel when the date is missing, empty or refused.  When the
    keys of the collected items are comparable (all naive or all aware),
    [get_latest_news] and [get_cves_only] return the first [limit] places
    of the collected items sorted by descending key; items of equal key,
    among them all undated ones, keep their collection order.  So the
    returned list is in descending order of the dates: of two dated items
    the one placed first is not the earlier, and an undated item is never
    placed before an item dated later than the sentinel. *)
Theorem ranked_when_comparable w limit include_cves :
  (forall item d, dated fromisoformat item d -> key item = d) /\
  (forall item, undated fromisoformat item -> key item = datetime_min) /\
  (comparable (map key (collect_news re_digit w include_cves)) ->
   returns_ranked fromisoformat (collect_news re_digit w include_cves) limit
     (get_latest_news re_digit fromisoformat w limit include_cves) /\
   descending_by_date fromisoformat
     (get_latest_news re_digit fromisoformat w limit include_cves)) /\
  (comparable (map key (collect_cves re_digit w limit)) ->
   returns_ranked fromisoformat (collect_cves re_digit w limit) limit
     (get_cves_only re_digit fromisoformat w limit) /\
   descending_by_date fromisoformat
     (get_cves_only re_digit fromisoformat w limit)).
Proof.
  split; [exact dated_key |]. split; [exact undated_key |].
  split; intros C; (split; [| eapply ranked_by_date]);
    apply sort_slice_ranked, C.
Qed.

(** C9.  For a limit [n >= 0], as the callers pass it, a list returned by
    [get_latest_news] or [get_cves_only] has at most [n] items, whatever the
    sources return; the calls do return when the keys are comparable. *)
Theorem at_most_limit_items w limit include_cves :
  (0 <= limit)%Z ->
  (forall out,
     get_latest_news re_digit fromisoformat w limit include_cves = Ok out ->
     (Z.of_nat (length out) <= limit)%Z) /\
  (forall out,
     get_cves_only re_digit fromisoformat w limit = Ok out ->
     (Z.of_nat (length out) <= limit)%Z) /\
  (comparable (map key (collect_news re_digit w include_cves)) ->
   exists out,
     get_latest_news re_digit fromisoformat w limit include_cves = Ok out) /\
  (comparable (map key (collect_cves re_digit w limit)) ->
   exists out, get_cves_only re_digit fromisoformat w limit = Ok out).
Proof.
  intros H. repeat split.
  - intros out. now apply sort_slice_length.
  - intros out. now apply sort_slice_length.
  - apply sort_slice_total.
  - apply sort_slice_total.
Qed.

(** C6, as amended.  [get_cves_only] consults the two vulnerability feeds
    and the Enricher only: it takes at most 3 items from each feed, asks the
    Enricher for [limit] records (a page of [min(limit, 20)]) and gets at
    most [limit] of them for [limit >= 0], then sorts and cuts; nothing else
    of the outside has an influence on its answer. *)
Theorem cves_only_sources w limit :
  let feed url :=
    _fetch_rss_feed re_digit w url (cve_source_name url) true 3 in
  let nvd := _fetch_nvd_cve_recent w limit in
  get_cves_only re_digit fromisoformat w limit =
    (s <- sort_reverse key (flat_map feed CVE_FEEDS ++ nvd) ;;
     Ok (slice_to limit s)) /\
  (forall url, length (feed url) <= 3) /\
  ((0 <= limit)%Z -> (Z.of_nat (length nvd) <= limit)%Z) /\
  (forall w',
     (forall url, In url CVE_FEEDS ->
                  feedparser_parse w' url = feedparser_parse w url) ->
     requests_get w' (Z.min limit 20) = requests_get w (Z.min limit 20) ->
     get_cves_only re_digit fromisoformat w' limit =
     get_cves_only re_digit fromisoformat w limit).
Proof.
  repeat split.
  - intros url.
    pose proof (@fetch_rss_feed_length w url (cve_source_name url) true 3).
    lia.
  - apply fetch_nvd_length.
  - intros w' Hf Hr. unfold get_cves_only, collect_cves.
    unfold _fetch_nvd_cve_recent. rewrite Hr. do 2 f_equal. f_equal.
    rewrite !flat_map_concat_map. f_equal. apply map_ext_in.
    intros url Hu. unfold _fetch_rss_feed. now rewrite (Hf url Hu).
Qed.

End AggregatorFacts.


(** ** The retry policy *)

Section RetryFacts.

Import news_fetcher ai_insight.

Variable lower : pystr -> pystr.
Variable JsonValue : Type.
Variable json_loads : pystr -> JsonValue + pystr.
Variable PROMPT_HEAD PROMPT_TAIL : pystr.

Abbreviation body := (attempt_body json_loads).
Abbreviation loop := (retry_loop lower json_loads).
Abbreviation analyze :=
  (analyze_news_for_ideas lower json_loads PROMPT_HEAD PROMPT_TAIL).
Abbreviation prompt_of news_items :=
  (PROMPT_HEAD ++ news_text news_items ++ PROMPT_TAIL).

Lemma attempts_app t1 t2 : attempts (t1 ++ t2) = attempts t1 + attempts t2.
Proof. unfold attempts. now rewrite filter_app, length_app. Qed.

Lemma attempts_sleep s t : attempts (Sleep s :: t) = attempts t.
Proof. reflexivity. Qed.

Lemma sleeps_app t1 t2 : sleeps (t1 ++ t2) = sleeps t1 ++ sleeps t2.
Proof.
  induction t1 as [|[|p|s] t1 IH]; simpl; try assumption; [reflexivity |].
  now rewrite IH.
Qed.

(** One attempt builds one client, sends at most one request and does not
    sleep. *)
Lemma body_events env prompt i :
  attempts (snd (body env prompt i)) = 1 /\ sleeps (snd (body env prompt i)) = [].
Proof.
  unfold attempt_body. destruct (Client env i); [now split |].
  destruct (generate_content env i prompt) as [e | [text|]]; try now split.
  destruct (json_loads text); now split.
Qed.

(** The loop makes at most as many attempts as it has iterations. *)
Lemma loop_attempts env prompt max_retries remaining i :
  attempts (snd (loop env prompt max_retries remaining i)) <= remaining.
Proof.
  revert i. induction remaining as [|k IH]; intros i; simpl; [apply Nat.le_refl |].
  destruct (body_events env prompt i) as [Hb _].
  specialize (IH (S i)).
  destruct (body env prompt i) as [[v | e] events]; simpl in *; [lia |].
  destruct (loop env prompt max_retries k (S i)) as [o t]; simpl in *.
  destruct (classify lower e); simpl; try lia;
    destruct (Z.of_nat i <? max_retries)%Z; simpl; try lia.
  all: rewrite attempts_app, attempts_sleep; lia.
Qed.

(** One step of the loop on a failed attempt, by the class of the error. *)
Lemma loop_step_overload env prompt max_retries k i e :
  fst (body env prompt i) = inr e -> classify lower e = Overload ->
  loop env prompt max_retries (S k) i =
  if (Z.of_nat i <? max_retries)%Z then
    (fst (loop env prompt max_retries k (S i)),
     snd (body env prompt i) ++ Sleep ((Z.of_nat i + 1) * 2) ::
     snd (loop env prompt max_retries k (S i)))
  else (Message OVERLOADED, snd (body env prompt i)).
Proof.
  intros Hb Hc. simpl. destruct (body env prompt i) as [r events].
  simpl in Hb. subst r. rewrite Hc.
  destruct (Z.of_nat i <? max_retries)%Z; [|reflexivity].
  now destruct (loop env prompt max_retries k (S i)).
Qed.

Lemma loop_step_final env prompt max_retries k i e :
  fst (body env prompt i) = inr e ->
  loop env prompt max_retries (S k) i =
  match classify lower e with
  | AuthFailure => (Message AUTH_FAILED, snd (body env prompt i))
  | RateLimit => (Message RATE_LIMITED, snd (body env prompt i))
  | _ => loop env prompt max_retries (S k) i
  end.
Proof.
  intros Hb. destruct (classify lower e) eqn:Hc; try reflexivity;
    simpl; destruct (body env prompt i) as [r events];
    simpl in Hb; subst r; now rewrite Hc.
Qed.

Lemma analyze_configured env news_items max_retries :
  configured env = true ->
  analyze env news_items max_retries =
  loop env (prompt_of news_items) max_retries (Z.to_nat (max_retries + 1)) 0.
Proof. intros H. unfold analyze_news_for_ideas. now rewrite H. Qed.

(** An overload signal decides the class before any other signal is
    looked at. *)
Lemma classify_overload e : is_overload lower e = true -> classify lower e = Overload.
Proof. intros H. unfold classify. now rewrite H. Qed.

(** C8.  Without a configured credential the call returns the
    configuration-error string and does nothing to the outside: no client is
    built, no request sent, for every list of items and every
    [max_retries]. *)
Theorem no_credential_short_circuit env news_items max_retries :
  configured env = false ->
  analyze env news_items max_retries = (Message NOT_CONFIGURED, []).
Proof. intros H. unfold analyze_news_for_ideas. now rewrite H. Qed.

(** C3.  With [max_retries = 2] a call makes at most 3 attempts.  When the
    credential is configured and each of the three attempts fails with an
    error of the overload class, the call makes exactly 3 attempts, sleeps 2
    and then 4 seconds between them, and returns the service-overloaded
    string. *)
Theorem retry_bound_overloaded env news_items :
  attempts (snd (analyze env news_items 2)) <= 3 /\
  (configured env = true ->
   (forall i, i < 3 -> exists e,
      fst (body env (prompt_of news_items) i) = inr e /\
      classify lower e = Overload) ->
   fst (analyze env news_items 2) = Message OVERLOADED /\
   attempts (snd (analyze env news_items 2)) = 3 /\
   sleeps (snd (analyze env news_items 2)) = [2; 4]%Z /\
   snd (analyze env news_items 2) =
     snd (body env (prompt_of news_items) 0) ++ Sleep 2 ::
     snd (body env (prompt_of news_items) 1) ++ Sleep 4 ::
     snd (body env (prompt_of news_items) 2)).
Proof.
  split.
  - unfold analyze_news_for_ideas. destruct (negb (configured env)).
    + simpl. unfold attempts. simpl. lia.
    + apply (loop_attempts env _ 2 3 0).
  - intros Hc Hall. rewrite analyze_configured by exact Hc.
    change (Z.to_nat (2 + 1)) with 3.
    destruct (Hall 0) as [e0 [B0 C0]]; [lia |].
    destruct (Hall 1) as [e1 [B1 C1]]; [lia |].
    destruct (Hall 2) as [e2 [B2 C2]]; [lia |].
    rewrite loop_step_overload with (e := e0) by assumption.
    rewrite loop_step_overload with (e := e1) by assumption.
    rewrite loop_step_overload with (e := e2) by assumption.
    simpl. 
    destruct (body_events env (prompt_of news_items) 0) as [A0 S0].
    destruct (body_events env (prompt_of news_items) 1) as [A1 S1].
    destruct (body_events env (prompt_of news_items) 2) as [A2 S2].
    repeat split.
    + rewrite !attempts_app, !attempts_sleep, !attempts_app, !attempts_sleep.
      lia.
    + rewrite sleeps_app. simpl. rewrite sleeps_app. simpl.
      now rewrite S0, S1, S2.
Qed.

Lemma loop_makes_an_attempt env prompt max_retries k i :
  1 <= attempts (snd (loop env prompt max_retries (S k) i)).
Proof.
  simpl. destruct (body_events env prompt i) as [Hb _].
  destruct (body env prompt i) as [[v | e] events]; simpl in *; [lia |].
  destruct (loop env prompt max_retries k (S i)) as [o t].
  destruct (classify lower e); simpl; try lia;
    destruct (Z.of_nat i <? max_retries)%Z; simpl; try lia;
    rewrite attempts_app; lia.
Qed.

Lemma iterations_succ max_retries :
  (0 <= max_retries)%Z ->
  Z.to_nat (max_retries + 1) = S (Z.to_nat max_retries).
Proof. intros H. rewrite Z.add_1_r. now apply Z2Nat.inj_succ. Qed.

(** C7.  An attempt that fails with an error of the authentication class,
    or of the rate-limit class, ends the call at once: the answer is the
    corresponding string and the trace stops with that attempt, which has
    built one client and slept not at all.  So a call whose first attempt
    fails this way makes that single attempt. *)
Theorem auth_and_rate_limit_end_the_call env news_items max_retries k i e :
  let prompt := prompt_of news_items in
  let answer :=
    match classify lower e with
    | AuthFailure => AUTH_FAILED
    | _ => RATE_LIMITED
    end in
  fst (body env prompt i) = inr e ->
  classify lower e = AuthFailure \/ classify lower e = RateLimit ->
  loop env prompt max_retries (S k) i =
    (Message answer, snd (body env prompt i)) /\
  attempts (snd (body env prompt i)) = 1 /\
  sleeps (snd (body env prompt i)) = [] /\
  (i = 0 -> configured env = true -> (0 <= max_retries)%Z ->
   analyze env news_items max_retries =
     (Message answer, snd (body env prompt 0))).
Proof.
  intros prompt answer Hb Hc.
  assert (Hl : forall k', loop env prompt max_retries (S k') i =
                          (Message answer, snd (body env prompt i))).
  { intros k'. rewrite loop_step_final with (e := e) by exact Hb.
    subst answer. now destruct Hc as [-> | ->]. }
  destruct (body_events env prompt i) as [Ha Hs].
  repeat split; try assumption; [apply Hl |].
  intros -> Hconf Hm. rewrite analyze_configured by exact Hconf.
  rewrite iterations_succ by exact Hm. apply Hl.
Qed.

(** C10.  The overload signals are tested first: an error whose text holds
    an overload signal together with an authentication or a rate-limit
    signal is of the overload class.  The attempt that fails with it is
    followed by a sleep of [(attempt + 1) * 2] seconds and the next attempt
    while attempts are left, and by the service-overloaded string on the
    last one; so a call with at least one retry whose first attempt fails
    this way sleeps 2 seconds and makes a second attempt. *)
Theorem overload_checked_first env news_items max_retries k i e :
  let prompt := prompt_of news_items in
  fst (body env prompt i) = inr e ->
  is_overload lower e = true ->
  is_auth lower e = true \/ is_rate_limit lower e = true ->
  classify lower e = Overload /\
  loop env prompt max_retries (S k) i =
    (if (Z.of_nat i <? max_retries)%Z then
       (fst (loop env prompt max_retries k (S i)),
        snd (body env prompt i) ++ Sleep ((Z.of_nat i + 1) * 2) ::
        snd (loop env prompt max_retries k (S i)))
     else (Message OVERLOADED, snd (body env prompt i))) /\
  (i = 0 -> configured env = true -> (1 <= max_retries)%Z ->
   2 <= attempts (snd (analyze env news_items max_retries)) /\
   exists t, snd (analyze env news_items max_retries) =
             snd (body env prompt 0) ++ Sleep 2 :: t).
Proof.
  intros prompt Hb Ho _. subst prompt.
  pose proof (classify_overload _ Ho) as Hc.
  split; [exact Hc |]. split.
  - now apply loop_step_overload with (e := e).
  - intros -> Hconf Hm. rewrite analyze_configured by exact Hconf.
    rewrite iterations_succ by lia.
    rewrite loop_step_overload with (e := e) by assumption.
    replace (Z.of_nat 0 <? max_retries)%Z with true
      by (symmetry; apply Z.ltb_lt; simpl; lia).
    simpl snd. split; [|eauto].
    destruct (body_events env (prompt_of news_items) 0) as [Ha _].
    rewrite attempts_app, attempts_sleep, Ha.
    destruct (Z.to_nat max_retries) as [|m] eqn:Em; [lia |].
    pose proof (loop_makes_an_attempt env (prompt_of news_items)
                  max_retries m 1).
    lia.
Qed.

End RetryFacts.


(** ** The length of summaries *)

Section SummaryFacts.

Import news_fetcher.

Variable re_digit : N -> bool.
Variable fromisoformat : pystr -> option datetime.

Abbreviation short item := (length (summary item) <= 500).

Lemma hard_cut (s : pystr) :
  (if (500 <? length s)%nat then firstn 500 s else s) = firstn 500 s.
Proof.
  destruct (Nat.ltb_spec 500 (length s)) as [H | H]; [reflexivity |].
  symmetry. now apply firstn_all2.
Qed.

Lemma slice_to_500 (s : pystr) : slice_to 500 s = firstn 500 s.
Proof. reflexivity. Qed.

Lemma parse_feed_entry_summary entry source_name is_cve :
  exists item,
    _parse_feed_entry re_digit entry source_name is_cve = Some item /\
    summary item = firstn 500 (_clean_html (entry_text entry)).
Proof.
  unfold _parse_feed_entry. eexists. split; [reflexivity |].
  cbv beta iota delta [summary]. apply hard_cut.
Qed.

Lemma in_filter_map {X Y} (f : X -> option Y) l b :
  In b (filter_map f l) -> exists a, In a l /\ f a = Some b.
Proof.
  induction l as [|a l IH]; simpl; [intros [] |].
  destruct (f a) as [b'|] eqn:E.
  - intros [<- | H]; [eauto |]. destruct (IH H) as [a' [? ?]]. eauto.
  - intros H. destruct (IH H) as [a' [? ?]]. eauto.
Qed.

Lemma fetch_rss_feed_short w feed_url source_name is_cve max_items item :
  In item (_fetch_rss_feed re_digit w feed_url source_name is_cve max_items) ->
  short item.
Proof.
  unfold _fetch_rss_feed.
  destruct (feedparser_parse w feed_url) as [msg | entries]; [intros [] |].
  intros [entry [_ H]]%in_filter_map.
  destruct (parse_feed_entry_summary entry source_name is_cve) as [i [E S]].
  rewrite E in H. injection H as <-. rewrite S. apply firstn_le_length.
Qed.

Lemma fetch_nvd_item w limit item :
  In item (_fetch_nvd_cve_recent w limit) -> exists vuln, item = nvd_item vuln.
Proof.
  unfold _fetch_nvd_cve_recent.
  destruct (requests_get w (Z.min limit 20)) as [msg | status [data|]];
    try (intros []); destruct (status =? 200)%Z; try (intros []).
  destruct (vulnerabilities data) as [vulns|]; [|intros []].
  intros [vuln [<- _]]%in_map_iff. eauto.
Qed.

Lemma nvd_item_summary vuln :
  summary (nvd_item vuln) = firstn 500 (describe (descriptions (cve_of vuln))).
Proof. reflexivity. Qed.

Lemma collected_short w include_cves limit item :
  In item (collect_news re_digit w include_cves) \/
  In item (collect_cves re_digit w limit) ->
  short item.
Proof.
  assert (Hnvd : forall n, In item (_fetch_nvd_cve_recent w n) -> short item).
  { intros n [vuln ->]%fetch_nvd_item. rewrite nvd_item_summary.
    apply firstn_le_length. }
  assert (Hfeeds : forall (X : Type) (f : X -> list Item) (l : list X),
            (forall x, In item (f x) -> short item) ->
            In item (flat_map f l) -> short item).
  { intros X f l Hf [x [_ Hx]]%in_flat_map. eauto. }
  unfold collect_news, collect_cves. intros [H | H].
  - destruct include_cves; [apply in_app_or in H as [H | H] |].
    + revert H. apply Hfeeds. intros x. apply fetch_rss_feed_short.
    + apply in_app_or in H as [H | H]; [|eauto].
      revert H. apply Hfeeds. intros x. apply fetch_rss_feed_short.
    + revert H. apply Hfeeds. intros x. apply fetch_rss_feed_short.
  - apply in_app_or in H as [H | H]; [|eauto].
    revert H. apply Hfeeds. intros x. apply fetch_rss_feed_short.
Qed.

Lemma in_slice_to {X} n (l : list X) a : In a (slice_to n l) -> In a l.
Proof.
  unfold slice_to. destruct (0 <=? n)%Z; intros H;
    eapply in_firstn; exact H.
Qed.

Lemma sort_reverse_in {X} (key : X -> datetime) l s a :
  sort_reverse key l = Ok s -> In a s -> In a l.
Proof.
  intros H Ha. apply sort_reverse_ranking in H as [P _ _].
  apply Permutation_sym in P. exact (Permutation_in a P Ha).
Qed.

(** C5.  The Normalizer always produces an item; its summary is the first
    500 characters of the cleaned text, nothing added, so at most 500 long.
    Every item of the Enricher is built from a record with the first 500
    characters of the chosen description as its summary.  Hence every item
    the aggregator returns has a summary of at most 500 characters. *)
Theorem summary_at_most_500 w entry source_name is_cve limit include_cves :
  (exists item,
     _parse_feed_entry re_digit entry source_name is_cve = Some item /\
     summary item = firstn 500 (_clean_html (entry_text entry)) /\
     short item) /\
  (forall item, In item (_fetch_nvd_cve_recent w limit) ->
     short item /\
     exists vuln,
       item = nvd_item vuln /\
       summary item = firstn 500 (describe (descriptions (cve_of vuln)))) /\
  (forall out,
     get_latest_news re_digit fromisoformat w limit include_cves = Ok out \/
     get_cves_only re_digit fromisoformat w limit = Ok out ->
     Forall (fun item => short item) out).
Proof.
  split; [|split].
  - destruct (parse_feed_entry_summary entry source_name is_cve) as [i [E S]].
    exists i. repeat split; try assumption. rewrite S. apply firstn_le_length.
  - intros item [vuln ->]%fetch_nvd_item. split; [|eauto].
    rewrite nvd_item_summary. apply firstn_le_length.
  - intros out H. apply Forall_forall. intros item Hi.
    apply (@collected_short w include_cves limit).
    unfold get_latest_news, get_cves_only in H.
    destruct H as [H | H]; [left | right];
      match type of H with
      | bind (sort_reverse ?k ?l) _ = _ =>
          destruct (sort_reverse k l) as [s|] eqn:E; [|discriminate]
      end;
      simpl in H; injection H as <-;
      apply in_slice_to in Hi; eapply sort_reverse_in; eassumption.
Qed.

End SummaryFacts.


(** * Worked examples *)

Lemma comparableb_sound keys : comparableb keys = true -> comparable keys.
Proof.
  destruct keys as [|k rest]; [intros _ a b [] |].
  simpl. rewrite forallb_forall. intros H.
  assert (Hk : forall a, In a (k :: rest) -> aware a = aware k).
  { intros a [<- | Ha]; [reflexivity |]. now apply eqb_prop, H. }
  intros a b Ha Hb. now rewrite (Hk a Ha), (Hk b Hb).
Qed.

Section Examples.

Import news_fetcher ai_insight Instances Scenarios.

Abbreviation latest := (get_latest_news ascii_digit fromisoformat_core).
Abbreviation cves := (get_cves_only ascii_digit fromisoformat_core).

(** C1, the failing input.  A feed entry dated by its feed and an NVD
    record dated with a trailing [Z] are collected together: their keys are a
    naive and an aware [datetime], and the [TypeError] of their comparison
    leaves both calls. *)
Theorem mixed_dates_raise :
  latest mixed_dates 5 true = Raise TypeError /\
  cves mixed_dates 5 = Raise TypeError.
Proof. split; vm_compute; reflexivity. Qed.


(** A double-encoded entity is decoded one level. *)
Example clean_html_double_encoded :
  _clean_html (lit "<p>&amp;amp;</p>") = lit "&amp;".
Proof. reflexivity. Qed.


(** The ranking of [busy]: latest first, the two records of May 2 and the
    two undated items in collection order. *)
Example busy_ranking :
  match cves busy 10 with
  | Ok out => map title out
  | Raise _ => []
  end =
  map lit ["CVE-2024-0002: two"; "B"; "CVE-2024-0001: one";
           "CVE-2024-0003: three"; "A"; "C"; "CVE-2024-0004: four"]%string.
Proof. vm_compute. reflexivity. Qed.

(** C4, the claim refuted: the item dated in 2024 comes first, and behind
    it an undated item is returned before a dated one whose date is the
    sentinel itself. *)
Lemma undated_before_sentinel_date :
  cves sentinel_tie 5 = Ok [tie_later; tie_undated; tie_dated] /\
  undated fromisoformat_core tie_undated /\
  dated fromisoformat_core tie_dated datetime_min /\
  ~ undated fromisoformat_core tie_dated.
Proof.
  split; [vm_compute; reflexivity |]. split; [| split].
  - left. reflexivity.
  - exists (lit "0001-01-01T00:00:00"). repeat split.
  - intros [H | H]; vm_compute in H; discriminate.
Qed.

(** C4 on [busy]: the answer begins with the record of May 4, and the two
    calls are ranked, by key and by date. *)
Lemma ranked_when_comparable_witness :
  (exists rest,
     cves busy 10 =
     Ok (nvd_item (record (lit "CVE-2024-0002") (lit "two")
                     (Some (lit "2024-05-04T08:00:00.000"))) :: rest)) /\
  get_sort_key fromisoformat_core
    (nvd_item (record (lit "CVE-2024-0002") (lit "two")
                 (Some (lit "2024-05-04T08:00:00.000"))))
  = Naive 63850406400000000 /\
  returns_ranked fromisoformat_core (collect_news ascii_digit busy true) 10
    (latest busy 10 true) /\
  descending_by_date fromisoformat_core (latest busy 10 true) /\
  returns_ranked fromisoformat_core (collect_cves ascii_digit busy 10) 10
    (cves busy 10) /\
  descending_by_date fromisoformat_core (cves busy 10).
Proof.
  destruct (ranked_when_comparable ascii_digit fromisoformat_core busy 10 true)
    as (K & _ & H1 & H2).
  destruct H1 as [R1 D1]; [apply comparableb_sound; vm_compute; reflexivity |].
  destruct H2 as [R2 D2]; [apply comparableb_sound; vm_compute; reflexivity |].
  split; [eexists; vm_compute; reflexivity |].
  split; [| split; [exact R1 | split; [exact D1 | split; [exact R2 |
                                                         exact D2]]]].
  apply K. exists (lit "2024-05-04T08:00:00.000"). repeat split.
Defined.

(** C5 at a text of 600 characters. *)
Lemma summary_at_most_500_witness :
  (exists item,
     _parse_feed_entry ascii_digit long_entry (lit "rss") false = Some item /\
     summary item = repeat 97%N 500) /\
  summary (nvd_item (record (lit "CVE-2024-0009") long_text None)) =
    repeat 97%N 500 /\
  length (summary (nvd_item (record (lit "CVE-2024-0009") long_text None)))
    <= 500.
Proof.
  destruct (summary_at_most_500 ascii_digit fromisoformat_core long_record
              long_entry (lit "rss") false 5 true) as (H1 & H2 & _).
  split; [|split].
  - destruct H1 as (item & E & S & _). exists item. split; [exact E |].
    rewrite S. vm_compute. reflexivity.
  - vm_compute. reflexivity.
  - apply H2. vm_compute. left. reflexivity.
Defined.

(** C6, the claim refuted: with [limit = 10] the answer holds three items
    of one vulnerability feed and four of the Enricher. *)
Lemma cves_only_takes_three_and_limit :
  match cves busy 10 with
  | Ok out =>
      length (filter (from_source (lit "nvd-rss-analyzed.xml")) out) = 3 /\
      length (filter (from_source NIST_NVD) out) = 4
  | Raise _ => False
  end.
Proof. vm_compute. split; reflexivity. Qed.

Lemma cves_only_sources_witness :
  length (_fetch_rss_feed ascii_digit busy NVD_RSS (cve_source_name NVD_RSS)
            true 3) <= 3 /\
  (Z.of_nat (length (_fetch_nvd_cve_recent busy 10)) <= 10)%Z /\
  cves busy_elsewhere 10 = cves busy 10.
Proof.
  destruct (cves_only_sources ascii_digit fromisoformat_core busy 10)
    as (_ & H1 & H2 & H3).
  split; [apply H1 | split; [apply H2; lia | apply H3]].
  - intros url [<- | [<- | []]]; reflexivity.
  - reflexivity.
Defined.

(** Outside the range the callers pass: the slice of a negative limit
    counts from the end, here four of five items. *)
Example negative_limit_returns_items :
  match latest busy (-1) true with
  | Ok out => length out = 4 /\ ~ (Z.of_nat (length out) <= -1)%Z
  | Raise _ => False
  end.
Proof.
  set (r := latest busy (-1) true). vm_compute in r. subst r.
  split; [reflexivity | simpl length; lia].
Qed.

Lemma at_most_limit_items_witness :
  exists out, latest busy 2 true = Ok out /\ (Z.of_nat (length out) <= 2)%Z.
Proof.
  destruct (@at_most_limit_items ascii_digit fromisoformat_core busy 2 true)
    as (H1 & _ & H3 & _); [lia |].
  destruct H3 as [out E].
  { apply comparableb_sound. vm_compute. reflexivity. }
  exists out. split; [exact E | apply H1; exact E].
Defined.

(** C3 at a transport that always answers 503. *)
Lemma retry_bound_overloaded_witness :
  fst (run (failing (Some (lit "key")) (lit "503 UNAVAILABLE")) 2) =
    Message OVERLOADED /\
  attempts (snd (run (failing (Some (lit "key")) (lit "503 UNAVAILABLE")) 2))
    = 3 /\
  sleeps (snd (run (failing (Some (lit "key")) (lit "503 UNAVAILABLE")) 2))
    = [2; 4]%Z.
Proof.
  destruct (retry_bound_overloaded ascii_lower no_json HEAD TAIL
              (failing (Some (lit "key")) (lit "503 UNAVAILABLE")) one_item)
    as [_ H].
  destruct H as (H1 & H2 & H3 & _).
  - reflexivity.
  - intros i _. exists (lit "503 UNAVAILABLE"). split; reflexivity.
  - repeat split; assumption.
Defined.

(** Two 503 answers, then a fenced JSON text: the ideas are returned after
    two sleeps. *)
Example recovers_on_third_attempt :
  let r := analyze_news_for_ideas ascii_lower bracketed HEAD TAIL
             (recovering 2 (lit "UNAVAILABLE 503")
                (FENCE ++ lit "json" ++ NL ++ lit "[]" ++ NL ++ FENCE))
             one_item 2 in
  fst r = Ideas (lit "[]") /\ sleeps (snd r) = [2; 4]%Z /\
  attempts (snd r) = 3.
Proof. vm_compute. repeat split. Qed.

(** C7 at the error of scenario D. *)
Lemma auth_and_rate_limit_end_the_call_witness :
  run (failing (Some (lit "key")) (lit "API key invalid (401)")) 2 =
    (Message AUTH_FAILED, [NewClient; GenerateContent PROMPT]) /\
  run (failing (Some (lit "key")) (lit "429 Too Many Requests")) 2 =
    (Message RATE_LIMITED, [NewClient; GenerateContent PROMPT]).
Proof.
  split.
  - apply (@auth_and_rate_limit_end_the_call ascii_lower unit no_json HEAD
             TAIL (failing (Some (lit "key")) (lit "API key invalid (401)"))
             one_item 2 0 0 (lit "API key invalid (401)"));
      try reflexivity; [now left | lia].
  - apply (@auth_and_rate_limit_end_the_call ascii_lower unit no_json HEAD
             TAIL (failing (Some (lit "key")) (lit "429 Too Many Requests"))
             one_item 2 0 0 (lit "429 Too Many Requests"));
      try reflexivity; [now right | lia].
Defined.

(** C8 without a key, and with an empty one. *)
Lemma no_credential_short_circuit_witness :
  run (failing None (lit "unreachable")) 2 = (Message NOT_CONFIGURED, []) /\
  run (failing (Some []) (lit "unreachable")) 2 = (Message NOT_CONFIGURED, []).
Proof.
  split; apply no_credential_short_circuit; reflexivity.
Defined.

(** C10 at an error text with both a 503 and a 401. *)
Lemma overload_checked_first_witness :
  classify ascii_lower (lit "503 UNAVAILABLE: API key not valid (401)") =
    Overload /\
  2 <= attempts
         (snd (run (failing (Some (lit "key"))
                      (lit "503 UNAVAILABLE: API key not valid (401)")) 2)).
Proof.
  destruct (@overload_checked_first ascii_lower unit no_json HEAD TAIL
              (failing (Some (lit "key"))
                 (lit "503 UNAVAILABLE: API key not valid (401)"))
              one_item 2 0 0 (lit "503 UNAVAILABLE: API key not valid (401)"))
    as (H1 & _ & H3); try reflexivity; [now left |].
  split; [exact H1 |]. apply H3; [reflexivity | reflexivity | lia].
Defined.

End Examples.

(** * Further facts *)

(** ** Identifiers and items of the Normalizer *)

Section NormalizerFacts.

Import news_fetcher.

Variable re_digit : N -> bool.

Lemma starts_with_split p s :
  starts_with p s = true -> s = p ++ skipn (length p) s.
Proof.
  revert s. induction p as [|a p IH]; intros s H; [reflexivity |].
  destruct s as [|b s]; [discriminate |]. simpl in *.
  apply andb_true_iff in H as [Hab H]. apply N.eqb_eq in Hab. subst b.
  f_equal. now apply IH.
Qed.

Lemma starts_with_self p t : starts_with p (p ++ t) = true.
Proof.
  induction p as [|a p IH]; [reflexivity |]. simpl.
  now rewrite N.eqb_refl, IH.
Qed.

Lemma take_while_split f s : exists t, s = take_while f s ++ t.
Proof.
  induction s as [|c s [t IH]]; [now exists [] |]. simpl.
  destruct (f c); [|now exists (c :: s)].
  exists t. simpl. now rewrite <- IH.
Qed.

Lemma take_while_all f s : forallb f (take_while f s) = true.
Proof.
  induction s as [|c s IH]; [reflexivity |]. simpl.
  destruct (f c) eqn:E; [|reflexivity]. simpl. now rewrite E, IH.
Qed.

Lemma take_while_app f ds t :
  forallb f ds = true -> take_while f (ds ++ t) = ds ++ take_while f t.
Proof.
  induction ds as [|c ds IH]; [reflexivity |]. simpl.
  intros [Hc H]%andb_true_iff. rewrite Hc. now rewrite IH.
Qed.

Lemma cve_match_sound s m :
  cve_match re_digit s = Some m ->
  cve_shaped re_digit m /\ starts_with m s = true.
Proof.
  unfold cve_match. destruct (starts_with (lit "CVE-") s) eqn:Hp; [|discriminate].
  apply starts_with_split in Hp. set (r := skipn 4 s) in *.
  change (length (lit "CVE-")) with 4 in Hp. fold r in Hp. clearbody r.
  destruct (Nat.eqb_spec (length (firstn 4 r)) 4) as [Hy | Hy];
    cbn [andb]; [|discriminate].
  destruct (forallb re_digit (firstn 4 r)) eqn:Dy; [|discriminate].
  destruct (skipn 4 r) as [|c r2] eqn:Hr; [discriminate |].
  destruct (N.eqb_spec c 45) as [-> | ?]; cbn [andb]; [|discriminate].
  destruct (Nat.leb_spec 4 (length (take_while re_digit r2))) as [Hd | Hd];
    [|discriminate].
  intros [= <-]. split.
  - exists (firstn 4 r), (take_while re_digit r2).
    repeat split; try assumption. apply take_while_all.
  - destruct (take_while_split re_digit r2) as [t Ht].
    assert (E : s = (lit "CVE-" ++ firstn 4 r ++ lit "-" ++
                     take_while re_digit r2) ++ t).
    { rewrite <- !app_assoc, <- Ht. change (lit "-" ++ r2) with (45%N :: r2).
      rewrite <- Hr, firstn_skipn. exact Hp. }
    rewrite E. apply starts_with_self.
Qed.

Lemma cve_search_unfold s :
  cve_search re_digit s =
  match cve_match re_digit s with
  | Some m => Some m
  | None => match s with [] => None | _ :: r => cve_search re_digit r end
  end.
Proof. now destruct s. Qed.

Lemma cve_search_sound s m :
  cve_search re_digit s = Some m ->
  cve_shaped re_digit m /\ contains m s = true.
Proof.
  induction s as [|c s IH]; rewrite cve_search_unfold;
    destruct (cve_match re_digit _) eqn:E; try (cbv iota; discriminate).
  - intros [= ->]. apply cve_match_sound in E as [? E]. split; [assumption |].
    rewrite contains_cons. now rewrite E.
  - intros H. destruct (IH H) as [? Hc]. split; [assumption |].
    rewrite (contains_cons m c s), Hc. apply orb_true_r.
Qed.

Lemma firstn_exact {X} n (y t : list X) : length y = n -> firstn n (y ++ t) = y.
Proof.
  intros <-. now rewrite firstn_app, Nat.sub_diag, firstn_all, app_nil_r.
Qed.

Lemma skipn_exact {X} n (y t : list X) : length y = n -> skipn n (y ++ t) = t.
Proof. intros <-. now rewrite skipn_app, Nat.sub_diag, skipn_all. Qed.

Lemma cve_match_complete y ds t :
  length y = 4 -> forallb re_digit y = true ->
  4 <= length ds -> forallb re_digit ds = true ->
  cve_match re_digit (lit "CVE-" ++ y ++ lit "-" ++ ds ++ t) =
  Some (lit "CVE-" ++ y ++ lit "-" ++ ds ++ take_while re_digit t).
Proof.
  intros Hy Dy Hd Dd. unfold cve_match. rewrite starts_with_self. cbv zeta.
  change (skipn 4 (lit "CVE-" ++ ?x)) with x.
  rewrite (firstn_exact _ _ Hy), (skipn_exact _ _ Hy), Hy, Dy.
  change (lit "-" ++ ?x) with (45%N :: x).
  cbn [Nat.eqb N.eqb Pos.eqb andb].
  rewrite take_while_app by exact Dd. rewrite length_app.
  destruct (Nat.leb_spec 4 (length ds + length (take_while re_digit t)));
    [reflexivity | lia].
Qed.

Lemma cve_search_complete a y ds t :
  length y = 4 -> forallb re_digit y = true ->
  4 <= length ds -> forallb re_digit ds = true ->
  exists m, cve_search re_digit (a ++ lit "CVE-" ++ y ++ lit "-" ++ ds ++ t)
            = Some m.
Proof.
  intros Hy Dy Hd Dd. induction a as [|c a [m IH]]; rewrite cve_search_unfold.
  - change ([] ++ ?x) with x. rewrite cve_match_complete by assumption. eauto.
  - destruct (cve_match re_digit _); [eauto |].
    change ((c :: a) ++ ?x) with (c :: a ++ x). cbv iota. eauto.
Qed.

(** X1.  A CVE id attached to a feed item is a text [CVE-dddd-dddd...] that
    occurs in the item's title and link joined by a space, and only items
    of a vulnerability feed carry one; a title or link that holds such a
    text always yields an id. *)
Theorem feed_cve_id_is_found_in_title_or_link entry source_name is_cve item :
  _parse_feed_entry re_digit entry source_name is_cve = Some item ->
  (forall m, cve_id item = Some m ->
     is_cve = true /\ cve_shaped re_digit m /\
     contains m (title item ++ lit " " ++ link item) = true) /\
  (is_cve = true ->
   (exists a m t, title item ++ lit " " ++ link item = a ++ m ++ t /\
                  cve_shaped re_digit m) ->
   exists m, cve_id item = Some m).
Proof.
  unfold _parse_feed_entry. intros [= <-]. simpl. split.
  - intros m H. destruct is_cve; [|discriminate].
    split; [reflexivity |]. now apply cve_search_sound.
  - intros -> (a & m & t & E & y & ds & -> & Hy & Dy & Hd & Dd).
    rewrite E. rewrite <- !app_assoc.
    now apply cve_search_complete.
Qed.

End NormalizerFacts.

(** ** Items of the Fetcher and of the Enricher *)

Section SourceFacts.

Import news_fetcher.

Variable re_digit : N -> bool.
Variable fromisoformat : pystr -> option datetime.

Abbreviation key := (get_sort_key fromisoformat).

(** Every item the Fetcher hands over carries the source name it was
    called with and the kind of its feed, and has no severity score; an item
    of a news feed has no CVE id; there are at most [max_items] of them for
    [max_items >= 0]. *)
Theorem feed_items_carry_source_and_kind w feed_url source_name is_cve
  max_items :
  let items :=
    _fetch_rss_feed re_digit w feed_url source_name is_cve max_items in
  Forall (fun item =>
            source item = source_name /\
            type item = (if is_cve then CVE else News) /\
            cvss_score item = None /\
            (is_cve = false -> cve_id item = None)) items /\
  ((0 <= max_items)%Z -> (Z.of_nat (length items) <= max_items)%Z).
Proof.
  split; [|apply fetch_rss_feed_length].
  apply Forall_forall. intros item. unfold _fetch_rss_feed.
  destruct (feedparser_parse w feed_url) as [msg | entries]; [intros [] |].
  intros [entry [_ H]]%in_filter_map. unfold _parse_feed_entry in H.
  injection H as <-. simpl. repeat split. now intros ->.
Qed.

Lemma english_value_none l d :
  Forall (fun x => lang x <> Some (lit "en")) l -> english_value l d = d.
Proof.
  induction l as [|x l IH]; [reflexivity |]. intros F.
  inversion F as [|? ? Hx Fl]; subst. simpl.
  destruct (lang x) as [c|]; [|now apply IH]. unfold str_eqb.
  destruct (list_eq_dec N.eq_dec c (lit "en")) as [-> | _]; [congruence |].
  now apply IH.
Qed.

Lemma english_value_first pre x post d :
  Forall (fun y => lang y <> Some (lit "en")) pre ->
  lang x = Some (lit "en") ->
  english_value (pre ++ x :: post) d = get_default (value x) d.
Proof.
  intros F Hx. induction pre as [|y pre IH]; simpl.
  - now rewrite Hx.
  - inversion F as [|? ? Hy Fp]; subst. destruct (lang y) as [c|]; [|now apply IH].
    unfold str_eqb.
    destruct (list_eq_dec N.eq_dec c (lit "en")) as [-> | _]; [congruence |].
    now apply IH.
Qed.

Lemma str_eqb_eq s t : str_eqb s t = true <-> s = t.
Proof. unfold str_eqb. destruct (list_eq_dec N.eq_dec s t); split; congruence. Qed.

(** X2.  The description of a record is the value of its first English
    description, whatever precedes it, unless that value is missing or is
    the placeholder text; with no English description it is the value of the
    first description; with no description at all, or none of these values,
    it is the placeholder. *)
Theorem description_prefers_english :
  (forall pre x post v,
     Forall (fun y => lang y <> Some (lit "en")) pre ->
     lang x = Some (lit "en") -> value x = Some v -> v <> NO_DESCRIPTION ->
     describe (Some (pre ++ x :: post)) = v) /\
  (forall d0 l,
     Forall (fun y => lang y <> Some (lit "en")) (d0 :: l) ->
     describe (Some (d0 :: l)) = get_default (value d0) NO_DESCRIPTION) /\
  (forall pre x post,
     Forall (fun y => lang y <> Some (lit "en")) pre ->
     lang x = Some (lit "en") ->
     value x = None \/ value x = Some NO_DESCRIPTION ->
     describe (Some (pre ++ x :: post)) =
     get_default (value (hd x pre)) NO_DESCRIPTION) /\
  describe None = NO_DESCRIPTION /\ describe (Some []) = NO_DESCRIPTION.
Proof.
  repeat split.
  - intros pre x post v F Hx Hv Hne.
    assert (E : english_value (pre ++ x :: post) NO_DESCRIPTION = v).
    { rewrite english_value_first by assumption. now rewrite Hv. }
    unfold describe. destruct (pre ++ x :: post) as [|d0 l] eqn:El.
    { now destruct pre. }
    rewrite E. destruct (str_eqb v NO_DESCRIPTION) eqn:Ev; [|reflexivity].
    now apply str_eqb_eq in Ev.
  - intros d0 l F. unfold describe. rewrite english_value_none by exact F.
    assert (E : str_eqb NO_DESCRIPTION NO_DESCRIPTION = true)
      by now apply str_eqb_eq.
    now rewrite E.
  - intros pre x post F Hx Hv.
    assert (E : english_value (pre ++ x :: post) NO_DESCRIPTION = NO_DESCRIPTION).
    { rewrite english_value_first by assumption.
      now destruct Hv as [-> | ->]. }
    unfold describe. destruct (pre ++ x :: post) as [|d0 l] eqn:El.
    { now destruct pre. }
    rewrite E.
    assert (E' : str_eqb NO_DESCRIPTION NO_DESCRIPTION = true)
      by now apply str_eqb_eq.
    rewrite E'. destruct pre as [|p pre]; simpl in *; now injection El as <- _.
Qed.

(** X3.  Every item of the Enricher is a CVE of source [NIST NVD] with an id
    and a date field (possibly empty, never absent); its link is the NVD
    detail address of the id and its title is the id, a colon and the first
    100 characters of its summary. *)
Theorem enricher_item_shape w limit item :
  In item (_fetch_nvd_cve_recent w limit) ->
  type item = CVE /\ source item = NIST_NVD /\
  date item <> None /\
  exists i,
    cve_id item = Some i /\
    link item = lit "https://nvd.nist.gov/vuln/detail/" ++ i /\
    title item = i ++ lit ": " ++ firstn 100 (summary item).
Proof.
  intros [vuln ->]%fetch_nvd_item. unfold nvd_item.
  cbn [type source date cve_id link title summary].
  repeat split; [discriminate |].
  eexists. repeat split.
  change (slice_to 100 ?d) with (firstn 100 d).
  change (slice_to 500 ?d) with (firstn 500 d).
  now rewrite firstn_firstn.
Qed.

(** X5.  Without vulnerabilities requested, every returned item is a news
    item without CVE id or score, and the answer does not depend on what
    the NVD API would say. *)
Theorem news_only_has_no_cve w limit :
  (forall out,
     get_latest_news re_digit fromisoformat w limit false = Ok out ->
     Forall (fun item => type item = News /\ cve_id item = None /\
                         cvss_score item = None) out) /\
  (forall api,
     get_latest_news re_digit fromisoformat
       {| feedparser_parse := feedparser_parse w; requests_get := api;
          as_completed := as_completed w |} limit false =
     get_latest_news re_digit fromisoformat w limit false).
Proof.
  split; [|reflexivity].
  intros out H. apply Forall_forall. intros item Hi.
  unfold get_latest_news in H.
  destruct (sort_reverse key (collect_news re_digit w false)) as [s|] eqn:E;
    [|discriminate].
  simpl in H. injection H as <-. apply in_slice_to in Hi.
  eapply sort_reverse_in in Hi; [|exact E].
  unfold collect_news in Hi. apply in_flat_map in Hi as [f [_ Hi]].
  pose proof (feed_items_carry_source_and_kind w (fst f) (snd f) false 2)
    as [F _].
  rewrite Forall_forall in F. destruct (F item Hi) as (_ & T & S & C).
  auto.
Qed.

(** Keys are comparable or two of them are of different kinds. *)
Lemma comparable_dec keys :
  comparable keys \/
  exists a b, In a keys /\ In b keys /\ aware a <> aware b.
Proof.
  destruct (comparableb keys) eqn:E; [left; now apply comparableb_sound |].
  right. destruct keys as [|k rest]; [discriminate |]. simpl in E.
  assert (H : existsb (fun a => negb (Bool.eqb (aware a) (aware k))) rest = true).
  { clear -E. induction rest as [|a rest IH]; [discriminate |]. simpl in *.
    destruct (Bool.eqb (aware a) (aware k)); simpl in *; auto. }
  apply existsb_exists in H as [a [Ha Hn]].
  exists a, k. repeat split; [now right | now left |].
  intros Heq. rewrite Heq, eqb_reflx in Hn. discriminate.
Qed.

(** X6.  A call raises exactly when two collected items have keys of
    different kinds, a naive and an aware one; otherwise it returns a
    list. *)
Theorem raises_exactly_on_keys_of_both_kinds w limit include_cves :
  let items := collect_news re_digit w include_cves in
  let cves := collect_cves re_digit w limit in
  (get_latest_news re_digit fromisoformat w limit include_cves
     = Raise TypeError <->
   exists a b, In a items /\ In b items /\ aware (key a) <> aware (key b)) /\
  (get_cves_only re_digit fromisoformat w limit = Raise TypeError <->
   exists a b, In a cves /\ In b cves /\ aware (key a) <> aware (key b)).
Proof.
  assert (G : forall items,
            (s <- sort_reverse key items ;; Ok (slice_to limit s))
              = Raise TypeError <->
            exists a b, In a items /\ In b items /\
                        aware (key a) <> aware (key b)).
  { intros items. split.
    - intros H. destruct (comparable_dec (map key items)) as [C | (ka & kb & Ha & Hb & N)].
      + destruct (sort_slice_total fromisoformat items limit C) as [out E].
        congruence.
      + apply in_map_iff in Ha as [a [<- Ha]].
        apply in_map_iff in Hb as [b [<- Hb]]. eauto.
    - intros (a & b & Ha & Hb & N).
      now apply keys_of_both_kinds_raise with (a := a) (b := b). }
  split; apply G.
Qed.

Lemma slice_to_all {X} n (l : list X) :
  (Z.of_nat (length l) <= n)%Z -> slice_to n l = l.
Proof.
  intros H. unfold slice_to.
  destruct (Z.leb_spec 0 n); [|lia]. apply firstn_all2. lia.
Qed.

(** X7.  A returned list holds collected items only, exactly
    [min(limit, n)] of the [n] collected for [limit >= 0], and all of them,
    rearranged, when [limit] is at least [n]. *)
Theorem returns_the_first_places w limit include_cves out :
  let items := collect_news re_digit w include_cves in
  get_latest_news re_digit fromisoformat w limit include_cves = Ok out ->
  (forall item, In item out -> In item items) /\
  ((0 <= limit)%Z ->
   length out = Nat.min (Z.to_nat limit) (length items)) /\
  ((Z.of_nat (length items) <= limit)%Z -> Permutation items out).
Proof.
  intros items H. unfold get_latest_news in H. fold items in H.
  destruct (sort_reverse key items) as [s|] eqn:E; [|discriminate].
  simpl in H. injection H as <-.
  pose proof (sort_reverse_ranking _ _ E) as [P _ _].
  repeat split.
  - intros item Hi. apply in_slice_to in Hi. eapply sort_reverse_in; eassumption.
  - intros Hl. unfold slice_to. destruct (Z.leb_spec 0 limit); [|lia].
    rewrite length_firstn. now rewrite (Permutation_length P).
  - intros Hl. rewrite slice_to_all; [exact P |].
    now rewrite <- (Permutation_length P).
Qed.

End SourceFacts.

(** ** More on the retry policy *)

Section MoreRetryFacts.

Import news_fetcher ai_insight.

Variable lower : pystr -> pystr.
Variable JsonValue : Type.
Variable json_loads : pystr -> JsonValue + pystr.
Variable PROMPT_HEAD PROMPT_TAIL : pystr.

Abbreviation body := (attempt_body json_loads).
Abbreviation loop := (retry_loop lower json_loads).
Abbreviation analyze :=
  (analyze_news_for_ideas lower json_loads PROMPT_HEAD PROMPT_TAIL).
Abbreviation prompt_of news_items :=
  (PROMPT_HEAD ++ news_text news_items ++ PROMPT_TAIL).

Lemma loop_step_unknown env prompt max_retries k i e :
  fst (body env prompt i) = inr e -> classify lower e = Unknown ->
  loop env prompt max_retries (S k) i =
  if (Z.of_nat i <? max_retries)%Z then
    (fst (loop env prompt max_retries k (S i)),
     snd (body env prompt i) ++ Sleep 1 ::
     snd (loop env prompt max_retries k (S i)))
  else (Message (SERVICE_ERROR e), snd (body env prompt i)).
Proof.
  intros Hb Hc. simpl. destruct (body env prompt i) as [r events].
  simpl in Hb. subst r. rewrite Hc.
  destruct (Z.of_nat i <? max_retries)%Z; [|reflexivity].
  now destruct (loop env prompt max_retries k (S i)).
Qed.

Lemma loop_step_success env prompt max_retries k i v :
  fst (body env prompt i) = inl v ->
  loop env prompt max_retries (S k) i = (Ideas v, snd (body env prompt i)).
Proof.
  intros Hb. simpl. destruct (body env prompt i) as [r events].
  simpl in Hb. now subst r.
Qed.

(** A retried attempt: its events, the sleep, then the rest of the loop. *)
Lemma loop_step_retry env prompt n k i err :
  fst (body env prompt i) = inr (err i) -> retryable lower (err i) -> i < n ->
  loop env prompt (Z.of_nat n) (S k) i =
  (fst (loop env prompt (Z.of_nat n) k (S i)),
   snd (body env prompt i) ++ Sleep (backoff lower err i) ::
   snd (loop env prompt (Z.of_nat n) k (S i))).
Proof.
  intros Hb [Hc | Hc] Hi; unfold backoff; rewrite Hc.
  - rewrite loop_step_overload with (e := err i) by assumption.
    destruct (Z.ltb_spec (Z.of_nat i) (Z.of_nat n)); [reflexivity | lia].
  - rewrite loop_step_unknown with (e := err i) by assumption.
    destruct (Z.ltb_spec (Z.of_nat i) (Z.of_nat n)); [reflexivity | lia].
Qed.

(** [d] retried attempts in a row from attempt [i] on. *)
Lemma loop_retries env prompt n err d : forall k i,
  (forall j, i <= j < i + d ->
     fst (body env prompt j) = inr (err j) /\ retryable lower (err j)) ->
  i + d <= n ->
  let r := loop env prompt (Z.of_nat n) (d + S k) i in
  let r' := loop env prompt (Z.of_nat n) (S k) (i + d) in
  fst r = fst r' /\
  attempts (snd r) = d + attempts (snd r') /\
  sleeps (snd r) = map (backoff lower err) (seq i d) ++ sleeps (snd r').
Proof.
  induction d as [|d IH]; intros k i H Hn.
  - cbv zeta. rewrite Nat.add_0_r. now repeat split.
  - destruct (H i) as [Hb Hr]; [lia |].
    cbv zeta. change (S d + S k) with (S (d + S k)).
    rewrite loop_step_retry with (err := err) by (assumption || lia).
    destruct (IH k (S i)) as (F & A & Sl); [intros j Hj; apply H; lia | lia |].
    replace (i + S d) with (S i + d) by lia.
    destruct (body_events json_loads env prompt i) as [Ab Sb].
    cbn [fst snd]. repeat split.
    + exact F.
    + rewrite attempts_app, attempts_sleep, Ab, A. reflexivity.
    + rewrite sleeps_app, Sb. cbn [app sleeps seq map]. now rewrite Sl.
Qed.


(** X9.  When every attempt of a call with [n] retries fails with an error
    that is retried (of the overload class or of no class), the call makes
    [n + 1] attempts, sleeps after each but the last, [2 (j + 1)] seconds
    after an overload at attempt [j] and 1 second otherwise, and answers by
    the class of the last error: the overloaded string, or the service
    error with the first 200 characters of the error. *)
Theorem persistent_failure_exhausts_retries env news_items n err :
  configured env = true ->
  (forall j, j <= n ->
     fst (body env (prompt_of news_items) j) = inr (err j) /\
     retryable lower (err j)) ->
  let r := analyze env news_items (Z.of_nat n) in
  fst r = Message (match classify lower (err n) with
                   | Overload => OVERLOADED
                   | _ => SERVICE_ERROR (err n)
                   end) /\
  attempts (snd r) = n + 1 /\
  sleeps (snd r) = map (backoff lower err) (seq 0 n).
Proof.
  intros Hc H. cbv zeta. rewrite analyze_configured by exact Hc.
  replace (Z.to_nat (Z.of_nat n + 1)) with (n + 1) by lia.
  destruct (@loop_retries env (prompt_of news_items) n err n 0 0)
    as (F & A & Sl); [intros j Hj; apply H; lia | lia |].
  cbv zeta in F, A, Sl. rewrite F, A, Sl. cbn [Nat.add].
  destruct (H n) as [Hb Hr]; [lia |].
  destruct (body_events json_loads env (prompt_of news_items) n) as [Ab Sb].
  assert (L : loop env (prompt_of news_items) (Z.of_nat n) 1 n =
              (Message (match classify lower (err n) with
                        | Overload => OVERLOADED
                        | _ => SERVICE_ERROR (err n)
                        end), snd (body env (prompt_of news_items) n))).
  { destruct Hr as [Hr | Hr]; rewrite Hr.
    - rewrite loop_step_overload with (e := err n) by assumption.
      now rewrite Z.ltb_irrefl.
    - rewrite loop_step_unknown with (e := err n) by assumption.
      now rewrite Z.ltb_irrefl. }
  rewrite L. cbn [fst snd]. rewrite Ab, Sb, app_nil_r.
  repeat split.
Qed.

(** X10.  When the attempts before attempt [m] fail with errors that are
    retried and attempt [m], within the bound, decodes to [v], the call
    returns [v] after [m + 1] attempts and the [m] sleeps of the failed
    ones, and does nothing after that attempt. *)
Theorem returns_ideas_once_an_attempt_succeeds env news_items n m v err :
  configured env = true -> m <= n ->
  (forall j, j < m ->
     fst (body env (prompt_of news_items) j) = inr (err j) /\
     retryable lower (err j)) ->
  fst (body env (prompt_of news_items) m) = inl v ->
  let r := analyze env news_items (Z.of_nat n) in
  fst r = Ideas v /\
  attempts (snd r) = m + 1 /\
  sleeps (snd r) = map (backoff lower err) (seq 0 m).
Proof.
  intros Hc Hm H Hv. cbv zeta. rewrite analyze_configured by exact Hc.
  replace (Z.to_nat (Z.of_nat n + 1)) with (m + S (n - m)) by lia.
  destruct (@loop_retries env (prompt_of news_items) n err m (n - m) 0)
    as (F & A & Sl); [intros j Hj; apply H; lia | lia |].
  cbv zeta in F, A, Sl. rewrite F, A, Sl. cbn [Nat.add].
  rewrite loop_step_success with (v := v) by assumption.
  destruct (body_events json_loads env (prompt_of news_items) m) as [Ab Sb].
  cbn [fst snd]. rewrite Ab, Sb, app_nil_r. repeat split.
Qed.

Lemma starts_with_in p s c : starts_with p s = true -> In c p -> In c s.
Proof.
  intros H. apply starts_with_split in H. rewrite H. intros Hc.
  apply in_or_app. now left.
Qed.

Lemma contains_in p s c : contains p s = true -> In c p -> In c s.
Proof.
  induction s as [|a s IH]; intros H Hc.
  - simpl in H. rewrite orb_false_r in H. eapply starts_with_in; eassumption.
  - rewrite contains_cons in H. apply orb_true_iff in H as [H | H].
    + eapply starts_with_in; eassumption.
    + right. now apply IH.
Qed.

(** X11.  The test for [API key] looks for capital letters in a lowered
    text and so never holds: an error is of the authentication class only
    when its text holds [401] or [403] (and no overload signal).  An error
    that names the API key without such a code is not an authentication
    failure. *)
Theorem api_key_signal_never_fires e :
  no_capitals lower ->
  is_auth lower e = contains (lit "401") e || contains (lit "403") e /\
  (classify lower e = AuthFailure <->
   is_overload lower e = false /\
   (contains (lit "401") e = true \/ contains (lit "403") e = true)).
Proof.
  intros L.
  assert (K : contains (lit "API key") (lower e) = false).
  { destruct (contains (lit "API key") (lower e)) eqn:E; [|reflexivity].
    assert (Hin : In 65%N (lower e)).
    { eapply contains_in; [exact E | now left]. }
    apply L in Hin. lia. }
  assert (A : is_auth lower e =
              contains (lit "401") e || contains (lit "403") e).
  { unfold is_auth. now rewrite K, orb_false_r. }
  split; [exact A |]. unfold classify. rewrite A.
  destruct (is_overload lower e); [split; [discriminate | intros [? _]; discriminate] |].
  destruct (contains (lit "401") e), (contains (lit "403") e); simpl;
    try (split; [auto | reflexivity]);
    destruct (is_rate_limit lower e);
    (split; [discriminate | intros [_ [? | ?]]; discriminate]).
Qed.

(** The strings a call can answer with. *)
Lemma loop_messages env prompt max_retries k i s :
  fst (loop env prompt max_retries k i) = Message s ->
  s = OVERLOADED \/ s = RATE_LIMITED \/ s = AUTH_FAILED \/ s = GAVE_UP \/
  exists e, s = SERVICE_ERROR e.
Proof.
  revert i. induction k as [|k IH]; intros i; simpl.
  - intros [= <-]. auto.
  - destruct (body env prompt i) as [[v | e] events]; [discriminate |].
    specialize (IH (S i)).
    destruct (loop env prompt max_retries k (S i)) as [o t]. simpl in IH.
    destruct (classify lower e); simpl;
      try destruct (Z.of_nat i <? max_retries)%Z; simpl;
      try (intros [= <-]; eauto 6); try exact IH.
Qed.

Lemma contains_skip_prefix p0 p a s :
  ~ In p0 a -> contains (p0 :: p) (a ++ s) = contains (p0 :: p) s.
Proof.
  intros H. induction a as [|c a IH]; [reflexivity |].
  simpl app. rewrite contains_cons. rewrite IH by (intros ?; apply H; now right).
  simpl starts_with. destruct (N.eqb_spec p0 c) as [-> | _]; [|reflexivity].
  exfalso. apply H. now left.
Qed.

(** Ideas are what [json.loads] made of some text. *)
Lemma loop_ideas env prompt max_retries k i v :
  fst (loop env prompt max_retries k i) = Ideas v ->
  exists text, json_loads text = inl v.
Proof.
  revert i. induction k as [|k IH]; intros i; simpl; [discriminate |].
  unfold attempt_body.
  destruct (Client env i) as [e0 |].
  - specialize (IH (S i)).
    destruct (loop env prompt max_retries k (S i)) as [o t]. simpl in IH.
    destruct (classify lower e0); simpl;
      try destruct (Z.of_nat i <? max_retries)%Z; simpl;
      try discriminate; exact IH.
  - assert (R : forall e events,
              fst (let continue (seconds : Z) :=
                     let (o, t) := loop env prompt max_retries k (S i) in
                     (o, events ++ Sleep seconds :: t) in
                   match classify lower e with
                   | Overload =>
                       if (Z.of_nat i <? max_retries)%Z
                       then continue ((Z.of_nat i + 1) * 2)%Z
                       else (Message OVERLOADED, events)
                   | AuthFailure => (Message AUTH_FAILED, events)
                   | RateLimit => (Message RATE_LIMITED, events)
                   | Unknown =>
                       if (Z.of_nat i <? max_retries)%Z
                       then continue 1%Z
                       else (Message (SERVICE_ERROR e), events)
                   end) = Ideas v ->
              exists text, json_loads text = inl v).
    { intros e events. specialize (IH (S i)).
      destruct (loop env prompt max_retries k (S i)) as [o t]. simpl in IH.
      destruct (classify lower e); simpl;
        try destruct (Z.of_nat i <? max_retries)%Z; simpl;
        try discriminate; exact IH. }
    destruct (generate_content env i prompt) as [e | [text |]].
    + apply R.
    + destruct (json_loads text) as [v0 | e0] eqn:E0.
      * simpl. intros [= <-]. eauto.
      * destruct (json_loads (strip _)) as [v1 | e1] eqn:E1.
        -- simpl. intros [= <-]. eauto.
        -- apply R.
    + apply R.
Qed.

Section Colours.

Variable COLOR_WARNING COLOR_ERROR : Z.

(** The text of a decoded value that is a JSON string. *)
Variable as_str : JsonValue -> option pystr.

Abbreviation colour := (utils.get_error_color COLOR_WARNING COLOR_ERROR).

Lemma colour_of_any s :
  colour s = if contains WARNING_SIGN s then COLOR_WARNING else COLOR_ERROR.
Proof.
  unfold utils.get_error_color. destruct (contains WARNING_SIGN s);
    [reflexivity |]. destruct (contains CROSS_MARK s); reflexivity.
Qed.

(** X12.  A string a call returns is one of five fixed strings, a service
    error, or a reply that decoded to a JSON string.  The overloaded and
    the rate-limit string are shown in the warning colour, the three other
    fixed strings in the error colour, a service error in the error colour
    unless the first 200 characters of its error text hold a warning sign,
    and a decoded string, like any string, in the warning colour when it
    holds a warning sign and in the error colour otherwise. *)
Theorem answer_colours env news_items max_retries s :
  returned_str as_str (fst (analyze env news_items max_retries)) = Some s ->
  (s = OVERLOADED /\ colour s = COLOR_WARNING) \/
  (s = RATE_LIMITED /\ colour s = COLOR_WARNING) \/
  (s = NOT_CONFIGURED /\ colour s = COLOR_ERROR) \/
  (s = AUTH_FAILED /\ colour s = COLOR_ERROR) \/
  (s = GAVE_UP /\ colour s = COLOR_ERROR) \/
  (exists e, s = SERVICE_ERROR e /\
             colour s = if contains WARNING_SIGN (slice_to 200 e)
                        then COLOR_WARNING else COLOR_ERROR) \/
  (exists v text,
     fst (analyze env news_items max_retries) = Ideas v /\
     json_loads text = inl v /\ as_str v = Some s /\
     colour s = if contains WARNING_SIGN s
                then COLOR_WARNING else COLOR_ERROR).
Proof.
  destruct (fst (analyze env news_items max_retries)) as [v | m] eqn:O;
    cbn [returned_str].
  { intros A. do 6 right. revert O. unfold analyze_news_for_ideas.
    destruct (negb (configured env)); [discriminate |].
    intros O. destruct (loop_ideas _ _ _ _ _ O) as [text T].
    exists v, text. repeat split; try assumption. apply colour_of_any. }
  intros [= ->]. revert O.
  unfold analyze_news_for_ideas. destruct (negb (configured env)).
  - intros [= <-]. right. right. left. split; reflexivity.
  - intros [-> | [-> | [-> | [-> | [e ->]]]]]%loop_messages.
    + left. split; reflexivity.
    + right. left. split; reflexivity.
    + do 3 right. left. split; reflexivity.
    + do 4 right. left. split; reflexivity.
    + do 5 right. left. exists e. split; [reflexivity |].
      unfold utils.get_error_color, SERVICE_ERROR.
      rewrite app_assoc. change WARNING_SIGN with (9888%N :: [65039%N]).
      rewrite contains_skip_prefix.
      * destruct (contains _ (slice_to 200 e)); [reflexivity |].
        now destruct (contains CROSS_MARK _).
      * cbv. intuition discriminate.
Qed.

End Colours.

End MoreRetryFacts.

(** ** Display helpers and command arguments *)

Section DisplayFacts.

Import news_fetcher utils cogs.

Variable re_digit : N -> bool.
Variable fromisoformat : pystr -> option datetime.

Lemma slice_to_length_exact {X} n (l : list X) :
  (0 <= n <= Z.of_nat (length l))%Z ->
  Z.of_nat (length (slice_to n l)) = n.
Proof.
  intros H. unfold slice_to. destruct (Z.leb_spec 0 n); [|lia].
  rewrite length_firstn. lia.
Qed.

Lemma truncate_text_short text max_length suffix :
  (Z.of_nat (length text) <= max_length)%Z ->
  truncate_text text max_length suffix = text.
Proof.
  intros H. unfold truncate_text.
  now destruct (Z.leb_spec (Z.of_nat (length text)) max_length); [|lia].
Qed.

(** X13.  With a limit no shorter than the suffix, the text
    [truncate_text] returns is at most [max_length] long; a longer text is
    cut to its first [max_length - len(suffix)] characters followed by the
    suffix, [max_length] characters in all, and truncating again changes
    nothing. *)
Theorem truncate_text_fits text max_length suffix :
  (Z.of_nat (length suffix) <= max_length)%Z ->
  let out := truncate_text text max_length suffix in
  (Z.of_nat (length out) <= max_length)%Z /\
  ((max_length < Z.of_nat (length text))%Z ->
   out = firstn (Z.to_nat max_length - length suffix) text ++ suffix /\
   Z.of_nat (length out) = max_length) /\
  truncate_text out max_length suffix = out.
Proof.
  intros Hs out.
  assert (L : (max_length < Z.of_nat (length text))%Z ->
              out = firstn (Z.to_nat max_length - length suffix) text ++ suffix
              /\ Z.of_nat (length out) = max_length).
  { intros Hl. subst out. unfold truncate_text.
    destruct (Z.leb_spec (Z.of_nat (length text)) max_length); [lia |].
    unfold slice_to.
    destruct (Z.leb_spec 0 (max_length - Z.of_nat (length suffix))); [|lia].
    replace (Z.to_nat (max_length - Z.of_nat (length suffix)))
      with (Z.to_nat max_length - length suffix) by lia.
    split; [reflexivity |]. rewrite length_app, length_firstn. lia. }
  assert (B : (Z.of_nat (length out) <= max_length)%Z).
  { destruct (Z.ltb_spec max_length (Z.of_nat (length text))) as [Hl | Hl].
    - destruct (L Hl) as [_ E]. lia.
    - subst out. now rewrite truncate_text_short. }
  repeat split; try assumption; try (now apply L).
  now apply truncate_text_short.
Qed.

(** X14.  With a limit shorter than the suffix, a text longer than the
    limit comes back longer than the limit: it always ends in the whole
    suffix. *)
Theorem truncate_text_overshoots text max_length suffix :
  (max_length < Z.of_nat (length suffix))%Z ->
  (max_length < Z.of_nat (length text))%Z ->
  let out := truncate_text text max_length suffix in
  (max_length < Z.of_nat (length out))%Z /\
  exists kept, out = kept ++ suffix.
Proof.
  intros Hs Hl out. subst out. unfold truncate_text.
  destruct (Z.leb_spec (Z.of_nat (length text)) max_length); [lia |].
  split; [rewrite length_app; lia | eauto].
Qed.

Variable EMBED_DESCRIPTION_MAX : Z.

(** X15.  When the description limit of an embed is at least 500, the
    summary of every item the aggregator returns is displayed in full. *)
Theorem summaries_are_displayed_in_full w limit include_cves out :
  (500 <= EMBED_DESCRIPTION_MAX)%Z ->
  get_latest_news re_digit fromisoformat w limit include_cves = Ok out \/
  get_cves_only re_digit fromisoformat w limit = Ok out ->
  Forall (fun item =>
            truncate_text (summary item) EMBED_DESCRIPTION_MAX ELLIPSIS =
            summary item) out.
Proof.
  intros Hm H. apply Forall_forall. intros item Hi.
  apply truncate_text_short.
  assert (S : length (summary item) <= 500); [|lia].
  apply (@collected_short re_digit w include_cves limit).
  unfold get_latest_news, get_cves_only in H.
  destruct H as [H | H]; [left | right];
    match type of H with
    | bind (sort_reverse ?k ?l) _ = _ =>
        destruct (sort_reverse k l) as [s|] eqn:E; [|discriminate]
    end;
    simpl in H; injection H as <-;
    apply in_slice_to in Hi; eapply sort_reverse_in; eassumption.
Qed.

Variable MIN_NEWS_LIMIT MAX_NEWS_LIMIT : Z.

Abbreviation clamp := (validate_news_limit MIN_NEWS_LIMIT MAX_NEWS_LIMIT).

(** X16.  With [MIN_NEWS_LIMIT <= MAX_NEWS_LIMIT] the validated limit lies
    between the two, is the given limit when that lies between them, and
    validating twice is validating once; [_validate_limit] is the same
    function. *)
Theorem validated_limit_in_range limit :
  (MIN_NEWS_LIMIT <= MAX_NEWS_LIMIT)%Z ->
  (MIN_NEWS_LIMIT <= clamp limit <= MAX_NEWS_LIMIT)%Z /\
  ((MIN_NEWS_LIMIT <= limit <= MAX_NEWS_LIMIT)%Z -> clamp limit = limit) /\
  clamp (clamp limit) = clamp limit /\
  _validate_limit MIN_NEWS_LIMIT MAX_NEWS_LIMIT limit = clamp limit.
Proof. unfold validate_news_limit, _validate_limit. intros H. lia. Qed.

(** X17.  With [0 <= MIN_NEWS_LIMIT <= MAX_NEWS_LIMIT], whatever limit a
    user gives, also a negative one, a list fetched with the validated
    limit has at most [MAX_NEWS_LIMIT] items. *)
Theorem commands_fetch_at_most_max w limit include_cves out :
  (0 <= MIN_NEWS_LIMIT <= MAX_NEWS_LIMIT)%Z ->
  get_latest_news re_digit fromisoformat w (clamp limit) include_cves = Ok out
  \/ get_cves_only re_digit fromisoformat w (clamp limit) = Ok out ->
  (Z.of_nat (length out) <= clamp limit <= MAX_NEWS_LIMIT)%Z.
Proof.
  intros Hm H.
  assert (C : (0 <= clamp limit <= MAX_NEWS_LIMIT)%Z).
  { unfold validate_news_limit. lia. }
  split; [|lia].
  destruct H as [H | H];
    eapply sort_slice_length; try exact H; lia.
Qed.

Lemma lstrip_length s : length (lstrip s) <= length s.
Proof.
  destruct (lstrip_suffix s) as [a E]. rewrite E at 2. rewrite length_app. lia.
Qed.

Lemma strip_length s : length (strip s) <= length s.
Proof.
  unfold strip. destruct (rstrip_prefix (lstrip s)) as [b E].
  pose proof (lstrip_length s). rewrite E in H. rewrite length_app in H. lia.
Qed.

Lemma field_lines_cons item rest max_length cur :
  field_lines (item :: rest) max_length cur =
  let n := Z.of_nat (length (BULLET ++ item ++ NEWLINE)) in
  if (max_length - 10 <? cur + n)%Z then [ELLIPSIS]
  else (BULLET ++ item ++ NEWLINE) :: field_lines rest max_length (cur + n).
Proof. reflexivity. Qed.

Lemma field_lines_length items max_length : forall current_length,
  (current_length +
   Z.of_nat (length (concat (field_lines items max_length current_length)))
   <= Z.max (max_length - 7) (current_length + 3))%Z.
Proof.
  induction items as [|item rest IH]; intros cur.
  - simpl. lia.
  - rewrite field_lines_cons. cbv zeta.
    set (n := Z.of_nat (length (BULLET ++ item ++ NEWLINE))).
    destruct (Z.ltb_spec (max_length - 10) (cur + n)) as [H | H].
    + change (length (concat [ELLIPSIS])) with 3. lia.
    + specialize (IH (cur + n)%Z).
      change (concat (?x :: ?l)) with (x ++ concat l).
      rewrite length_app. fold n. lia.
Qed.

(** X18.  For a list with at least one item and a limit of at least 3, the
    field text is at most [max_length] long (at most [max_length - 7] from a
    limit of 10 on); an empty list gives the text [None specified]. *)
Theorem list_field_fits items max_length :
  items <> [] -> (3 <= max_length)%Z ->
  (Z.of_nat (length (truncate_list_to_field items max_length))
   <= Z.max 3 (max_length - 7) <= max_length)%Z /\
  truncate_list_to_field [] max_length = NONE_SPECIFIED.
Proof.
  intros Hne Hm. split; [|reflexivity]. split; [|lia].
  destruct items as [|item rest]; [congruence |].
  unfold truncate_list_to_field.
  pose proof (strip_length (concat (field_lines (item :: rest) max_length 0))).
  pose proof (field_lines_length (item :: rest) max_length 0). lia.
Qed.

End DisplayFacts.

(** ** Who may mark an idea implemented *)

Section PermissionFacts.

Import news_fetcher utils cogs.

Variable ALLOWED_IMPLEMENT_ROLES : list pystr.
Variable int : pystr -> option Z.

Abbreviation allowed_users := (get_allowed_implement_users int).

Lemma parse_user_ids_bad fields f :
  In f fields -> strip f <> [] -> int (strip f) = None ->
  parse_user_ids int fields = None.
Proof.
  intros Hin Hne Hbad. induction fields as [|g rest IH]; [destruct Hin |].
  simpl. destruct Hin as [-> | Hin].
  - destruct (strip f); [congruence |]. simpl. now rewrite Hbad.
  - rewrite (IH Hin). destruct (truthy (strip g)); [|reflexivity].
    now destruct (int (strip g)).
Qed.

Lemma parse_user_ids_good fields :
  (forall f, In f fields -> strip f = [] \/ exists n, int (strip f) = Some n) ->
  exists users,
    parse_user_ids int fields = Some users /\
    map Some users =
    map (fun f => int (strip f)) (filter (fun f => truthy (strip f)) fields).
Proof.
  induction fields as [|g rest IH]; intros H; [now exists [] |].
  destruct IH as [users [E M]]; [intros f Hf; apply H; now right |].
  simpl. destruct (H g) as [Hg | [n Hg]]; [now left | |].
  - rewrite Hg. simpl. eauto.
  - destruct (truthy (strip g)); [|eauto].
    rewrite Hg, E. simpl. exists (n :: users). rewrite Hg.
    split; [reflexivity |]. simpl. now rewrite M.
Qed.

Lemma allowed_users_refused text f :
  In f (split COMMA text) -> strip f <> [] -> int (strip f) = None ->
  allowed_users (Some text) = [].
Proof.
  intros Hin Hne Hbad. unfold get_allowed_implement_users. simpl.
  destruct (truthy text); [|reflexivity].
  now rewrite (parse_user_ids_bad _ _ Hin Hne Hbad).
Qed.

(** X19.  The list of allowed users is all or nothing.  Read from a
    variable that is set and not empty, it holds the numbers of the comma
    separated fields, blank fields left out, in their order, when [int]
    accepts every one of them; a single field that [int] refuses empties
    the whole list, as does a variable that is unset or empty. *)
Theorem allowed_users_all_or_nothing env_users :
  allowed_users None = [] /\ allowed_users (Some []) = [] /\
  (forall f, In f (split COMMA env_users) -> strip f <> [] ->
             int (strip f) = None -> allowed_users (Some env_users) = []) /\
  (env_users <> [] ->
   (forall f, In f (split COMMA env_users) ->
              strip f = [] \/ exists n, int (strip f) = Some n) ->
   map Some (allowed_users (Some env_users)) =
   map (fun f => int (strip f))
     (filter (fun f => truthy (strip f)) (split COMMA env_users))).
Proof.
  repeat split.
  - apply allowed_users_refused.
  - intros Hne H. unfold get_allowed_implement_users. simpl.
    destruct env_users; [congruence |]. simpl truthy. cbv iota.
    destruct (parse_user_ids_good _ H) as [users [-> M]]. exact M.
Qed.

Lemma nonempty_mem n l : nonempty l && mem_id n l = mem_id n l.
Proof. now destruct l. Qed.

(** X20.  A user may mark ideas implemented exactly when listed in
    [ALLOWED_IMPLEMENT_USERS], or holding one of the
    [ALLOWED_IMPLEMENT_ROLES], or being the owner of the bot (an owner id
    that is set and not 0).  So with no user listed and no role allowed
    only the owner may, and a refused field in the variable takes the right
    from every listed user who is neither. *)
Theorem permission_to_implement env user_id user_roles bot_owner_id :
  let listed := mem_id user_id (allowed_users env) in
  let by_role :=
    existsb (fun role => mem_role role ALLOWED_IMPLEMENT_ROLES) user_roles in
  let is_owner :=
    match bot_owner_id with
    | Some owner => negb (owner =? 0)%Z && (user_id =? owner)%Z
    | None => false
    end in
  _check_implement_permission ALLOWED_IMPLEMENT_ROLES int env user_id
    user_roles bot_owner_id = listed || by_role || is_owner /\
  (allowed_users env = [] -> ALLOWED_IMPLEMENT_ROLES = [] ->
   _check_implement_permission ALLOWED_IMPLEMENT_ROLES int env user_id
     user_roles bot_owner_id = is_owner) /\
  (forall text f,
     env = Some text -> In f (split COMMA text) -> strip f <> [] ->
     int (strip f) = None ->
     _check_implement_permission ALLOWED_IMPLEMENT_ROLES int env user_id
       user_roles bot_owner_id = by_role || is_owner).
Proof.
  intros listed by_role is_owner.
  assert (E : _check_implement_permission ALLOWED_IMPLEMENT_ROLES int env
                user_id user_roles bot_owner_id
              = listed || by_role || is_owner).
  { unfold _check_implement_permission, can_mark_implemented.
    rewrite !nonempty_mem. fold listed.
    replace (match bot_owner_id with
             | Some owner =>
                 if (owner =? 0)%Z then false else (user_id =? owner)%Z
             | None => false
             end) with is_owner
      by (subst is_owner; destruct bot_owner_id as [o|]; [|reflexivity];
          now destruct (o =? 0)%Z).
    destruct listed; [reflexivity |].
    assert (R : match user_roles with
                | [] => false
                | _ :: _ =>
                    if nonempty ALLOWED_IMPLEMENT_ROLES then by_role else false
                end = by_role).
    { subst by_role. destruct user_roles as [|r rs]; [reflexivity |].
      destruct ALLOWED_IMPLEMENT_ROLES; [|reflexivity].
      simpl. clear. induction rs; simpl; auto. }
    fold by_role. rewrite R. now destruct by_role, is_owner. }
  split; [exact E |]. split.
  - intros Hu Hr. rewrite E. subst listed by_role. rewrite Hu, Hr. simpl.
    replace (existsb (fun _ => false) user_roles) with false; [reflexivity |].
    clear. induction user_roles; simpl; auto.
  - intros text f -> Hin Hne Hbad. rewrite E. subst listed.
    now rewrite (allowed_users_refused _ _ Hin Hne Hbad).
Qed.

End PermissionFacts.

(** ** The table of ideas *)

Section TableFacts.

Import database.

Variable JsonValue : Type.
Variable json_dumps : JsonValue -> pystr.
Variable json_loads : pystr -> JsonValue + pystr.
Variable EMPTY_LIST : JsonValue.
Variable order_by_created_at_desc : list Row -> list Row.

Abbreviation new_row := (database.new_row json_dumps EMPTY_LIST).
Abbreviation insert := (database.insert json_dumps EMPTY_LIST).
Abbreviation insert_all := (database.insert_all json_dumps EMPTY_LIST).
Abbreviation save_ideas := (database.save_ideas json_dumps EMPTY_LIST).
Abbreviation storable := (database.storable json_dumps EMPTY_LIST).
Abbreviation _row_to_dict := (database._row_to_dict json_loads).
Abbreviation rows_to_dicts := (database.rows_to_dicts json_loads).
Abbreviation get_idea_by_id := (database.get_idea_by_id json_loads).
Abbreviation select_all := (database.select_all order_by_created_at_desc).
Abbreviation get_all_ideas :=
  (database.get_all_ideas json_loads order_by_created_at_desc).
Abbreviation as_saved := (database.as_saved EMPTY_LIST).
Abbreviation reachable := (database.reachable json_dumps EMPTY_LIST).
Abbreviation has_id i := (fun r : Row => (id r =? i)%Z).


Lemma max_id_le rs b :
  (0 <= b)%Z -> Forall (fun r => (id r <= b)%Z) rs ->
  (or_zero (max_id rs) <= b)%Z.
Proof.
  intros Hb F. induction F as [|x rs Hx F IH]; cbn [max_id or_zero];
    [exact Hb |].
  destruct (max_id rs); cbn [or_zero] in *; lia.
Qed.

Lemma valid_max t : valid t -> (or_zero (max_id (rows t)) <= sequence t)%Z.
Proof.
  intros [C _ I _]. apply max_id_le; [lia |].
  eapply Forall_impl; [| exact I]. cbv beta. intros; lia.
Qed.


Lemma valid_next_id t : valid t -> next_id t = (sequence t + 1)%Z.
Proof. intros V. pose proof (valid_max V). unfold next_id. lia. Qed.

Lemma empty_table_valid : valid empty_table.
Proof.
  constructor; cbn [rows sequence empty_table map]; try constructor.
  - lia.
  - unfold MAX_ROWID. lia.
Qed.

Lemma sqlite_int_id i :
  (1 <= i <= MAX_ROWID)%Z -> sqlite_int i = true.
Proof.
  intros H. unfold sqlite_int. apply andb_true_intro.
  split; apply Z.leb_le; unfold MAX_ROWID in *; lia.
Qed.

(** The ids of a valid table can be bound. *)
Lemma valid_sqlite_int t r : valid t -> In r (rows t) -> sqlite_int (id r) = true.
Proof.
  intros [C _ F _] H. rewrite Forall_forall in F. specialize (F r H).
  apply sqlite_int_id. lia.
Qed.

(** Whether a row can be bound rests on the idea alone. *)
Lemma bindable_new_row i now idea : bindable (new_row i now idea) = storable idea.
Proof. reflexivity. Qed.

(** An insert that is made. *)
Lemma insert_made now idea t t' :
  insert now idea t = inl t' ->
  storable idea = true /\ (next_id t <= MAX_ROWID)%Z /\
  t' = {| rows := rows t ++ [new_row (next_id t) now idea];
          sequence := next_id t |}.
Proof.
  unfold database.insert. rewrite bindable_new_row.
  destruct (storable idea); cbn [negb]; [| discriminate].
  destruct (Z.ltb_spec MAX_ROWID (next_id t)); [discriminate |].
  intros [= <-]. repeat split. lia.
Qed.



Lemma insert_valid now idea t t' :
  valid t -> insert now idea t = inl t' -> valid t'.
Proof.
  intros V E. pose proof (valid_next_id V) as N.
  apply insert_made in E as (_ & R & ->).
  destruct V as [C U F Q].
  constructor; cbn [rows sequence]; rewrite ?N in *.
  - lia.
  - rewrite map_app. cbn [map]. apply NoDup_app.
    + exact U.
    + constructor; [intros [] | constructor].
    + intros x Hx [<- | []]. apply in_map_iff in Hx as (y & E & Hy).
      rewrite Forall_forall in F. specialize (F y Hy).
      cbn [database.new_row id] in E. lia.
  - apply Forall_app. split.
    + eapply Forall_impl; [| exact F]. cbv beta. intros; lia.
    + constructor; [cbn [database.new_row id]; lia | constructor].
  - apply Forall_app. split; [exact Q |].
    constructor; [intros _; reflexivity | constructor].
Qed.

Lemma insert_all_valid clock ideas : forall k t t',
  valid t -> insert_all clock k ideas t = inl t' -> valid t'.
Proof.
  induction ideas as [|idea rest IH]; intros k t t' V;
    cbn [database.insert_all].
  - intros [= <-]. exact V.
  - destruct (insert (clock k) idea t) as [t1 | e] eqn:E; [| discriminate].
    apply IH. eapply insert_valid; eassumption.
Qed.

Lemma save_ideas_made clock ideas t t' :
  insert_all clock 0 ideas t = inl t' ->
  save_ideas clock ideas t
  = (inl (range_from (or_zero (max_id (rows t)) + 1) (length ideas)), t').
Proof.
  intros E. destruct ideas as [|idea rest].
  - cbn [database.insert_all] in E. injection E as <-. reflexivity.
  - unfold database.save_ideas. rewrite E. reflexivity.
Qed.

Lemma save_ideas_raised clock ideas t e :
  insert_all clock 0 ideas t = inr e ->
  save_ideas clock ideas t = (inr e, t).
Proof.
  intros E. destruct ideas as [|idea rest]; [discriminate |].
  unfold database.save_ideas. rewrite E. reflexivity.
Qed.

Lemma save_valid clock ideas t :
  valid t -> valid (snd (save_ideas clock ideas t)).
Proof.
  intros V. destruct (insert_all clock 0 ideas t) as [t' | e] eqn:E.
  - rewrite save_ideas_made with (t' := t') by exact E.
    eapply insert_all_valid; eassumption.
  - rewrite save_ideas_raised with (e := e) by exact E. exact V.
Qed.

Lemma find_app_miss (A : Type) (f : A -> bool) l x :
  f x = false -> find f (l ++ [x]) = find f l.
Proof.
  intros H. induction l as [|y l IH]; cbn [app find].
  - rewrite H. reflexivity.
  - destruct (f y); [reflexivity | exact IH].
Qed.


Lemma insert_sequence now idea t t' :
  valid t -> insert now idea t = inl t' ->
  sequence t' = (sequence t + 1)%Z.
Proof.
  intros V E. apply insert_made in E as (_ & _ & ->).
  cbn [sequence]. apply valid_next_id, V.
Qed.

(** Rows already in the table are not touched by the inserts. *)
Lemma insert_all_keeps clock ideas : forall k t t' i,
  valid t -> (i <= sequence t)%Z ->
  insert_all clock k ideas t = inl t' ->
  find (has_id i) (rows t') = find (has_id i) (rows t).
Proof.
  induction ideas as [|idea rest IH]; intros k t t' i V Hi;
    cbn [database.insert_all].
  - intros [= <-]. reflexivity.
  - destruct (insert (clock k) idea t) as [t1 | e] eqn:E; [| discriminate].
    intros A. pose proof (@insert_valid _ _ _ _ V E) as V1.
    rewrite (IH (S k) t1 t' i V1); [| | exact A].
    + apply insert_made in E as (_ & _ & ->). cbn [rows].
      apply find_app_miss. cbn [database.new_row id].
      rewrite valid_next_id by exact V. apply Z.eqb_neq. lia.
    + rewrite (@insert_sequence _ _ _ _ V E). lia.
Qed.



Section Decoding.

Hypothesis loads_dumps : forall v, json_loads (json_dumps v) = inl v.



End Decoding.




Lemma lookup_same i t u :
  find (has_id i) (rows t) = find (has_id i) (rows u) ->
  get_idea_by_id i t = get_idea_by_id i u.
Proof. intros E. unfold database.get_idea_by_id. rewrite E. reflexivity. Qed.

Lemma lookup_stored i t o :
  get_idea_by_id i t = inl o -> sqlite_int i = true.
Proof.
  unfold database.get_idea_by_id. destruct (sqlite_int i);
    [reflexivity | discriminate].
Qed.

Lemma find_none_iff (A : Type) (f : A -> bool) l :
  find f l = None <-> forall x, In x l -> f x = false.
Proof.
  split.
  - intros H x Hx. exact (find_none f l H x Hx).
  - intros H. induction l as [|y l IH]; [reflexivity |]. cbn [find].
    rewrite (H y) by (left; reflexivity). apply IH.
    intros x Hx. apply H. right. exact Hx.
Qed.

Lemma lookup_absent i t :
  sqlite_int i = true ->
  (forall r, In r (rows t) -> id r <> i) ->
  get_idea_by_id i t = inl None.
Proof.
  intros B H. unfold database.get_idea_by_id. rewrite B.
  replace (find _ (rows t)) with (@None Row); [reflexivity |].
  symmetry. apply find_none_iff. intros r Hr. apply Z.eqb_neq, H, Hr.
Qed.

Lemma map_id_preserved (f : Row -> Row) rs :
  (forall r, id (f r) = id r) -> map id (map f rs) = map id rs.
Proof.
  intros H. rewrite map_map. apply map_ext. exact H.
Qed.

Lemma NoDup_map_filter (A B : Type) (f : A -> B) (p : A -> bool) l :
  NoDup (map f l) -> NoDup (map f (filter p l)).
Proof.
  induction l as [|x l IH]; cbn [map filter]; intros N; [exact N |].
  apply NoDup_cons_iff in N as [Nx N].
  destruct (p x); cbn [map]; [| exact (IH N)].
  constructor; [| exact (IH N)].
  intros Hx. apply Nx. apply in_map_iff in Hx as (y & E & Hy).
  apply filter_In in Hy as [Hy _]. apply in_map_iff. exists y. auto.
Qed.

Lemma NoDup_map_same (A B : Type) (f : A -> B) l x y :
  NoDup (map f l) -> In x l -> In y l -> f x = f y -> x = y.
Proof.
  induction l as [|z l IH]; cbn [map]; intros N Hx Hy E; [destruct Hx |].
  apply NoDup_cons_iff in N as [Nz N].
  destruct Hx as [-> | Hx], Hy as [-> | Hy].
  - reflexivity.
  - exfalso. apply Nz. rewrite E. apply in_map. exact Hy.
  - exfalso. apply Nz. rewrite <- E. apply in_map. exact Hx.
  - exact (IH N Hx Hy E).
Qed.

Lemma mark_valid now i t : valid t -> valid (snd (mark_idea_implemented now i t)).
Proof.
  intros V. unfold mark_idea_implemented.
  destruct (sqlite_int i); [| exact V]. destruct V as [C U F Q]. cbn [snd].
  constructor; cbn [rows sequence].
  - exact C.
  - rewrite map_id_preserved; [exact U |].
    intros r. destruct (_ && _); reflexivity.
  - apply Forall_map. eapply Forall_impl; [| exact F]. cbv beta.
    intros r H. destruct (_ && _); exact H.
  - apply Forall_map. eapply Forall_impl; [| exact Q]. cbv beta.
    intros r H. destruct (_ && _); [discriminate | exact H].
Qed.

Lemma unmark_valid i t : valid t -> valid (snd (mark_idea_unimplemented i t)).
Proof.
  intros V. unfold mark_idea_unimplemented.
  destruct (sqlite_int i); [| exact V]. destruct V as [C U F Q]. cbn [snd].
  constructor; cbn [rows sequence].
  - exact C.
  - rewrite map_id_preserved; [exact U |].
    intros r. destruct (_ && _); reflexivity.
  - apply Forall_map. eapply Forall_impl; [| exact F]. cbv beta.
    intros r H. destruct (_ && _); exact H.
  - apply Forall_map. eapply Forall_impl; [| exact Q]. cbv beta.
    intros r H. destruct (_ && _); [reflexivity | exact H].
Qed.

Lemma Forall_filter (A : Type) (P : A -> Prop) (p : A -> bool) l :
  Forall P l -> Forall P (filter p l).
Proof.
  rewrite !Forall_forall. intros H x Hx. apply filter_In in Hx as [Hx _].
  exact (H x Hx).
Qed.

Lemma delete_valid i t : valid t -> valid (snd (delete_idea i t)).
Proof.
  intros V. unfold delete_idea.
  destruct (sqlite_int i); [| exact V]. destruct V as [C U F Q]. cbn [snd].
  constructor; cbn [rows sequence].
  - exact C.
  - apply NoDup_map_filter, U.
  - apply Forall_filter, F.
  - apply Forall_filter, Q.
Qed.

Lemma insert_all_decodable clock ideas : forall k t t',
  decodable json_dumps t -> insert_all clock k ideas t = inl t' ->
  decodable json_dumps t'.
Proof.
  induction ideas as [|idea rest IH]; intros k t t' D;
    cbn [database.insert_all].
  - intros [= <-]. exact D.
  - destruct (insert (clock k) idea t) as [t1 | e] eqn:E; [| discriminate].
    apply IH. apply insert_made in E as (_ & _ & ->).
    unfold decodable in *. cbn [rows].
    apply Forall_app. split; [exact D |].
    constructor; [| constructor]. cbn [database.new_row requirements functionalities].
    eauto.
Qed.

Lemma save_decodable clock ideas t :
  decodable json_dumps t ->
  decodable json_dumps (snd (save_ideas clock ideas t)).
Proof.
  intros D. destruct (insert_all clock 0 ideas t) as [t' | e] eqn:E.
  - rewrite save_ideas_made with (t' := t') by exact E.
    eapply insert_all_decodable; eassumption.
  - rewrite save_ideas_raised with (e := e) by exact E. exact D.
Qed.

(** X21.  Every table the module can produce from the one [init_database]
    creates is valid: the counter is 0 or a possible id, the ids are
    unique, positive and at most the counter, a row that is not implemented
    has no implementation time; and the two JSON columns of every row hold
    texts written by [json.dumps]. *)
Theorem reachable_tables_are_valid t :
  reachable t -> valid t /\ decodable json_dumps t.
Proof.
  induction 1 as [| clock ideas t R [V D] | now i t R [V D] | i t R [V D]
                  | i t R [V D]].
  - split; [exact empty_table_valid | constructor].
  - split; [apply save_valid, V | apply save_decodable, D].
  - split; [apply mark_valid, V |].
    unfold decodable, mark_idea_implemented in *.
    destruct (sqlite_int i); [| exact D]. cbn [snd rows].
    apply Forall_map. eapply Forall_impl; [| exact D]. cbv beta.
    intros r H. destruct (_ && _); exact H.
  - split; [apply unmark_valid, V |].
    unfold decodable, mark_idea_unimplemented in *.
    destruct (sqlite_int i); [| exact D]. cbn [snd rows].
    apply Forall_map. eapply Forall_impl; [| exact D]. cbv beta.
    intros r H. destruct (_ && _); exact H.
  - split; [apply delete_valid, V |].
    unfold decodable, delete_idea in *.
    destruct (sqlite_int i); [| exact D]. cbn [snd rows].
    apply Forall_filter, D.
Qed.




Lemma find_map_preserve (f : Row -> Row) i rs :
  (forall r, id (f r) = id r) ->
  find (has_id i) (map f rs) = option_map f (find (has_id i) rs).
Proof.
  intros H. induction rs as [|r rs IH]; [reflexivity |].
  cbn [map find]. rewrite H. destruct (id r =? i)%Z; [reflexivity | exact IH].
Qed.

(** X24.  For an id that can be bound, [mark_idea_implemented] answers
    [True] exactly when a row with this id exists that is not implemented
    yet, and [False] otherwise, so it answers [False] for an idea that is
    found but already implemented; a second call always answers [False]
    and changes nothing.  For an id outside the 64-bit range it raises
    [OverflowError] and changes nothing. *)
Theorem mark_implemented_answers_once now i t :
  (sqlite_int i = true ->
   (fst (mark_idea_implemented now i t) = inl true <->
    exists r, In r (rows t) /\ id r = i /\ implemented r = false) /\
   (fst (mark_idea_implemented now i t) = inl true \/
    fst (mark_idea_implemented now i t) = inl false) /\
   (forall now',
      mark_idea_implemented now' i (snd (mark_idea_implemented now i t))
      = (inl false, snd (mark_idea_implemented now i t)))) /\
  (sqlite_int i = false ->
   mark_idea_implemented now i t = (inr OverflowError, t)).
Proof.
  unfold mark_idea_implemented. split; intros B; rewrite B;
    [| reflexivity].
  cbn [fst snd]. split; [| split].
  - split.
    + intros [= E]. apply existsb_exists in E as (r & Hr & H). exists r.
      apply andb_prop in H as [E N]. apply Z.eqb_eq in E.
      apply negb_true_iff in N. auto.
    + intros (r & Hr & E & N). f_equal. apply existsb_exists. exists r.
      split; [exact Hr |].
      rewrite N. cbn [negb]. rewrite andb_true_r. apply Z.eqb_eq, E.
  - destruct (existsb _ _); auto.
  - intros now'. cbn [rows sequence].
    assert (Q : forall r, In r (map (fun r => if (id r =? i)%Z && negb (implemented r) then set_implemented true (Some now) r else r) (rows t)) ->
                (id r =? i)%Z && negb (implemented r) = false).
    { intros r Hr. apply in_map_iff in Hr as (x & <- & _).
      destruct ((id x =? i)%Z && negb (implemented x)) eqn:E.
      - cbn [set_implemented implemented negb]. apply andb_false_r.
      - exact E. }
    f_equal.
    + f_equal. destruct (existsb _ _) eqn:E; [| reflexivity].
      apply existsb_exists in E as (r & Hr & H).
      rewrite (Q r Hr) in H. discriminate.
    + f_equal. rewrite <- (map_id (map _ (rows t))) at 2.
      apply map_ext_in. intros r Hr. rewrite (Q r Hr). reflexivity.
Qed.

Lemma row_to_dict_fields r d :
  _row_to_dict r = inl d ->
  dict_id d = id r /\ dict_implemented d = implemented r /\
  forall flag at_,
    _row_to_dict (set_implemented flag at_ r)
    = inl (database.with_implemented flag at_ d).
Proof.
  unfold database._row_to_dict. cbn [set_implemented requirements functionalities].
  destruct (json_loads (requirements r)); [| discriminate].
  destruct (json_loads (functionalities r)); [| discriminate].
  intros [= <-]. repeat split.
Qed.

(** X25.  What marking does to what is read: an idea that reads as not
    implemented reads, after [mark_idea_implemented], the same but
    implemented at the time of the call; every other id reads as before. *)
Theorem marked_idea_reads_implemented now i t d :
  get_idea_by_id i t = inl (Some d) -> dict_implemented d = false ->
  get_idea_by_id i (snd (mark_idea_implemented now i t))
  = inl (Some (database.with_implemented true (Some now) d)) /\
  forall j, j <> i ->
    get_idea_by_id j (snd (mark_idea_implemented now i t))
    = get_idea_by_id j t.
Proof.
  intros G N. pose proof (lookup_stored _ _ G) as B.
  unfold database.get_idea_by_id in *.
  unfold mark_idea_implemented. rewrite B in *. cbn [snd rows].
  split.
  - rewrite find_map_preserve by (intros r; destruct (_ && _); reflexivity).
    destruct (find (has_id i) (rows t)) as [r|] eqn:F; [| discriminate].
    cbn [option_map]. apply find_some in F as [_ E]. cbv beta in E.
    destruct (_row_to_dict r) as [d'|] eqn:D; [| discriminate].
    injection G as ->.
    destruct (row_to_dict_fields _ D) as (_ & I & S).
    rewrite E, <- I, N. cbn [negb andb]. rewrite S. reflexivity.
  - intros j Hj. destruct (sqlite_int j); [| reflexivity].
    rewrite find_map_preserve by (intros r; destruct (_ && _); reflexivity).
    destruct (find (has_id j) (rows t)) as [r|] eqn:F; [| reflexivity].
    cbn [option_map]. apply find_some in F as [_ E]. cbv beta in E.
    apply Z.eqb_eq in E.
    replace (id r =? i)%Z with false by (symmetry; apply Z.eqb_neq; lia).
    reflexivity.
Qed.

Lemma set_implemented_back now r :
  implemented r = false -> implemented_at r = None ->
  set_implemented false None (set_implemented true (Some now) r) = r.
Proof.
  destruct r. cbn. intros -> ->. reflexivity.
Qed.

(** X26.  On a valid table, [mark_idea_unimplemented] undoes a
    [mark_idea_implemented] that answered [True]: it answers [True] and
    the table is the one before the two calls. *)
Theorem unmark_undoes_mark now i t :
  valid t -> fst (mark_idea_implemented now i t) = inl true ->
  mark_idea_unimplemented i (snd (mark_idea_implemented now i t))
  = (inl true, t).
Proof.
  intros [C U F Q] M. unfold mark_idea_implemented in *.
  unfold mark_idea_unimplemented.
  destruct (sqlite_int i); [| discriminate].
  cbn [fst snd] in *. injection M as M.
  apply existsb_exists in M as (r0 & H0 & E0).
  apply andb_prop in E0 as [I0 N0]. apply Z.eqb_eq in I0.
  apply negb_true_iff in N0.
  assert (P : forall r, In r (rows t) -> id r = i -> r = r0).
  { intros r Hr E. apply (NoDup_map_same id (rows t)); congruence. }
  cbn [rows sequence]. f_equal.
  - f_equal. apply existsb_exists.
    exists (set_implemented true (Some now) r0). split.
    + apply in_map_iff. exists r0. split; [| exact H0].
      rewrite N0. cbn [negb]. rewrite andb_true_r.
      replace (id r0 =? i)%Z with true by (symmetry; apply Z.eqb_eq, I0).
      reflexivity.
    + cbn [set_implemented id implemented]. rewrite andb_true_r.
      apply Z.eqb_eq, I0.
  - destruct t as [rs s]. cbn [rows sequence] in *. f_equal.
    rewrite map_map. rewrite <- (map_id rs) at 2.
    apply map_ext_in. intros r Hr.
    rewrite Forall_forall in Q.
    destruct (id r =? i)%Z eqn:E.
    + apply Z.eqb_eq in E. rewrite (P r Hr E) in *.
      rewrite N0. cbn [negb andb set_implemented id implemented].
      replace (id r0 =? i)%Z with true by (symmetry; apply Z.eqb_eq, I0).
      cbn [andb]. apply (set_implemented_back now r0 N0 (Q r0 H0 N0)).
    + cbn [andb]. rewrite E. reflexivity.
Qed.

Lemma find_filter (A : Type) (p q : A -> bool) l :
  (forall x, p x = true -> q x = true) ->
  find p (filter q l) = find p l.
Proof.
  intros H. induction l as [|x l IH]; [reflexivity |]. cbn [filter find].
  destruct (p x) eqn:P.
  - rewrite (H x P). cbn [find]. rewrite P. reflexivity.
  - destruct (q x); [cbn [find]; rewrite P |]; exact IH.
Qed.

Lemma delete_length i rs :
  NoDup (map id rs) ->
  Z.of_nat (length (filter (fun r => negb (id r =? i)%Z) rs))
  = (Z.of_nat (length rs)
     - if existsb (has_id i) rs then 1 else 0)%Z.
Proof.
  induction rs as [|r rs IH]; cbn [map]; intros N; [reflexivity |].
  apply NoDup_cons_iff in N as [Nr N]. specialize (IH N).
  cbn [filter existsb]. destruct (id r =? i)%Z eqn:E; cbn [negb orb].
  - apply Z.eqb_eq in E.
    replace (existsb (has_id i) rs) with false in IH.
    + cbn [length]. lia.
    + symmetry. apply not_true_is_false. intros X.
      apply existsb_exists in X as (x & Hx & Ex). apply Z.eqb_eq in Ex.
      apply Nr. rewrite E, <- Ex. apply in_map, Hx.
  - cbn [length]. lia.
Qed.

(** X27.  On a valid table and for an id that can be bound, [delete_idea]
    answers [True] exactly when the id is in the table and [False]
    otherwise; afterwards the id reads as [None], every other id reads as
    before, and the total is one less when the answer was [True] and the
    same otherwise.  For an id outside the 64-bit range [delete_idea] and
    [get_idea_by_id] raise [OverflowError] and the table stays as it
    was. *)
Theorem delete_idea_effect i t :
  valid t ->
  (sqlite_int i = true ->
   (fst (delete_idea i t) = inl true <-> In i (map id (rows t))) /\
   (fst (delete_idea i t) = inl true \/ fst (delete_idea i t) = inl false) /\
   get_idea_by_id i (snd (delete_idea i t)) = inl None /\
   (forall j, j <> i ->
      get_idea_by_id j (snd (delete_idea i t)) = get_idea_by_id j t) /\
   total (get_idea_count (snd (delete_idea i t)))
   = (total (get_idea_count t)
      - match fst (delete_idea i t) with inl true => 1 | _ => 0 end)%Z) /\
  (sqlite_int i = false ->
   delete_idea i t = (inr OverflowError, t) /\
   get_idea_by_id i t = inr OverflowError).
Proof.
  intros [C U F Q]. unfold delete_idea. split; intros B; rewrite B.
  2:{ split; [reflexivity |]. unfold database.get_idea_by_id.
      rewrite B. reflexivity. }
  cbn [fst snd]. repeat split.
  - intros [= E]. apply existsb_exists in E as (r & Hr & E).
    apply Z.eqb_eq in E. rewrite <- E. apply in_map, Hr.
  - intros H. apply in_map_iff in H as (r & E & Hr). f_equal.
    apply existsb_exists. exists r. split; [exact Hr | apply Z.eqb_eq, E].
  - destruct (existsb _ _); auto.
  - apply lookup_absent; [exact B |]. cbn [rows]. intros r Hr.
    apply filter_In in Hr as [_ Hr]. apply Z.eqb_neq, negb_true_iff, Hr.
  - intros j Hj. apply lookup_same. cbn [rows]. apply find_filter.
    intros r E. apply Z.eqb_eq in E. apply negb_true_iff, Z.eqb_neq. lia.
  - unfold get_idea_count. cbn [total rows]. rewrite (@delete_length i (rows t) U).
    destruct (existsb _ _); reflexivity.
Qed.

(** X28.  The id of a deleted idea is not given again: on a valid table,
    after [delete_idea] the id still reads as [None] whatever
    [save_ideas] stores afterwards. *)
Theorem deleted_id_is_not_reused i t clock ideas :
  valid t -> In i (map id (rows t)) ->
  get_idea_by_id i (snd (save_ideas clock ideas (snd (delete_idea i t))))
  = inl None.
Proof.
  intros V H. pose proof (delete_valid i V) as V1.
  apply in_map_iff in H as (r & <- & Hr).
  pose proof (@valid_sqlite_int t r V Hr) as B.
  assert (N : get_idea_by_id (id r) (snd (delete_idea (id r) t)) = inl None).
  { apply lookup_absent; [exact B |]. unfold delete_idea. rewrite B.
    cbn [snd rows]. intros x Hx.
    apply filter_In in Hx as [_ Hx]. apply Z.eqb_neq, negb_true_iff, Hx. }
  destruct (insert_all clock 0 ideas (snd (delete_idea (id r) t)))
    as [t' | e] eqn:A.
  - rewrite save_ideas_made with (t' := t') by exact A. cbn [snd]. rewrite <- N.
    apply lookup_same.
    apply (@insert_all_keeps clock ideas 0%nat _ t' (id r) V1); [| exact A].
    unfold delete_idea. rewrite B. cbn [snd sequence].
    destruct V as [_ _ F _]. rewrite Forall_forall in F.
    specialize (F r Hr). lia.
  - rewrite save_ideas_raised with (e := e) by exact A. exact N.
Qed.

Lemma rows_to_dicts_flags rs : forall ds,
  rows_to_dicts rs = inl ds ->
  map (@dict_implemented JsonValue) ds = map implemented rs.
Proof.
  induction rs as [|r rs IH]; intros ds; cbn [database.rows_to_dicts].
  - intros [= <-]. reflexivity.
  - destruct (_row_to_dict r) as [d|] eqn:D; [| discriminate].
    destruct (rows_to_dicts rs) as [ds'|]; [| discriminate].
    intros [= <-]. cbn [map]. rewrite (IH ds' eq_refl).
    destruct (row_to_dict_fields _ D) as (_ & -> & _). reflexivity.
Qed.

Lemma rows_to_dicts_length rs ds :
  rows_to_dicts rs = inl ds -> length ds = length rs.
Proof.
  intros H. apply rows_to_dicts_flags in H.
  rewrite <- (length_map (@dict_implemented JsonValue)), H.
  apply length_map.
Qed.

Lemma count_false_map (A : Type) (f : A -> bool) l :
  length (filter (fun x => negb (f x)) l)
  = length (filter negb (map f l)).
Proof.
  induction l as [|x l IH]; [reflexivity |]. cbn [filter map].
  destruct (f x); cbn [negb length]; rewrite IH; reflexivity.
Qed.

Lemma count_split (A : Type) (f : A -> bool) l :
  (length (filter f l) + length (filter (fun x => negb (f x)) l)
   = length l)%nat.
Proof.
  induction l as [|x l IH]; [reflexivity |]. cbn [filter].
  destruct (f x); cbn [negb length]; lia.
Qed.

Lemma filter_permutation (A : Type) (f : A -> bool) l l' :
  Permutation l l' -> Permutation (filter f l) (filter f l').
Proof.
  induction 1 as [| x l l' P IH | x y l | l l' l'' P IH P' IH'];
    cbn [filter].
  - constructor.
  - destruct (f x); [constructor |]; exact IH.
  - destruct (f x), (f y); try apply Permutation_refl.
    apply perm_swap.
  - exact (Permutation_trans IH IH').
Qed.

(** A list that is returned is the decoded selection. *)
Lemma get_all_ideas_returned limit implemented_only t ds :
  get_all_ideas limit implemented_only t = inl ds ->
  rows_to_dicts (select_all limit implemented_only t) = inl ds.
Proof.
  unfold database.get_all_ideas.
  destruct (bindable_limit limit); [| discriminate].
  destruct (rows_to_dicts _) as [l | e]; cbn [decoded];
    [intros [= <-]; reflexivity | discriminate].
Qed.

Section Ordering.

Hypothesis same_rows : forall rs, Permutation rs (order_by_created_at_desc rs).

(** X29.  The counts of [get_idea_count] are the lengths of the lists
    [get_all_ideas] returns without a limit: the total is the number of
    all ideas, [implemented] the number with [implemented_only], and
    [unimplemented] the number of listed ideas that are not implemented. *)
Theorem idea_count_matches_the_lists t every done :
  get_all_ideas None false t = inl every ->
  get_all_ideas None true t = inl done ->
  total (get_idea_count t) = Z.of_nat (length every) /\
  implemented_count (get_idea_count t) = Z.of_nat (length done) /\
  unimplemented (get_idea_count t)
  = Z.of_nat (length (filter (fun d => negb (dict_implemented d)) every)).
Proof.
  intros A D. apply get_all_ideas_returned in A, D.
  unfold database.select_all in A, D.
  pose proof (rows_to_dicts_length _ A) as LA.
  pose proof (rows_to_dicts_length _ D) as LD.
  apply rows_to_dicts_flags in A.
  rewrite <- (Permutation_length (same_rows _)) in LA.
  rewrite <- (Permutation_length (same_rows _)) in LD.
  assert (I : implemented_count (get_idea_count t)
              = Z.of_nat (length (filter implemented (rows t)))).
  { unfold get_idea_count. cbn [implemented_count].
    destruct (rows t); reflexivity. }
  assert (T : total (get_idea_count t) = Z.of_nat (length (rows t)))
    by reflexivity.
  repeat split.
  - rewrite LA. exact T.
  - rewrite LD. exact I.
  - change (unimplemented (get_idea_count t))
      with (total (get_idea_count t) - implemented_count (get_idea_count t))%Z.
    rewrite T, I, count_false_map, A, <- count_false_map.
    rewrite <- (Permutation_length (filter_permutation _ (same_rows (rows t)))).
    pose proof (count_split implemented (rows t)). lia.
Qed.

(** X30.  The limit of [get_all_ideas]: of [n] matching rows a positive
    limit gives [min(limit, n)]; no limit, 0 and a negative limit give all
    [n].  With [implemented_only] every listed idea is implemented. *)
Theorem get_all_ideas_limit limit implemented_only t ds :
  get_all_ideas limit implemented_only t = inl ds ->
  let matching := if implemented_only then filter implemented (rows t)
                  else rows t in
  length ds
  = match limit with
    | Some n => if (0 <? n)%Z then Nat.min (Z.to_nat n) (length matching)
                else length matching
    | None => length matching
    end /\
  (implemented_only = true ->
   forall d, In d ds -> dict_implemented d = true).
Proof.
  intros G matching. apply get_all_ideas_returned in G.
  unfold database.select_all in G. cbv zeta in G.
  fold matching in G. split.
  - rewrite (rows_to_dicts_length _ G).
    pose proof (Permutation_length (same_rows matching)) as P.
    destruct limit as [n|]; [| symmetry; exact P].
    destruct (Z.eqb_spec n 0) as [-> | N0]; [symmetry; exact P |].
    destruct (Z.ltb_spec n 0); destruct (Z.ltb_spec 0 n); try lia.
    rewrite length_firstn, P. reflexivity.
  - intros -> d Hd. apply rows_to_dicts_flags in G.
    apply (in_map (@dict_implemented JsonValue)) in Hd. rewrite G in Hd.
    apply in_map_iff in Hd as (r & <- & Hr).
    assert (In r (order_by_created_at_desc matching)).
    { destruct limit as [n|]; [| exact Hr].
      destruct (n =? 0)%Z; [exact Hr |].
      destruct (n <? 0)%Z; [exact Hr |].
      eapply in_firstn. exact Hr. }
    apply (Permutation_in r (Permutation_sym (same_rows matching))) in H.
    apply filter_In in H as [_ H]. exact H.
Qed.

End Ordering.

End TableFacts.

(** * Further worked examples *)

Lemma ascii_lower_no_capitals : no_capitals Instances.ascii_lower.
Proof.
  intros s c H. unfold Instances.ascii_lower in H.
  apply in_map_iff in H as (x & <- & _).
  destruct (65 <=? x)%N eqn:A; destruct (x <=? 90)%N eqn:B; cbn [andb];
    rewrite ?N.leb_le, ?N.leb_gt in *; lia.
Qed.

Section FurtherExamples.

Import news_fetcher ai_insight Instances Scenarios Cases utils cogs.

Abbreviation latest := (get_latest_news ascii_digit fromisoformat_core).
Abbreviation cves := (get_cves_only ascii_digit fromisoformat_core).
Abbreviation lookup := (database.get_idea_by_id text_loads).
Abbreviation listing := (database.get_all_ideas text_loads newest_first).

(** X1 at a title that names a CVE. *)
Lemma feed_cve_id_is_found_in_title_or_link_witness :
  exists item,
    _parse_feed_entry ascii_digit vpn_entry (lit "rss") true = Some item /\
    cve_id item = Some (lit "CVE-2024-12345") /\
    cve_shaped ascii_digit (lit "CVE-2024-12345").
Proof.
  eexists. split; [reflexivity |]. split; [reflexivity |].
  destruct (@feed_cve_id_is_found_in_title_or_link ascii_digit vpn_entry
              (lit "rss") true _ eq_refl) as [H _].
  destruct (H (lit "CVE-2024-12345") eq_refl) as (_ & S & _). exact S.
Defined.

(** X3 at the dated record of [sentinel_tie]. *)
Lemma enricher_item_shape_witness :
  type tie_dated = CVE /\ source tie_dated = NIST_NVD.
Proof.
  destruct (@enricher_item_shape sentinel_tie 5 tie_dated) as (T & S & _).
  - vm_compute. right. left. reflexivity.
  - split; assumption.
Defined.

(** X4 with nothing reachable. *)
Lemma all_sources_down_witness :
  latest offline 5 true = Ok [] /\ cves offline 5 = Ok [].
Proof.
  apply all_sources_down; intros; eexists; reflexivity.
Defined.

(** X7: two of the seven items of [busy]. *)
Lemma returns_the_first_places_witness :
  exists out, latest busy 2 true = Ok out /\ length out = 2.
Proof.
  destruct (latest busy 2 true) as [out|] eqn:E;
    [| vm_compute in E; discriminate].
  exists out. split; [reflexivity |].
  destruct (@returns_the_first_places ascii_digit fromisoformat_core busy 2
              true out E) as (_ & L & _).
  rewrite L by lia. vm_compute. reflexivity.
Defined.

(** X9 at a transport that always answers 500. *)
Lemma persistent_failure_exhausts_retries_witness :
  fst (run erroring 2)
  = Message (SERVICE_ERROR (lit "500 Internal Server Error")) /\
  attempts (snd (run erroring 2)) = 3 /\
  sleeps (snd (run erroring 2)) = [1; 1]%Z.
Proof.
  destruct (@persistent_failure_exhausts_retries ascii_lower unit no_json
              HEAD TAIL erroring one_item 2
              (fun _ => lit "500 Internal Server Error"))
    as (H1 & H2 & H3).
  - reflexivity.
  - intros j _. split; [reflexivity | right; reflexivity].
  - repeat split; assumption.
Defined.

(** X10: the third attempt succeeds. *)
Lemma returns_ideas_once_an_attempt_succeeds_witness :
  fst (analyze_news_for_ideas ascii_lower bracketed HEAD TAIL recovers
         one_item 2) = Ideas (lit "[]") /\
  attempts (snd (analyze_news_for_ideas ascii_lower bracketed HEAD TAIL
                   recovers one_item 2)) = 3 /\
  sleeps (snd (analyze_news_for_ideas ascii_lower bracketed HEAD TAIL
                 recovers one_item 2)) = [2; 4]%Z.
Proof.
  destruct (@returns_ideas_once_an_attempt_succeeds ascii_lower pystr
              bracketed HEAD TAIL recovers one_item 2 2 (lit "[]")
              (fun _ => lit "UNAVAILABLE 503"))
    as (H1 & H2 & H3).
  - reflexivity.
  - lia.
  - intros j Hj. destruct j as [|[|j]]; [| | lia];
      (split; [reflexivity | left; reflexivity]).
  - reflexivity.
  - repeat split; assumption.
Defined.

(** X11: a message that names the API key is no authentication failure. *)
Lemma api_key_signal_never_fires_witness :
  is_auth ascii_lower (lit "Invalid API key") = false.
Proof.
  rewrite (proj1 (@api_key_signal_never_fires ascii_lower
                    (lit "Invalid API key") ascii_lower_no_capitals)).
  reflexivity.
Defined.

(** X12 at the answer to a persistent 503. *)
Lemma answer_colours_witness :
  get_error_color ORANGE RED OVERLOADED = ORANGE.
Proof.
  destruct (@answer_colours ascii_lower unit no_json HEAD TAIL ORANGE RED
              (fun _ => None)
              (failing (Some (lit "key")) (lit "503 UNAVAILABLE")) one_item
              2 OVERLOADED eq_refl)
    as [[_ C] | [[E _] | [[E _] | [[E _] | [[E _] | [(e & E & _)
       | (v & text & E & _)]]]]]];
    [exact C | exfalso; cbv in E; discriminate ..].
Defined.

(** X13 and X14 at the default suffix. *)
Lemma truncate_text_fits_witness :
  truncate_text (lit "abcdefghij") 8 ELLIPSIS = lit "abcde...".
Proof.
  destruct (@truncate_text_fits (lit "abcdefghij") 8 ELLIPSIS)
    as (_ & H & _); [vm_compute; discriminate |].
  destruct H as [E _]; [reflexivity |]. rewrite E. reflexivity.
Defined.

Lemma truncate_text_overshoots_witness :
  (2 < Z.of_nat (length (truncate_text (lit "abcdef") 2 ELLIPSIS)))%Z.
Proof.
  apply (@truncate_text_overshoots (lit "abcdef") 2 ELLIPSIS); reflexivity.
Defined.

(** X15 at a summary of 500 characters. *)
Lemma summaries_are_displayed_in_full_witness :
  exists out,
    cves long_record 5 = Ok out /\
    Forall (fun item =>
              truncate_text (summary item) DESCRIPTION_MAX ELLIPSIS
              = summary item) out.
Proof.
  destruct (cves long_record 5) as [out|] eqn:E;
    [| vm_compute in E; discriminate].
  exists out. split; [reflexivity |].
  apply (@summaries_are_displayed_in_full ascii_digit fromisoformat_core
           DESCRIPTION_MAX long_record 5 true out);
    [vm_compute; discriminate | right; exact E].
Defined.

(** X16 and X17 at a request for 50 items. *)
Lemma validated_limit_in_range_witness :
  (AT_LEAST <= validate_news_limit AT_LEAST AT_MOST 50 <= AT_MOST)%Z.
Proof.
  apply (@validated_limit_in_range AT_LEAST AT_MOST 50).
  vm_compute. discriminate.
Defined.

Lemma commands_fetch_at_most_max_witness :
  exists out,
    latest busy (validate_news_limit AT_LEAST AT_MOST 50) true = Ok out /\
    (Z.of_nat (length out) <= AT_MOST)%Z.
Proof.
  destruct (latest busy (validate_news_limit AT_LEAST AT_MOST 50) true)
    as [out|] eqn:E; [| vm_compute in E; discriminate].
  exists out. split; [reflexivity |].
  destruct (@commands_fetch_at_most_max ascii_digit fromisoformat_core
              AT_LEAST AT_MOST busy 50 true out) as [A B].
  - vm_compute. split; discriminate.
  - left. exact E.
  - lia.
Defined.

(** X18 at two short items. *)
Lemma list_field_fits_witness :
  (Z.of_nat (length (truncate_list_to_field [lit "alpha"; lit "beta"] 1024))
   <= 1024)%Z.
Proof.
  destruct (@list_field_fits [lit "alpha"; lit "beta"] 1024) as [[A B] _];
    [discriminate | lia | lia].
Defined.

(** X21 to X30 on the table of two saved ideas. *)
Lemma reachable_tables_are_valid_witness :
  database.valid two_ideas /\ database.decodable text_dumps two_ideas.
Proof.
  apply (@reachable_tables_are_valid pystr text_dumps (lit "[]") two_ideas).
  apply database.reach_save, database.reach_init.
Defined.



Lemma marked_idea_reads_implemented_witness :
  lookup 1 one_implemented
  = inl (Some (database.with_implemented true (Some morning)
                 (database.as_saved (lit "[]") 1 (noon 0) scanner))).
Proof.
  apply (@marked_idea_reads_implemented pystr text_loads morning 1 two_ideas);
    reflexivity.
Defined.

Lemma unmark_undoes_mark_witness :
  database.mark_idea_unimplemented 1 one_implemented = (inl true, two_ideas).
Proof.
  apply (@unmark_undoes_mark morning 1 two_ideas);
    [apply save_valid, empty_table_valid | reflexivity].
Defined.

Lemma delete_idea_effect_witness :
  fst (database.delete_idea 2 two_ideas) = inl true /\
  lookup 2 newest_deleted = inl None /\
  database.total (database.get_idea_count newest_deleted) = 1%Z /\
  database.delete_idea (database.MAX_ROWID + 1) two_ideas
  = (inr database.OverflowError, two_ideas).
Proof.
  destruct (@delete_idea_effect pystr text_loads 2 two_ideas)
    as [A _]; [apply save_valid, empty_table_valid |].
  destruct A as (A & _ & B & _ & C); [reflexivity |].
  destruct (@delete_idea_effect pystr text_loads (database.MAX_ROWID + 1)
              two_ideas) as [_ D]; [apply save_valid, empty_table_valid |].
  destruct D as [D _]; [reflexivity |].
  split; [| split; [| split]].
  - apply A. vm_compute. right. left. reflexivity.
  - exact B.
  - unfold newest_deleted. rewrite C. reflexivity.
  - exact D.
Defined.

Lemma deleted_id_is_not_reused_witness :
  lookup 2 (snd (save [fuzzer] newest_deleted)) = inl None.
Proof.
  apply (@deleted_id_is_not_reused pystr text_dumps text_loads (lit "[]") 2
           two_ideas noon [fuzzer]);
    [apply save_valid, empty_table_valid
    | vm_compute; right; left; reflexivity].
Defined.

Lemma idea_count_matches_the_lists_witness :
  database.total (database.get_idea_count one_implemented) = 2%Z /\
  database.implemented_count (database.get_idea_count one_implemented) = 1%Z /\
  database.unimplemented (database.get_idea_count one_implemented) = 1%Z.
Proof.
  edestruct (@idea_count_matches_the_lists pystr text_loads newest_first
               (@Permutation_rev database.Row) one_implemented)
    as (A & B & C); [reflexivity | reflexivity |].
  split; [exact A | split; [exact B | exact C]].
Defined.

Lemma get_all_ideas_limit_witness :
  exists ds,
    listing (Some 1%Z) false two_ideas = inl ds /\ length ds = 1.
Proof.
  eexists. split; [reflexivity |].
  edestruct (@get_all_ideas_limit pystr text_loads newest_first
               (@Permutation_rev database.Row) (Some 1%Z) false two_ideas)
    as [L _]; [reflexivity |].
  exact L.
Defined.

(** The newest idea lists first, with the defaults of the keys it lacks. *)
Example listing_newest_first :
  match listing None false two_ideas with
  | inl ds => map (@database.dict_title pystr) ds
  | inr _ => []
  end = [lit "Untitled"; lit "Port scanner"].
Proof. vm_compute. reflexivity. Qed.

End FurtherExamples.
